(** * LibraryManager: synchronisation of music providers into the library

    A shallow embedding of [music_assistant/managers/library.py].

    The manager is asynchronous Python that talks to four collaborators
    (the providers, the music manager, the database and the cache) and keeps
    one piece of state of its own, the list [running_sync_jobs].  The
    embedding threads a [World] through a state-and-exception monad [M]:
    the world holds the running-jobs list, the cache and the chronological
    trace of every collaborator call; a call that raises ends the
    computation with [Raise], exactly where the Python exception would
    unwind to.  What a collaborator answers is given by the record [Mass]
    (the Python [mass] object the manager is built on), as a function of
    the arguments of the call: any answer, failure included, can be given
    to any call, the reads and writes of the cache too, and the statements
    below hold for every [Mass]. *)

From stdpp Require Import gmap strings list fin_maps sorting.

Open Scope string_scope.
Open Scope list_scope.

(** ** Data model

    The classes of [music_assistant.models] are imported by the manager,
    not declared in it. *)

(** Modelled from the spec: the enum [MediaType] of
    music_assistant.models.media_types, "a media_type
    (artist/album/track/playlist/radio)". *)
Inductive MediaType := Artist | Album | Track | Playlist | Radio.

#[global] Instance MediaType_eq_dec : EqDecision MediaType.
Proof. solve_decision. Defined.

(** Modelled from the spec: the enum [ProviderType] of
    music_assistant.models.provider; the manager looks at one member,
    [MUSIC_PROVIDER], the "music-catalog-capable provider". *)
Inductive ProviderType :=
  MUSIC_PROVIDER | PLAYER_PROVIDER | METADATA_PROVIDER | PLUGIN.

#[global] Instance ProviderType_eq_dec : EqDecision ProviderType.
Proof. solve_decision. Defined.

(** Modelled from the spec: one entry of [media_item.provider_ids], the
    spec's ProviderRef "(provider_name, provider_item_id, quality)", with
    the attributes [provider], [item_id] and [quality] the manager reads. *)
Record MediaItemProviderId := {
  pr_provider : string;
  pr_item_id : string;
  pr_quality : Z
}.

#[global] Instance MediaItemProviderId_eq_dec : EqDecision MediaItemProviderId.
Proof. solve_decision. Defined.

(** Modelled from the spec: the classes Artist, Album, Track, Playlist and
    Radio of music_assistant.models.media_types, a MediaItem "with a
    media_type, a local identifier, an available flag, and a set of
    ProviderRef entries", a playlist with "an is_editable flag and a
    checksum".  The fields are the attributes the manager reads; Python is
    duck typed, so one record serves all media types.  Identifiers are
    strings. *)
Record MediaItem := {
  item_id : string;
  provider : string;
  media_type : MediaType;
  available : bool;
  provider_ids : list MediaItemProviderId;
  is_editable : bool;
  checksum : string
}.

#[global] Instance MediaItem_eq_dec : EqDecision MediaItem.
Proof. solve_decision. Defined.

(** ** Exceptions and results *)

Inductive exn :=
  | AttributeError          (* attribute access on None *)
  | IndexError              (* [l[0]] on an empty list *)
  | ValueError              (* [list.remove(x)], x not in list *)
  | CollabError (what : string).  (* raised inside a collaborator *)

Inductive result (A : Type) :=
  | Ok (a : A)
  | Raise (e : exn).
Arguments Ok {A} a.
Arguments Raise {A} e.

(** What the playlist operations hand back: [None], or a boolean. *)
Inductive pyret := PyNone | PyBool (b : bool).

(** ** The trace of collaborator calls *)

Definition sync_job := (string * string)%type.

Inductive Event :=
  | signal_event (jobs : list sync_job)
      (* mass.signal_event(EVENT_MUSIC_SYNC_STATUS, running_sync_jobs) *)
  | add_job (prov_id : string)
      (* mass.add_job(self.async_music_provider_sync(prov_id)) *)
  | cache_async_get (key : string)
  | cache_async_set (key : string) (ids : list string)
  | prov_get_library (prov_id : string) (mt : MediaType)
      (* music_provider.async_get_library_<mt>s() *)
  | music_get (mt : MediaType) (id prov_id : string)
      (* mass.music.async_get_<mt>(item_id, provider_id) *)
  | music_match_album (it : MediaItem)
  | music_match_track (it : MediaItem)
  | music_add_track (it : MediaItem)
  | music_get_album_tracks (id prov_id : string)
  | music_get_playlist_tracks (id prov_id : string)
  | db_add_playlist (it : MediaItem)
  | db_add_to_library (id : string) (mt : MediaType) (prov_id : string)
  | db_remove_from_library (id : string) (mt : MediaType) (prov_id : string)
  | db_update_playlist (id field value : string)
  | prov_library_add (prov_id id : string) (mt : MediaType)
  | prov_library_remove (prov_id id : string) (mt : MediaType)
  | prov_add_playlist_tracks (prov_id playlist_id : string) (ids : list string)
  | prov_remove_playlist_tracks (prov_id playlist_id : string) (ids : list string).

#[global] Instance Event_eq_dec : EqDecision Event.
Proof. solve_decision. Defined.

(** ** The world and the monad *)

Record World := {
  running_sync_jobs : list sync_job;
  cache : gmap string (list string);
  trace : list Event
}.

Definition M (A : Type) : Type := World → result A * World.

#[global] Instance M_ret : MRet M := λ A a w, (Ok a, w).
#[global] Instance M_bind : MBind M := λ A B f m w,
  match m w with
  | (Ok a, w') => f a w'
  | (Raise e, w') => (Raise e, w')
  end.

Definition raise {A} (e : exn) : M A := λ w, (Raise e, w).

(** A collaborator call: the call is logged, then it answers or raises. *)
Definition call {A} (ev : Event) (answer : result A) : M A := λ w,
  (answer,
   {| running_sync_jobs := running_sync_jobs w;
      cache := cache w;
      trace := trace w ++ [ev] |}).

(** [o.attr] where [o] may be None. *)
Definition attr {A} (o : option A) : M A :=
  match o with
  | Some a => mret a
  | None => raise AttributeError
  end.

(** [for x in l: body], with the loop's local variables as [s]. *)
Fixpoint for_each {A S} (l : list A) (body : A → S → M S) (s : S) : M S :=
  match l with
  | [] => mret s
  | x :: l' => s' ← body x s; for_each l' body s'
  end.

(** ** The collaborators *)

(** Modelled from the spec: a provider object as [mass.get_provider]
    returns it, with its id, type, "declared subset of media types" and the
    methods the manager awaits ("catalog listing and library-mutation
    operations").  Every method answers with a value or raises. *)
Record Provider := {
  prov_id : string;
  prov_type : ProviderType;
  supported_mediatypes : list MediaType;
  provider_async_get_library : MediaType → result (list MediaItem);
  provider_async_library_add : string → MediaType → result bool;
  provider_async_library_remove : string → MediaType → result bool;
  provider_async_add_playlist_tracks : string → list string → result bool;
  provider_async_remove_playlist_tracks : string → list string → result bool
}.

(** Modelled from the spec: the [mass] object the manager is built on,
    that is the provider lookup, the music manager [mass.music] (the
    "match/lookup collaborator"), the store [mass.database], the cache
    [mass.cache] and the clock.  A call answers with a value or raises;
    the lookups may answer None.  What the cache holds is part of the
    world; [cache_get_raises] and [cache_set_raises] say which reads and
    writes raise and, for a write that raises, whether the value was
    stored all the same. *)
Record Mass := {
  get_provider : string → option Provider;
  get_providers : ProviderType → list Provider;
  music_async_get : MediaType → string → string → result (option MediaItem);
  music_async_match_album : MediaItem → result (option MediaItem);
  music_async_match_track : MediaItem → result unit;
  music_async_add_track : MediaItem → result (option MediaItem);
  music_async_get_album_tracks : string → string → result (list MediaItem);
  music_async_get_playlist_tracks : string → string → result (list MediaItem);
  database_async_add_playlist : MediaItem → result (option MediaItem);
  database_async_add_to_library : string → MediaType → string → result unit;
  database_async_remove_from_library :
    string → MediaType → string → result unit;
  database_async_update_playlist : string → string → string → result unit;
  cache_get_raises : string → option exn;
  cache_set_raises : string → list string → option (exn * bool);
  (* str(time.time()), read when the trace holds [n] calls *)
  time_time : nat → string
}.

(** ** sync_task: the decorator that reports a sync task *)

(** The [for ... in running_sync_jobs: if ... == ...: return] scan. *)
Fixpoint already_running (jobs : list sync_job) (prov_id desc : string) : bool :=
  match jobs with
  | [] => false
  | (sync_prov_id, sync_desc) :: jobs' =>
      if decide (sync_prov_id = prov_id ∧ sync_desc = desc) then true
      else already_running jobs' prov_id desc
  end.

(** Python's [list.remove]: drops the first occurrence, None when absent. *)
Fixpoint list_remove (x : sync_job) (l : list sync_job) : option (list sync_job) :=
  match l with
  | [] => None
  | y :: l' =>
      if decide (x = y) then Some l' else (y ::.) <$> list_remove x l'
  end.

Definition get_jobs : M (list sync_job) := λ w, (Ok (running_sync_jobs w), w).

Definition jobs_append (job : sync_job) : M unit := λ w,
  (Ok tt,
   {| running_sync_jobs := running_sync_jobs w ++ [job];
      cache := cache w;
      trace := trace w |}).

Definition jobs_remove (job : sync_job) : M unit := λ w,
  match list_remove job (running_sync_jobs w) with
  | Some jobs =>
      (Ok tt,
       {| running_sync_jobs := jobs; cache := cache w; trace := trace w |})
  | None => (Raise ValueError, w)
  end.

Definition signal_sync_status : M unit :=
  jobs ← get_jobs; call (signal_event jobs) (Ok tt).

Definition sync_task (desc : string) (func : string → M unit)
    (prov_id : string) : M unit :=
  jobs ← get_jobs;
  (* check if this sync task is not already running *)
  if already_running jobs prov_id desc then mret tt
  else
    let sync_job := (prov_id, desc) in
    _ ← jobs_append sync_job;
    _ ← signal_sync_status;
    _ ← func prov_id;
    _ ← jobs_remove sync_job;
    signal_sync_status.

(** ** class LibraryManager *)

Section LibraryManager.

(** [self.mass]; the event name lives in music_assistant.constants. *)
Variable mass : Mass.
Variable EVENT_PROVIDER_REGISTERED : string.

(** Modelled from the spec: the cache, "Cache: get(key, default) ->
    value; set(key, value)", a key/value store.
    [await self.mass.cache.async_get(key, default=dflt)]: the call is
    logged; it answers with the stored value, with [dflt] when the key is
    absent, or it raises. *)
Definition cache_get (key : string) (dflt : list string) : M (list string) :=
  λ w,
  (match cache_get_raises mass key with
   | None => Ok (default dflt (cache w !! key))
   | Some e => Raise e
   end,
   {| running_sync_jobs := running_sync_jobs w;
      cache := cache w;
      trace := trace w ++ [cache_async_get key] |}).

(** [await self.mass.cache.async_set(key, ids)]: the call is logged; it
    stores the value and answers, or it raises, and then the value may or
    may not have been stored ([stored] says which). *)
Definition cache_set (key : string) (ids : list string) : M unit := λ w,
  match cache_set_raises mass key ids with
  | None =>
      (Ok tt,
       {| running_sync_jobs := running_sync_jobs w;
          cache := <[key := ids]> (cache w);
          trace := trace w ++ [cache_async_set key ids] |})
  | Some (e, stored) =>
      (Raise e,
       {| running_sync_jobs := running_sync_jobs w;
          cache := if stored : bool then <[key := ids]> (cache w) else cache w;
          trace := trace w ++ [cache_async_set key ids] |})
  end.

(** [provider.method(...)]: the provider may be None. *)
Definition prov_call {A} (p : option Provider) (ev : string → Event)
    (method : Provider → result A) : M A :=
  p ← attr p; call (ev (prov_id p)) (method p).

Definition music_get_item (mt : MediaType) (id prov : string)
    : M (option MediaItem) :=
  call (music_get mt id prov) (music_async_get mass mt id prov).

Definition add_to_library (id : string) (mt : MediaType) (prov : string)
    : M unit :=
  call (db_add_to_library id mt prov)
       (database_async_add_to_library mass id mt prov).

Definition remove_from_library (id : string) (mt : MediaType) (prov : string)
    : M unit :=
  call (db_remove_from_library id mt prov)
       (database_async_remove_from_library mass id mt prov).

Definition add_track (t : MediaItem) : M (option MediaItem) :=
  call (music_add_track t) (music_async_add_track mass t).

Definition match_track (t : MediaItem) : M unit :=
  call (music_match_track t) (music_async_match_track mass t).

(** Handle message on eventbus. *)
Definition mass_event (msg : string) (msg_details : string) : M unit :=
  if decide (msg = EVENT_PROVIDER_REGISTERED) then
    (* schedule a sync task when a new provider registers *)
    let provider := get_provider mass msg_details in
    provider ← attr provider;
    if decide (prov_type provider = MUSIC_PROVIDER) then
      call (add_job msg_details) (Ok tt)
    else mret tt
  else mret tt.

(** Add media item(s) to the library. *)
Definition library_add_item (media_item : MediaItem) (result0 : bool)
    : M bool :=
  result1 ← for_each (provider_ids media_item) (λ prov result,
    match get_provider mass (pr_provider prov) with
    | Some provider =>
        call (prov_library_add (prov_id provider) (pr_item_id prov)
                (media_type media_item))
             (provider_async_library_add provider (pr_item_id prov)
                (media_type media_item))
    | None => mret result
    end) result0;
  if decide (provider media_item = "database") then
    _ ← add_to_library (item_id media_item) (media_type media_item)
          (provider media_item);
    mret result1
  else mret result1.

Definition async_library_add (media_items : list MediaItem) : M bool :=
  for_each media_items library_add_item false.

(** The "process deletions" loop shared, as text, by the five syncs. *)
Definition process_deletions (mt : MediaType) (provider_id : string)
    (prev_db_ids cur_db_ids : list string) : M unit :=
  for_each prev_db_ids (λ db_id _,
    if bool_decide (db_id ∉ cur_db_ids) then
      remove_from_library db_id mt provider_id
    else mret tt) tt.

(** The "precache tracks" step of the album and playlist syncs. *)
Definition precache_track (t : MediaItem) (_ : unit) : M unit :=
  (* try to find substitutes for unavailable tracks *)
  if negb (available t) then
    if decide (provider t = "database") then match_track t
    else _ ← add_track t; mret tt
  else mret tt.

(** Sync library artists for given provider. *)
Definition library_artists_sync (provider_id : string) : M unit :=
  let music_provider := get_provider mass provider_id in
  let cache_key := "library_artists_" +:+ provider_id in
  prev_db_ids ← cache_get cache_key [];
  items ← prov_call music_provider (λ p, prov_get_library p Artist)
             (λ p, provider_async_get_library p Artist);
  cur_db_ids ← for_each items (λ item cur_db_ids,
    db_item ← music_get_item Artist (item_id item) provider_id;
    db_item ← attr db_item;
    let cur_db_ids := cur_db_ids ++ [item_id db_item] in
    _ ← add_to_library (item_id db_item) Artist provider_id;
    mret cur_db_ids) [];
  (* process deletions *)
  _ ← process_deletions Artist provider_id prev_db_ids cur_db_ids;
  (* store ids in cache for next sync *)
  cache_set cache_key cur_db_ids.

Definition async_library_artists_sync : string → M unit :=
  sync_task "artists" library_artists_sync.

(** Sync library albums for given provider. *)
Definition library_albums_sync (provider_id : string) : M unit :=
  let music_provider := get_provider mass provider_id in
  let cache_key := "library_albums_" +:+ provider_id in
  prev_db_ids ← cache_get cache_key [];
  items ← prov_call music_provider (λ p, prov_get_library p Album)
             (λ p, provider_async_get_library p Album);
  cur_db_ids ← for_each items (λ item cur_db_ids,
    db_album ← music_get_item Album (item_id item) provider_id;
    db_album ← attr db_album;
    db_album ←
      (if negb (bool_decide (available db_album = available item)) then
         (* album availability changed *)
         db_album ← call (music_match_album db_album)
                         (music_async_match_album mass db_album);
         attr db_album
       else mret db_album);
    let cur_db_ids := cur_db_ids ++ [item_id db_album] in
    _ ← add_to_library (item_id db_album) Album provider_id;
    (* precache album tracks *)
    album_tracks ← call (music_get_album_tracks (item_id item) provider_id)
      (music_async_get_album_tracks mass (item_id item) provider_id);
    _ ← for_each album_tracks precache_track tt;
    mret cur_db_ids) [];
  (* process album deletions *)
  _ ← process_deletions Album provider_id prev_db_ids cur_db_ids;
  (* store ids in cache for next sync *)
  cache_set cache_key cur_db_ids.

Definition async_library_albums_sync : string → M unit :=
  sync_task "albums" library_albums_sync.

(** Sync library tracks for given provider. *)
Definition library_tracks_sync (provider_id : string) : M unit :=
  let music_provider := get_provider mass provider_id in
  let cache_key := "library_tracks_" +:+ provider_id in
  prev_db_ids ← cache_get cache_key [];
  items ← prov_call music_provider (λ p, prov_get_library p Track)
             (λ p, provider_async_get_library p Track);
  cur_db_ids ← for_each items (λ item cur_db_ids,
    db_item ← music_get_item Track (item_id item) provider_id;
    db_item ← attr db_item;
    db_item ←
      (if negb (bool_decide (available db_item = available item)) then
         (* track availability changed *)
         db_item ← add_track item;
         attr db_item
       else mret db_item);
    let cur_db_ids := cur_db_ids ++ [item_id db_item] in
    _ ← (if bool_decide (item_id db_item ∉ prev_db_ids) then
           add_to_library (item_id db_item) Track provider_id
         else mret tt);
    mret cur_db_ids) [];
  (* process deletions *)
  _ ← process_deletions Track provider_id prev_db_ids cur_db_ids;
  (* store ids in cache for next sync *)
  cache_set cache_key cur_db_ids.

Definition async_library_tracks_sync : string → M unit :=
  sync_task "tracks" library_tracks_sync.

(** Sync library playlists for given provider. *)
Definition library_playlists_sync (provider_id : string) : M unit :=
  let music_provider := get_provider mass provider_id in
  let cache_key := "library_playlists_" +:+ provider_id in
  prev_db_ids ← cache_get cache_key [];
  items ← prov_call music_provider (λ p, prov_get_library p Playlist)
             (λ p, provider_async_get_library p Playlist);
  cur_db_ids ← for_each items (λ playlist cur_db_ids,
    db_item ← music_get_item Playlist (item_id playlist) provider_id;
    db_item ← attr db_item;
    db_item ←
      (if negb (bool_decide (checksum db_item = checksum playlist)) then
         db_item ← call (db_add_playlist playlist)
                        (database_async_add_playlist mass playlist);
         attr db_item
       else mret db_item);
    let cur_db_ids := cur_db_ids ++ [item_id db_item] in
    _ ← add_to_library (item_id db_item) Playlist (provider playlist);
    (* precache playlist tracks *)
    playlist_tracks ←
      call (music_get_playlist_tracks (item_id playlist) provider_id)
        (music_async_get_playlist_tracks mass (item_id playlist) provider_id);
    _ ← for_each playlist_tracks precache_track tt;
    mret cur_db_ids) [];
  (* process playlist deletions *)
  _ ← process_deletions Playlist provider_id prev_db_ids cur_db_ids;
  (* store ids in cache for next sync *)
  cache_set cache_key cur_db_ids.

Definition async_library_playlists_sync : string → M unit :=
  sync_task "playlists" library_playlists_sync.

(** Sync library radios for given provider. *)
Definition library_radios_sync (provider_id : string) : M unit :=
  let music_provider := get_provider mass provider_id in
  let cache_key := "library_radios_" +:+ provider_id in
  prev_db_ids ← cache_get cache_key [];
  items ← prov_call music_provider (λ p, prov_get_library p Radio)
             (λ p, provider_async_get_library p Radio);
  cur_db_ids ← for_each items (λ item cur_db_ids,
    db_radio ← music_get_item Radio (item_id item) provider_id;
    db_radio ← attr db_radio;
    let cur_db_ids := cur_db_ids ++ [item_id db_radio] in
    _ ← add_to_library (item_id db_radio) Radio provider_id;
    mret cur_db_ids) [];
  (* process deletions *)
  _ ← process_deletions Radio provider_id prev_db_ids cur_db_ids;
  (* store ids in cache for next sync *)
  cache_set cache_key cur_db_ids.

Definition async_library_radios_sync : string → M unit :=
  sync_task "radios" library_radios_sync.

(** Sync a music provider. *)
Definition async_music_provider_sync (prov_id : string) : M unit :=
  match get_provider mass prov_id with
  | None => mret tt
  | Some provider =>
      _ ← (if bool_decide (Album ∈ supported_mediatypes provider)
           then async_library_albums_sync prov_id else mret tt);
      _ ← (if bool_decide (Track ∈ supported_mediatypes provider)
           then async_library_tracks_sync prov_id else mret tt);
      _ ← (if bool_decide (Artist ∈ supported_mediatypes provider)
           then async_library_artists_sync prov_id else mret tt);
      _ ← (if bool_decide (Playlist ∈ supported_mediatypes provider)
           then async_library_playlists_sync prov_id else mret tt);
      if bool_decide (Radio ∈ supported_mediatypes provider)
      then async_library_radios_sync prov_id else mret tt
  end.

(** Periodic sync of all music providers: one round of the timer. *)
Definition async_music_providers_sync : M unit :=
  for_each (get_providers mass MUSIC_PROVIDER)
    (λ prov _, async_music_provider_sync (prov_id prov)) tt.

(** Remove media item(s) from the library. *)
Definition library_remove_item (media_item : MediaItem) (result0 : bool)
    : M bool :=
  result1 ← for_each (provider_ids media_item) (λ prov result,
    match get_provider mass (pr_provider prov) with
    | Some provider =>
        call (prov_library_remove (prov_id provider) (pr_item_id prov)
                (media_type media_item))
             (provider_async_library_remove provider (pr_item_id prov)
                (media_type media_item))
    | None => mret result
    end) result0;
  if decide (provider media_item = "database") then
    _ ← remove_from_library (item_id media_item) (media_type media_item)
          (provider media_item);
    mret result1
  else mret result1.

Definition async_library_remove (media_items : list MediaItem) : M bool :=
  for_each media_items library_remove_item false.

(** *** Playlist tracks *)

(** [l[0]] *)
Definition first_item {A} (l : list A) : M A :=
  match l with
  | x :: _ => mret x
  | [] => raise IndexError
  end.

Definition now : M string := λ w, (Ok (time_time mass (length (trace w))), w).

(** [sorted(provider_ids, key=lambda x: x.quality, reverse=True)]:
    Python's sort is stable, also with reverse=True, so versions of equal
    quality keep their order. *)
Fixpoint insert_by_quality (x : MediaItemProviderId)
    (l : list MediaItemProviderId) : list MediaItemProviderId :=
  match l with
  | [] => [x]
  | y :: l' =>
      if (pr_quality y <=? pr_quality x)%Z then x :: y :: l'
      else y :: insert_by_quality x l'
  end.

Fixpoint sorted_by_quality (l : list MediaItemProviderId)
    : list MediaItemProviderId :=
  match l with
  | [] => []
  | x :: l' => insert_by_quality x (sorted_by_quality l')
  end.

(** grab all existing track ids in the playlist *)
Definition cur_playlist_track_ids_of (items : list MediaItem) : list string :=
  fold_left (λ cur_playlist_track_ids item,
    (cur_playlist_track_ids ++ [item_id item])
      ++ map pr_item_id (provider_ids item)) items [].

(** check for duplicates *)
Definition already_exists (cur_playlist_track_ids : list string)
    (track : MediaItem) : bool :=
  fold_left (λ already_exists track_prov,
    if bool_decide (pr_item_id track_prov ∈ cur_playlist_track_ids)
    then true else already_exists)
    (provider_ids track)
    (bool_decide (item_id track ∈ cur_playlist_track_ids)).

(** The [for track_version in sorted(...)] loop with its two [break]s:
    the id queued for the track, None when the loop ends without one. *)
Fixpoint pick_track_version (playlist_provider : string)
    (versions : list MediaItemProviderId) : option string :=
  match versions with
  | [] => None
  | track_version :: versions' =>
      if decide (pr_provider track_version = playlist_provider) then
        Some (pr_item_id track_version)
      else if decide (playlist_provider = "file") then
        (* the file provider can handle uri's from all providers *)
        Some (pr_provider track_version +:+ "://" +:+ pr_item_id track_version)
      else pick_track_version playlist_provider versions'
  end.

Definition track_id_to_add (playlist_provider : string) (track : MediaItem)
    : option string :=
  pick_track_version playlist_provider
    (sorted_by_quality (provider_ids track)).

Definition track_ids_to_add_of (cur_playlist_track_ids : list string)
    (playlist_provider : string) (tracks : list MediaItem) : list string :=
  fold_left (λ track_ids_to_add track,
    if already_exists cur_playlist_track_ids track then track_ids_to_add
    else
      match track_id_to_add playlist_provider track with
      | Some id => track_ids_to_add ++ [id]
      | None => track_ids_to_add
      end) tracks [].

(** Add tracks to playlist - make sure we dont add duplicates. *)
Definition async_add_playlist_tracks (db_playlist_id : string)
    (tracks : list MediaItem) : M pyret :=
  playlist ← music_get_item Playlist db_playlist_id "database";
  match playlist with
  | None => mret (PyBool false)
  | Some playlist =>
      if negb (is_editable playlist) then mret (PyBool false)
      else
        (* playlist can only have one provider (for now) *)
        playlist_prov ← first_item (provider_ids playlist);
        items ← call (music_get_playlist_tracks (pr_item_id playlist_prov)
                        (pr_provider playlist_prov))
                  (music_async_get_playlist_tracks mass
                     (pr_item_id playlist_prov) (pr_provider playlist_prov));
        let cur_playlist_track_ids := cur_playlist_track_ids_of items in
        let track_ids_to_add :=
          track_ids_to_add_of cur_playlist_track_ids
            (pr_provider playlist_prov) tracks in
        (* actually add the tracks to the playlist on the provider *)
        match track_ids_to_add with
        | _ :: _ =>
            (* invalidate cache *)
            stamp ← now;
            _ ← call (db_update_playlist (item_id playlist) "checksum" stamp)
                  (database_async_update_playlist mass (item_id playlist)
                     "checksum" stamp);
            (* return result of the action on the provider *)
            let provider := get_provider mass (pr_provider playlist_prov) in
            r ← prov_call provider
                  (λ p, prov_add_playlist_tracks p (pr_item_id playlist_prov)
                          track_ids_to_add)
                  (λ p, provider_async_add_playlist_tracks p
                          (pr_item_id playlist_prov) track_ids_to_add);
            mret (PyBool r)
        | [] => mret (PyBool false)
        end
  end.

Definition track_ids_to_remove_of (playlist_provider : string)
    (tracks : list MediaItem) : list string :=
  fold_left (λ track_ids_to_remove track,
    (* a track can contain multiple versions on the same provider *)
    fold_left (λ track_ids_to_remove track_provider,
      if decide (pr_provider track_provider = playlist_provider)
      then track_ids_to_remove ++ [pr_item_id track_provider]
      else track_ids_to_remove) (provider_ids track) track_ids_to_remove)
    tracks [].

(** Remove tracks from playlist. *)
Definition async_remove_playlist_tracks (db_playlist_id : string)
    (tracks : list MediaItem) : M pyret :=
  playlist ← music_get_item Playlist db_playlist_id "database";
  match playlist with
  | None => mret (PyBool false)
  | Some playlist =>
      if negb (is_editable playlist) then mret (PyBool false)
      else
        (* playlist can only have one provider (for now) *)
        prov_playlist ← first_item (provider_ids playlist);
        let track_ids_to_remove :=
          track_ids_to_remove_of (pr_provider prov_playlist) tracks in
        (* actually remove the tracks from the playlist on the provider *)
        match track_ids_to_remove with
        | _ :: _ =>
            (* invalidate cache *)
            stamp ← now;
            _ ← call (db_update_playlist (item_id playlist) "checksum" stamp)
                  (database_async_update_playlist mass (item_id playlist)
                     "checksum" stamp);
            let provider := get_provider mass (pr_provider prov_playlist) in
            r ← prov_call provider
                  (λ p, prov_remove_playlist_tracks p
                          (pr_item_id prov_playlist) track_ids_to_remove)
                  (λ p, provider_async_remove_playlist_tracks p
                          (pr_item_id prov_playlist) track_ids_to_remove);
            mret (PyBool r)
        | [] => mret PyNone
        end
  end.

End LibraryManager.

(** * Vocabulary for the statements

    Everything below this point is about the code above: what a run
    logs, when a catalog item resolves, the event loop, and a concrete
    installation to run the manager on.  The theorems follow. *)

(** [log w evs]: the world [w] after the calls [evs], nothing else changed. *)
Definition log (w : World) (evs : list Event) : World :=
  {| running_sync_jobs := running_sync_jobs w;
     cache := cache w;
     trace := trace w ++ evs |}.

(** The store calls the statements count: add-to-library,
    remove-from-library and update-playlist (the checksum write) of
    [mass.database]. *)
Definition is_store_call (ev : Event) : bool :=
  match ev with
  | db_add_to_library _ _ _ | db_remove_from_library _ _ _
  | db_update_playlist _ _ _ => true
  | _ => false
  end.

Definition store_calls (evs : list Event) : list Event :=
  List.filter is_store_call evs.

Definition is_removal (ev : Event) : bool :=
  match ev with db_remove_from_library _ _ _ => true | _ => false end.

Definition is_addition (ev : Event) : bool :=
  match ev with db_add_to_library _ _ _ => true | _ => false end.

(** Calls that reach a provider object. *)
Definition is_provider_call (ev : Event) : bool :=
  match ev with
  | prov_get_library _ _ | prov_library_add _ _ _ | prov_library_remove _ _ _
  | prov_add_playlist_tracks _ _ _ | prov_remove_playlist_tracks _ _ _ => true
  | _ => false
  end.

(** ** What a computation may emit

    [emits Q m]: whatever [m] answers, and also when it raises, all it
    does to the world is to log calls, each satisfying [Q]; the cache and
    the running jobs stay as they are. *)
Definition emits {A} (Q : Event → Prop) (m : M A) : Prop :=
  ∀ w, ∃ evs, (m w).2 = log w evs ∧ Forall Q evs.

Section SyncVocabulary.

Variable mass : Mass.

(** The five syncs, by media type. *)
Definition sync_desc (mt : MediaType) : string :=
  match mt with
  | Artist => "artists" | Album => "albums" | Track => "tracks"
  | Playlist => "playlists" | Radio => "radios"
  end.

Definition sync_body (mt : MediaType) : string → M unit :=
  match mt with
  | Artist => library_artists_sync mass
  | Album => library_albums_sync mass
  | Track => library_tracks_sync mass
  | Playlist => library_playlists_sync mass
  | Radio => library_radios_sync mass
  end.

Definition async_library_sync (mt : MediaType) : string → M unit :=
  match mt with
  | Artist => async_library_artists_sync mass
  | Album => async_library_albums_sync mass
  | Track => async_library_tracks_sync mass
  | Playlist => async_library_playlists_sync mass
  | Radio => async_library_radios_sync mass
  end.

Definition cache_key (mt : MediaType) (provider_id : string) : string :=
  "library_" +:+ sync_desc mt +:+ "_" +:+ provider_id.

(** The precache step succeeds on a track. *)
Definition precache_ok (t : MediaItem) : Prop :=
  if available t then True
  else if decide (provider t = "database")
       then music_async_match_track mass t = Ok tt
       else ∃ r, music_async_add_track mass t = Ok r.

(** *** One catalog item

    [item_resolves mt prov prev item id]: every collaborator call the
    loop body of the [mt] sync makes for [item] answers, and the local
    identifier it appends is [id]. *)
Definition item_resolves (mt : MediaType) (prov : string)
    (prev : list string) (item : MediaItem) (id : string) : Prop :=
  ∃ d d' : MediaItem,
    music_async_get mass mt (item_id item) prov = Ok (Some d)
    ∧ item_id d' = id
    ∧ match mt with
      | Artist | Radio =>
          d' = d
          ∧ database_async_add_to_library mass id mt prov = Ok tt
      | Album =>
          (if bool_decide (available d = available item) then d' = d
           else music_async_match_album mass d = Ok (Some d'))
          ∧ database_async_add_to_library mass id Album prov = Ok tt
          ∧ ∃ ts, music_async_get_album_tracks mass (item_id item) prov
                    = Ok ts
                  ∧ Forall precache_ok ts
      | Track =>
          (if bool_decide (available d = available item) then d' = d
           else music_async_add_track mass item = Ok (Some d'))
          ∧ (id ∉ prev →
             database_async_add_to_library mass id Track prov = Ok tt)
      | Playlist =>
          (if bool_decide (checksum d = checksum item) then d' = d
           else database_async_add_playlist mass item = Ok (Some d'))
          ∧ database_async_add_to_library mass id Playlist (provider item)
            = Ok tt
          ∧ ∃ ts, music_async_get_playlist_tracks mass (item_id item) prov
                    = Ok ts
                  ∧ Forall precache_ok ts
      end.

(** The store calls the loop body issues for one item. *)
Definition item_store_calls (mt : MediaType) (prov : string)
    (prev : list string) (item : MediaItem) (id : string) : list Event :=
  match mt with
  | Track =>
      if bool_decide (id ∉ prev) then [db_add_to_library id Track prov]
      else []
  | Playlist => [db_add_to_library id Playlist (provider item)]
  | _ => [db_add_to_library id mt prov]
  end.

(** The calls the loop body of the [mt] sync can make for an item. *)
Definition item_event (mt : MediaType) (prov : string) (ev : Event) : Prop :=
  match ev with
  | music_get mt' _ prov' => mt' = mt ∧ prov' = prov
  | music_match_album _ => mt = Album
  | music_match_track _ => mt = Album ∨ mt = Playlist
  | music_add_track _ => mt = Album ∨ mt = Track ∨ mt = Playlist
  | music_get_album_tracks _ prov' => mt = Album ∧ prov' = prov
  | music_get_playlist_tracks _ prov' => mt = Playlist ∧ prov' = prov
  | db_add_playlist _ => mt = Playlist
  | db_add_to_library _ mt' prov' => mt' = mt ∧ (mt = Playlist ∨ prov' = prov)
  | _ => False
  end.

(** The shape the five syncs share: load the prior ids, list the
    catalog, run the loop body per item, process deletions, store. *)
Definition sync_skeleton (mt : MediaType) (prov : string)
    (body : list string → MediaItem → list string → M (list string))
    : M unit :=
  prev_db_ids ← cache_get mass (cache_key mt prov) [];
  items ← prov_call (get_provider mass prov) (λ p, prov_get_library p mt)
             (λ p, provider_async_get_library p mt);
  cur_db_ids ← for_each items (body prev_db_ids) [];
  _ ← process_deletions mass mt prov prev_db_ids cur_db_ids;
  cache_set mass (cache_key mt prov) cur_db_ids.

End SyncVocabulary.

(** The world right after the decorator registered the job. *)
Definition registered (w : World) (job : sync_job) : World :=
  {| running_sync_jobs := running_sync_jobs w ++ [job];
     cache := cache w;
     trace := trace w ++ [signal_event (running_sync_jobs w ++ [job])] |}.

Definition removal_calls (evs : list Event) : list Event :=
  List.filter is_removal evs.

Definition addition_calls (evs : list Event) : list Event :=
  List.filter is_addition evs.

(** * Interleaved runs

    The syncs are coroutines on one event loop: a run is suspended only at
    an [await].  The decorator has two stretches without any await, the
    scan-append-signal before [await func(.)] and the remove-signal after
    it; each is one atomic step of the loop.  In between, the awaited
    body makes collaborator calls and cache writes, and never touches
    [running_sync_jobs]. *)

Definition sync_enter (desc prov_id : string) : M bool :=
  jobs ← get_jobs;
  if already_running jobs prov_id desc then mret false
  else
    _ ← jobs_append (prov_id, desc);
    _ ← signal_sync_status;
    mret true.

Definition sync_leave (desc prov_id : string) : M unit :=
  _ ← jobs_remove (prov_id, desc);
  signal_sync_status.

Inductive phase := Pending | InFlight | Returned | Skipped | Raised.

#[global] Instance phase_eq_dec : EqDecision phase.
Proof. solve_decision. Defined.

(** One call of a decorated sync, for (prov_id, desc), and how far it is. *)
Definition invocation : Type := sync_job * phase.

Record loop_state := {
  world : World;
  invocations : list invocation
}.

Inductive loop_step : loop_state → loop_state → Prop :=
  | step_enter w w' l1 l2 prov_id desc entered :
      sync_enter desc prov_id w = (Ok entered, w') →
      loop_step
        {| world := w;
           invocations := l1 ++ ((prov_id, desc), Pending) :: l2 |}
        {| world := w';
           invocations :=
             l1 ++ ((prov_id, desc), if entered then InFlight else Skipped)
                :: l2 |}
  | step_await w w' (invs : list invocation) (job : sync_job) :
      (job, InFlight) ∈ invs →
      running_sync_jobs w' = running_sync_jobs w →
      loop_step {| world := w; invocations := invs |}
                {| world := w'; invocations := invs |}
  | step_return w w' l1 l2 prov_id desc :
      sync_leave desc prov_id w = (Ok tt, w') →
      loop_step
        {| world := w;
           invocations := l1 ++ ((prov_id, desc), InFlight) :: l2 |}
        {| world := w';
           invocations := l1 ++ ((prov_id, desc), Returned) :: l2 |}
  | step_raise w (l1 l2 : list invocation) (job : sync_job) :
      loop_step
        {| world := w; invocations := l1 ++ (job, InFlight) :: l2 |}
        {| world := w; invocations := l1 ++ (job, Raised) :: l2 |}.

(** The invocations whose job sits in [running_sync_jobs]. *)
Definition holds_entry (i : invocation) : bool :=
  match i.2 with InFlight | Raised => true | _ => false end.

Definition registered_jobs (invs : list invocation) : list sync_job :=
  fst <$> List.filter holds_entry invs.

Definition in_flight (job : sync_job) (invs : list invocation) : nat :=
  length (List.filter (λ i, bool_decide (i = (job, InFlight))) invs).

Definition loop_inv (s : loop_state) : Prop :=
  NoDup (running_sync_jobs (world s))
  ∧ running_sync_jobs (world s) ≡ₚ registered_jobs (invocations s).

Definition is_listing (ev : Event) : bool :=
  match ev with prov_get_library _ _ => true | _ => false end.

(** The catalog listings of a trace.  A sync that gets as far as its
    provider lists the catalog once, so the listings of a trace tell which
    syncs ran, and in which order. *)
Definition listing_calls (evs : list Event) : list Event :=
  List.filter is_listing evs.

Definition listing_of (p : option Provider) (mt : MediaType) : list Event :=
  match p with
  | Some p => [prov_get_library (prov_id p) mt]
  | None => []
  end.

(** The full sync in the spec's words: for each media type the provider
    declares support for, evaluated in the given fixed order, invoke the
    corresponding syncer. *)
Definition spec_full_sync (order : list MediaType) (mass : Mass)
    (prov_id : string) : M unit :=
  match get_provider mass prov_id with
  | None => mret tt
  | Some provider =>
      for_each
        (List.filter (λ mt, bool_decide (mt ∈ supported_mediatypes provider))
           order)
        (λ mt _, async_library_sync mass mt prov_id) tt
  end.

Definition better (v v' : MediaItemProviderId) : Prop :=
  (pr_quality v' ≤ pr_quality v)%Z.

(** [id] appears among the existing tracks' ids and version ids. *)
Definition appears_in_playlist (existing : list MediaItem) (id : string) : Prop :=
  ∃ item, item ∈ existing
          ∧ (id = item_id item
             ∨ ∃ v, v ∈ provider_ids item ∧ id = pr_item_id v).

(** The candidate's id, or the id of one of its versions, appears there. *)
Definition is_duplicate (existing : list MediaItem) (track : MediaItem) : Prop :=
  appears_in_playlist existing (item_id track)
  ∨ ∃ v, v ∈ provider_ids track ∧ appears_in_playlist existing (pr_item_id v).

(** When addTracks has nothing to do. *)
Definition add_refused (mass : Mass) (db_playlist_id : string)
    (tracks : list MediaItem) : Prop :=
  (* the playlist is missing *)
  music_async_get mass Playlist db_playlist_id "database" = Ok None
  (* the playlist is not editable *)
  ∨ (∃ playlist,
       music_async_get mass Playlist db_playlist_id "database"
       = Ok (Some playlist)
       ∧ is_editable playlist = false)
  (* every candidate is already in the playlist *)
  ∨ (∃ playlist playlist_prov rest existing,
       music_async_get mass Playlist db_playlist_id "database"
       = Ok (Some playlist)
       ∧ is_editable playlist = true
       ∧ provider_ids playlist = playlist_prov :: rest
       ∧ music_async_get_playlist_tracks mass (pr_item_id playlist_prov)
           (pr_provider playlist_prov) = Ok existing
       ∧ Forall (is_duplicate existing) tracks).

(** * More vocabulary: the calls of a sync *)

Definition is_signal (ev : Event) : bool :=
  match ev with signal_event _ => true | _ => false end.

(** The calls the undecorated [mt] sync of provider [prov] can make when
    the prior ids are [prev]: it reads and writes its own cache key, lists
    the catalog of its media type, makes the calls of its loop body, and
    removes prior ids for its own media type and provider. *)
Definition body_event (mt : MediaType) (prov : string) (prev : list string)
    (ev : Event) : Prop :=
  match ev with
  | cache_async_get key | cache_async_set key _ => key = cache_key mt prov
  | prov_get_library _ mt' => mt' = mt
  | db_remove_from_library id mt' prov' =>
      mt' = mt ∧ prov' = prov ∧ id ∈ prev
  | _ => item_event mt prov ev
  end.

(** * More vocabulary: how a run was aborted

    [evs] are the calls of the run, the failing call last; [e] is the
    exception it raised. *)

(** The failing call is the write of the current ids to the cache, the
    last step of a run; [cache0] is the cache before the run and [cache']
    the cache after it. *)
Definition failed_at_cache_write (mass : Mass) (mt : MediaType)
    (prov : string) (e : exn) (evs : list Event)
    (cache0 cache' : gmap string (list string)) : Prop :=
  ∃ evs0 cur stored,
    evs = evs0 ++ [cache_async_set (cache_key mt prov) cur]
    ∧ cache_set_raises mass (cache_key mt prov) cur = Some (e, stored)
    ∧ cache' = if stored : bool then <[cache_key mt prov := cur]> cache0
               else cache0.

(** The failing call is a remove-from-library call. *)
Definition failed_at_removal (mass : Mass) (mt : MediaType) (prov : string)
    (e : exn) (evs : list Event) : Prop :=
  ∃ evs0 id,
    evs = evs0 ++ [db_remove_from_library id mt prov]
    ∧ database_async_remove_from_library mass id mt prov = Raise e.

(** An aborted run: unless the failing call is the cache write, the cache
    is as it was; unless it is a remove-from-library call or the cache
    write, no remove-from-library call was made. *)
Definition aborted (mass : Mass) (mt : MediaType) (prov : string)
    (e : exn) (evs : list Event)
    (cache0 cache' : gmap string (list string)) : Prop :=
  failed_at_cache_write mass mt prov e evs cache0 cache'
  ∨ (cache' = cache0
     ∧ (failed_at_removal mass mt prov e evs ∨ removal_calls evs = [])).

(** * More vocabulary: adding to and removing from the library *)

(** A call answered. *)
Definition is_ok {A} (r : result A) : Prop := ∃ a, r = Ok a.

Definition answer_of (r : result bool) : bool :=
  match r with Ok b => b | Raise _ => false end.

(** What the providers of one media item answer to [method], and the calls
    logged for it: one per entry of [provider_ids] whose provider
    [get_provider] knows, in order. *)
Definition provider_answers (mass : Mass)
    (method : Provider → string → MediaType → result bool) (m : MediaItem)
    : list (result bool) :=
  omap (λ ref, (λ p, method p (pr_item_id ref) (media_type m))
                 <$> get_provider mass (pr_provider ref)) (provider_ids m).

Definition provider_events (mass : Mass)
    (ev : string → string → MediaType → Event) (m : MediaItem) : list Event :=
  omap (λ ref, (λ p, ev (prov_id p) (pr_item_id ref) (media_type m))
                 <$> get_provider mass (pr_provider ref)) (provider_ids m).

(** The store call for one media item: only for an item the database owns. *)
Definition database_event (ev : string → MediaType → string → Event)
    (m : MediaItem) : list Event :=
  if decide (provider m = "database")
  then [ev (item_id m) (media_type m) (provider m)]
  else [].

(** * More vocabulary: playlist tracks *)

(** The ids of the versions of the given tracks on one provider, track by
    track, each track's versions in the order of its [provider_ids]. *)
Definition versions_on (playlist_provider : string) (tracks : list MediaItem)
    : list string :=
  tracks ≫= λ track,
    pr_item_id
      <$> filter (λ v, pr_provider v = playlist_provider) (provider_ids track).

(** * More of the manager: looking up by name *)

(** Modelled from the spec: a playlist or radio object as the listings of
    [mass.music] return it, with the [name] attribute the lookups read,
    beside the attributes of [MediaItem]. *)
Record NamedItem := {
  name : string;
  named : MediaItem
}.

(** The [for x in ...: if x.name == name: return x] scan of both lookups;
    None when the loop ends. *)
Fixpoint first_by_name (items : list NamedItem) (wanted : string)
    : option NamedItem :=
  match items with
  | [] => None
  | x :: items' =>
      if decide (name x = wanted) then Some x else first_by_name items' wanted
  end.

(** Get in-library playlist by name.  The one call awaited is
    [mass.music.async_get_library_playlists()]; [library_playlists] is
    what it answers. *)
Definition async_get_library_playlist_by_name
    (library_playlists : result (list NamedItem)) (wanted : string)
    : result (option NamedItem) :=
  match library_playlists with
  | Ok playlists => Ok (first_by_name playlists wanted)
  | Raise e => Raise e
  end.

(** Get in-library radio by name.  The one call awaited is
    [mass.music.async_get_library_radios()]; [library_radios] is what it
    answers. *)
Definition async_get_radio_by_name
    (library_radios : result (list NamedItem)) (wanted : string)
    : result (option NamedItem) :=
  match library_radios with
  | Ok radios => Ok (first_by_name radios wanted)
  | Raise e => Raise e
  end.

(** * A concrete installation, for running the manager *)

Module Demo.

(** The record [mass.music] finds for a provider item: same id, owned by
    the database. *)
Definition db_item (mt : MediaType) (id : string) : MediaItem :=
  {| item_id := id; provider := "database"; media_type := mt;
     available := true; provider_ids := []; is_editable := false;
     checksum := "" |}.

Definition prov_item (prov : string) (mt : MediaType) (id : string)
    : MediaItem :=
  {| item_id := id; provider := prov; media_type := mt;
     available := true; provider_ids := []; is_editable := false;
     checksum := "" |}.

(** A music provider with the given catalog. *)
Definition music_provider (id : string) (types : list MediaType)
    (library : MediaType → result (list MediaItem)) : Provider :=
  {| prov_id := id; prov_type := MUSIC_PROVIDER;
     supported_mediatypes := types;
     provider_async_get_library := library;
     provider_async_library_add := λ _ _, Ok true;
     provider_async_library_remove := λ _ _, Ok true;
     provider_async_add_playlist_tracks := λ _ _, Ok true;
     provider_async_remove_playlist_tracks := λ _ _, Ok true |}.

(** An installation with the given providers, item lookup and
    remove-from-library behaviour; every other call answers. *)
Definition mass_with (provs : list Provider)
    (lookup : MediaType → string → string → result (option MediaItem))
    (remove : string → MediaType → string → result unit)
    : Mass :=
  {| get_provider := λ id,
       List.find (λ p, bool_decide (prov_id p = id)) provs;
     get_providers := λ t,
       List.filter (λ p, bool_decide (prov_type p = t)) provs;
     music_async_get := lookup;
     music_async_match_album := λ it, Ok (Some it);
     music_async_match_track := λ _, Ok tt;
     music_async_add_track := λ it, Ok (Some it);
     music_async_get_album_tracks := λ _ _, Ok [];
     music_async_get_playlist_tracks := λ _ _, Ok [];
     database_async_add_playlist := λ it, Ok (Some it);
     database_async_add_to_library := λ _ _ _, Ok tt;
     database_async_remove_from_library := remove;
     database_async_update_playlist := λ _ _ _, Ok tt;
     cache_get_raises := λ _, None;
     cache_set_raises := λ _ _, None;
     time_time := λ n, "t" |}.

Definition mass_of (provs : list Provider)
    (lookup : MediaType → string → string → result (option MediaItem))
    : Mass :=
  mass_with provs lookup (λ _ _ _, Ok tt).

Definition lookup_all : MediaType → string → string → result (option MediaItem) :=
  λ mt id _, Ok (Some (db_item mt id)).

Definition catalog (prov : string) (ids : list string)
    : MediaType → result (list MediaItem) :=
  λ mt, Ok (prov_item prov mt <$> ids).

(** Provider p1 lists the artists A and C. *)
Definition p1 : Provider := music_provider "p1" [Artist; Album] (catalog "p1" ["A"; "C"]).
Definition mass1 : Mass := mass_of [p1] lookup_all.

(** Provider p2 lists nothing. *)
Definition p2 : Provider := music_provider "p2" [Artist] (catalog "p2" []).
Definition mass2 : Mass := mass_of [p2] lookup_all.

Definition world_with (key : string) (ids : list string) : World :=
  {| running_sync_jobs := [];
     cache := {[ key := ids ]};
     trace := [] |}.

(** Provider p3 lists the artists A and X; looking up X fails. *)
Definition p3 : Provider := music_provider "p3" [Artist] (catalog "p3" ["A"; "X"]).
Definition lookup_but_X : MediaType → string → string → result (option MediaItem) :=
  λ mt id _,
    if decide (id = "X") then Raise (CollabError "lookup")
    else Ok (Some (db_item mt id)).
Definition mass3 : Mass := mass_of [p3] lookup_but_X.

(** Provider p4 cannot be reached: listing its catalog fails. *)
Definition p4 : Provider :=
  music_provider "p4" [Artist] (λ _, Raise (CollabError "fetch")).
Definition mass4 : Mass := mass_of [p4] lookup_all.

(** Provider p6 lists one playlist, whose [provider] attribute is p9. *)
Definition p6 : Provider :=
  music_provider "p6" [Playlist] (catalog "p9" ["pl1"]).
Definition mass6 : Mass := mass_of [p6] lookup_all.

(** An editable playlist, local id 10, that lives on the given provider
    as pl.m3u and holds the given tracks. *)
Definition playlist_on (prov : string) : MediaItem :=
  {| item_id := "10"; provider := "database"; media_type := Playlist;
     available := true;
     provider_ids :=
       [{| pr_provider := prov; pr_item_id := "pl.m3u"; pr_quality := 0 |}];
     is_editable := true; checksum := "" |}.

Definition mass_with_playlist (prov : string) (editable : bool)
    (existing : list MediaItem) : Mass :=
  {| get_provider := λ id,
       if decide (id = prov)
       then Some (music_provider prov [Playlist; Track] (catalog prov []))
       else None;
     get_providers := λ _, [];
     music_async_get := λ mt id owner,
       if decide (mt = Playlist ∧ id = "10" ∧ owner = "database")
       then Ok (Some {| item_id := "10"; provider := "database";
                        media_type := Playlist; available := true;
                        provider_ids := provider_ids (playlist_on prov);
                        is_editable := editable; checksum := "" |})
       else Ok None;
     music_async_match_album := λ it, Ok (Some it);
     music_async_match_track := λ _, Ok tt;
     music_async_add_track := λ it, Ok (Some it);
     music_async_get_album_tracks := λ _ _, Ok [];
     music_async_get_playlist_tracks := λ _ _, Ok existing;
     database_async_add_playlist := λ it, Ok (Some it);
     database_async_add_to_library := λ _ _ _, Ok tt;
     database_async_remove_from_library := λ _ _ _, Ok tt;
     database_async_update_playlist := λ _ _ _, Ok tt;
     cache_get_raises := λ _, None;
     cache_set_raises := λ _ _, None;
     time_time := λ n, "t" |}.

(** A track with a low-quality version on "file" and a high-quality one
    on "spotify". *)
Definition track_on_file_and_spotify : MediaItem :=
  {| item_id := "77"; provider := "database"; media_type := Track;
     available := true;
     provider_ids :=
       [{| pr_provider := "file"; pr_item_id := "f1"; pr_quality := 1 |};
        {| pr_provider := "spotify"; pr_item_id := "s1"; pr_quality := 7 |}];
     is_editable := false; checksum := "" |}.

(** A track with two versions on "spotify" and one on "qobuz". *)
Definition track_on_spotify_twice : MediaItem :=
  {| item_id := "78"; provider := "database"; media_type := Track;
     available := true;
     provider_ids :=
       [{| pr_provider := "spotify"; pr_item_id := "s2"; pr_quality := 3 |};
        {| pr_provider := "qobuz"; pr_item_id := "q2"; pr_quality := 9 |};
        {| pr_provider := "spotify"; pr_item_id := "s3"; pr_quality := 7 |}];
     is_editable := false; checksum := "" |}.

(** A track already in the playlist, known on spotify as s3. *)
Definition existing_track : MediaItem :=
  {| item_id := "5"; provider := "database"; media_type := Track;
     available := true;
     provider_ids :=
       [{| pr_provider := "spotify"; pr_item_id := "s3"; pr_quality := 7 |}];
     is_editable := false; checksum := "" |}.

(** A track known on qobuz only. *)
Definition track_on_qobuz : MediaItem :=
  {| item_id := "79"; provider := "database"; media_type := Track;
     available := true;
     provider_ids :=
       [{| pr_provider := "qobuz"; pr_item_id := "q9"; pr_quality := 9 |}];
     is_editable := false; checksum := "" |}.

Definition empty_world : World :=
  {| running_sync_jobs := []; cache := ∅; trace := [] |}.

(** Provider p2 again, with a database that fails to remove C. *)
Definition remove_but_C : string → MediaType → string → result unit :=
  λ id _ _, if decide (id = "C") then Raise (CollabError "remove") else Ok tt.
Definition mass5 : Mass := mass_with [p2] lookup_all remove_but_C.

(** An installation whose cache fails to store: every write raises, and
    nothing is stored. *)
Definition with_failing_cache_write (m : Mass) : Mass :=
  {| get_provider := get_provider m;
     get_providers := get_providers m;
     music_async_get := music_async_get m;
     music_async_match_album := music_async_match_album m;
     music_async_match_track := music_async_match_track m;
     music_async_add_track := music_async_add_track m;
     music_async_get_album_tracks := music_async_get_album_tracks m;
     music_async_get_playlist_tracks := music_async_get_playlist_tracks m;
     database_async_add_playlist := database_async_add_playlist m;
     database_async_add_to_library := database_async_add_to_library m;
     database_async_remove_from_library :=
       database_async_remove_from_library m;
     database_async_update_playlist := database_async_update_playlist m;
     cache_get_raises := cache_get_raises m;
     cache_set_raises := λ _ _, Some (CollabError "cache", false);
     time_time := time_time m |}.

(** *** Runs *)

(** p3 synced with prior ids A, B: the lookup of X fails. *)
Definition lookup_fails_run : result unit * World :=
  async_library_sync mass3 Artist "p3"
    (world_with "library_artists_p3" ["A"; "B"]).

(** p4 synced with prior ids A, B: the catalog fetch fails. *)
Definition fetch_fails_run : result unit * World :=
  async_library_sync mass4 Artist "p4"
    (world_with "library_artists_p4" ["A"; "B"]).

(** p2 synced with prior ids B, C: removing C fails. *)
Definition remove_fails_run : result unit * World :=
  async_library_sync mass5 Artist "p2"
    (world_with "library_artists_p2" ["B"; "C"]).

(** p2, whose catalog is empty, synced with prior ids A, B, the cache
    failing to store. *)
Definition cache_write_fails_run : result unit * World :=
  async_library_sync (with_failing_cache_write mass2) Artist "p2"
    (world_with "library_artists_p2" ["A"; "B"]).

(** p2, whose catalog is empty, synced with prior ids A, B. *)
Definition purge_run : result unit * World :=
  async_library_sync mass2 Artist "p2"
    (world_with "library_artists_p2" ["A"; "B"]).

(** The artists of p1 synced from scratch, and then once more. *)
Definition artists_run1 : result unit * World :=
  async_library_artists_sync mass1 "p1" empty_world.
Definition artists_run2 : result unit * World :=
  async_library_artists_sync mass1 "p1" artists_run1.2.

(** The same with the tracks sync. *)
Definition p1_tracks : Provider :=
  music_provider "p1" [Track] (catalog "p1" ["A"; "C"]).
Definition tracks_run1 : result unit * World :=
  async_library_tracks_sync (mass_of [p1_tracks] lookup_all) "p1" empty_world.
Definition tracks_run2 : result unit * World :=
  async_library_tracks_sync (mass_of [p1_tracks] lookup_all) "p1"
    tracks_run1.2.

(** The playlists of p6 synced from scratch. *)
Definition playlists_run : result unit * World :=
  async_library_playlists_sync mass6 "p6" empty_world.

(** The full sync of p1, which supports artists and albums. *)
Definition full_sync_run : result unit * World :=
  async_music_provider_sync mass1 "p1" empty_world.

(** The artists sync of p1 invoked twice: before either call started, and
    after the first entered and the second was skipped. *)
Definition two_calls_start : loop_state :=
  {| world := empty_world;
     invocations := [(("p1", "artists"), Pending);
                     (("p1", "artists"), Pending)] |}.


(** Two music providers: p4, whose catalog cannot be fetched, then p1. *)
Definition mass_p4_p1 : Mass := mass_of [p4; p1] lookup_all.

(** One round of the periodic sync over them. *)
Definition round_run : result unit * World :=
  async_music_providers_sync mass_p4_p1 empty_world.

(** A track the database owns, known on p1 and on a provider that is not
    registered; and a track owned by p1 itself. *)
Definition library_track : MediaItem :=
  {| item_id := "7"; provider := "database"; media_type := Track;
     available := true;
     provider_ids :=
       [{| pr_provider := "gone"; pr_item_id := "g7"; pr_quality := 1 |};
        {| pr_provider := "p1"; pr_item_id := "t7"; pr_quality := 5 |}];
     is_editable := false; checksum := "" |}.

Definition provider_track : MediaItem :=
  {| item_id := "t8"; provider := "p1"; media_type := Track;
     available := true;
     provider_ids :=
       [{| pr_provider := "p1"; pr_item_id := "t8"; pr_quality := 5 |}];
     is_editable := false; checksum := "" |}.

(** An editable playlist record without any provider entry. *)
Definition mass_with_bare_playlist : Mass :=
  mass_with []
    (λ mt id owner,
       Ok (Some {| item_id := id; provider := owner; media_type := mt;
                   available := true; provider_ids := [];
                   is_editable := true; checksum := "" |}))
    (λ _ _ _, Ok tt).

(** The editable playlist 10 lives on spotify, but no provider is
    registered. *)
Definition mass_without_providers : Mass :=
  mass_with []
    (λ mt id owner, Ok (Some (playlist_on "spotify")))
    (λ _ _ _, Ok tt).

(** A track with two versions of the same, best quality on spotify. *)
Definition track_with_equal_versions : MediaItem :=
  {| item_id := "80"; provider := "database"; media_type := Track;
     available := true;
     provider_ids :=
       [{| pr_provider := "spotify"; pr_item_id := "s4"; pr_quality := 3 |};
        {| pr_provider := "spotify"; pr_item_id := "s5"; pr_quality := 7 |};
        {| pr_provider := "qobuz"; pr_item_id := "q5"; pr_quality := 9 |};
        {| pr_provider := "spotify"; pr_item_id := "s6"; pr_quality := 7 |}];
     is_editable := false; checksum := "" |}.

(** The artists syncs of p1 and of p2 invoked: before either call
    started, and with both in flight. *)
Definition two_pairs_start : loop_state :=
  {| world := empty_world;
     invocations := [(("p1", "artists"), Pending);
                     (("p2", "artists"), Pending)] |}.
Definition two_pairs_in_flight : loop_state :=
  {| world := registered (registered empty_world ("p1", "artists"))
                ("p2", "artists");
     invocations := [(("p1", "artists"), InFlight);
                     (("p2", "artists"), InFlight)] |}.

(** The first of the two invocations raised; then the second was tried. *)
Definition first_call_raised : loop_state :=
  {| world := registered empty_world ("p1", "artists");
     invocations := [(("p1", "artists"), Raised);
                     (("p1", "artists"), Pending)] |}.
Definition second_call_tried : loop_state :=
  {| world := registered empty_world ("p1", "artists");
     invocations := [(("p1", "artists"), Raised);
                     (("p1", "artists"), Skipped)] |}.

End Demo.

(** * Theorems *)

(** * Reasoning about runs *)

Lemma log_nil w : log w [] = w.
Proof. destruct w; unfold log; simpl. by rewrite app_nil_r. Qed.

Lemma log_log w evs1 evs2 : log (log w evs1) evs2 = log w (evs1 ++ evs2).
Proof. unfold log; simpl. by rewrite app_assoc. Qed.

Lemma call_log {A} ev (r : result A) w : call ev r w = (r, log w [ev]).
Proof. reflexivity. Qed.

Lemma bind_ok {A B} (m : M A) (f : A → M B) w a w' :
  m w = (Ok a, w') → (m ≫= f) w = f a w'.
Proof. intros H. unfold mbind, M_bind. by rewrite H. Qed.

Lemma bind_raise {A B} (m : M A) (f : A → M B) w e w' :
  m w = (Raise e, w') → (m ≫= f) w = (Raise e, w').
Proof. intros H. unfold mbind, M_bind. by rewrite H. Qed.

Lemma store_calls_app evs1 evs2 :
  store_calls (evs1 ++ evs2) = store_calls evs1 ++ store_calls evs2.
Proof. apply List.filter_app. Qed.

(** A loop that appends one id per item: when every item resolves, the
    loop returns the ids in listing order and its store calls are those of
    the items, in order. *)
Lemma for_each_collect {A} (body : A → list string → M (list string))
    (R : A → string → Prop) (calls : A → string → list Event) :
  (∀ item id cur w, R item id →
     ∃ evs, body item cur w = (Ok (cur ++ [id]), log w evs)
            ∧ store_calls evs = calls item id) →
  ∀ items C, Forall2 R items C →
  ∀ cur w, ∃ evs,
    for_each items body cur w = (Ok (cur ++ C), log w evs)
    ∧ store_calls evs = concat (zip_with calls items C).
Proof.
  intros Hbody items C HR.
  induction HR as [|item id items C Hitem _ IH]; intros cur w.
  - exists []. simpl. by rewrite app_nil_r, log_nil.
  - destruct (Hbody item id cur w Hitem) as (evs1 & Hrun & Hcalls).
    destruct (IH (cur ++ [id]) (log w evs1)) as (evs2 & Hrest & Hcalls2).
    exists (evs1 ++ evs2). simpl.
    rewrite (bind_ok _ _ _ _ _ Hrun), Hrest, log_log, <- app_assoc.
    split; [done|]. by rewrite store_calls_app, Hcalls, Hcalls2.
Qed.

Lemma emits_ret {A} Q (a : A) : emits Q (mret a).
Proof. intros w. exists []. by rewrite log_nil. Qed.

Lemma emits_raise {A} Q e : emits Q (@raise A e).
Proof. intros w. exists []. by rewrite log_nil. Qed.

Lemma emits_attr {A} Q (o : option A) : emits Q (attr o).
Proof. destruct o; [apply emits_ret | apply emits_raise]. Qed.

Lemma emits_call {A} (Q : Event → Prop) ev (r : result A) :
  Q ev → emits Q (call ev r).
Proof. intros HQ w. exists [ev]. split; [done|]. by constructor. Qed.

Lemma emits_cache_get mass (Q : Event → Prop) key d :
  Q (cache_async_get key) → emits Q (cache_get mass key d).
Proof. intros HQ w. exists [cache_async_get key]. split; [done|]. by constructor. Qed.

Lemma emits_bind {A B} Q (m : M A) (f : A → M B) :
  emits Q m → (∀ a, emits Q (f a)) → emits Q (m ≫= f).
Proof.
  intros Hm Hf w. destruct (Hm w) as (evs1 & Hw1 & HQ1).
  unfold mbind, M_bind. destruct (m w) as [[a|e] w1]; simpl in *; subst w1.
  - destruct (Hf a (log w evs1)) as (evs2 & Hw2 & HQ2).
    exists (evs1 ++ evs2). rewrite Hw2, log_log. split; [done|].
    by apply Forall_app.
  - by exists evs1.
Qed.

Lemma emits_for_each {A S} Q (l : list A) (body : A → S → M S) s :
  (∀ x s, emits Q (body x s)) → emits Q (for_each l body s).
Proof.
  intros Hbody. revert s. induction l as [|x l IH]; intros s; simpl.
  - apply emits_ret.
  - apply emits_bind; [apply Hbody | apply IH].
Qed.

Lemma emits_mono {A} (Q Q' : Event → Prop) (m : M A) :
  (∀ ev, Q ev → Q' ev) → emits Q m → emits Q' m.
Proof.
  intros HQ Hm w. destruct (Hm w) as (evs & Hw & Hevs).
  exists evs. split; [done|]. eapply Forall_impl; eauto.
Qed.

Ltac solve_emits :=
  repeat first
    [ apply emits_ret
    | apply emits_raise
    | apply emits_attr
    | apply emits_call; simpl; solve [auto]
    | apply emits_cache_get; simpl; solve [auto]
    | apply emits_bind; [|intros ?]
    | apply emits_for_each; intros ? ?
    | match goal with
      | |- emits _ (if ?b then _ else _) => destruct b
      | |- emits _ (match ?o with Some _ => _ | None => _ end) => destruct o
      end ].

Section SyncRuns.

Variable mass : Mass.

Lemma async_library_sync_unfold mt :
  async_library_sync mass mt = sync_task (sync_desc mt) (sync_body mass mt).
Proof. by destruct mt. Qed.

Lemma precache_tracks_ok ts w :
  Forall (precache_ok mass) ts →
  ∃ evs, for_each ts (precache_track mass) tt w = (Ok tt, log w evs)
         ∧ store_calls evs = [].
Proof.
  intros Hts. revert w.
  induction Hts as [|t ts Ht _ IH]; intros w.
  - exists []. by rewrite log_nil.
  - assert (∃ evs1, precache_track mass t tt w = (Ok tt, log w evs1)
                    ∧ store_calls evs1 = []) as (evs1 & Hrun & Hc1).
    { unfold precache_track, precache_ok in *.
      destruct (available t); simpl.
      - exists []. by rewrite log_nil.
      - destruct (decide (provider t = "database")).
        + exists [music_match_track t]. unfold match_track.
          by rewrite call_log, Ht.
        + destruct Ht as [r Hr]. exists [music_add_track t].
          unfold add_track.
          by rewrite (bind_ok _ _ _ r (log w [music_add_track t]))
            by (by rewrite call_log, Hr). }
    destruct (IH (log w evs1)) as (evs2 & Hrest & Hc2).
    exists (evs1 ++ evs2). simpl.
    rewrite (bind_ok _ _ _ _ _ Hrun), Hrest, log_log.
    split; [done|]. by rewrite store_calls_app, Hc1, Hc2.
Qed.

(** The deletion loop: one remove-from-library call for each prior id
    that is not a current id, in the order of the prior list. *)
Lemma process_deletions_ok mt prov (prev cur : list string) w :
  (∀ id, id ∈ prev → id ∉ cur →
     database_async_remove_from_library mass id mt prov = Ok tt) →
  process_deletions mass mt prov prev cur w =
    (Ok tt, log w ((λ id, db_remove_from_library id mt prov)
                     <$> filter (λ id, id ∉ cur) prev)).
Proof.
  unfold process_deletions. revert w.
  induction prev as [|id prev IH]; intros w Hok.
  - simpl. by rewrite log_nil.
  - simpl. rewrite filter_cons. case_bool_decide as Hin.
    + rewrite decide_True by done.
      assert (remove_from_library mass id mt prov w
              = (Ok tt, log w [db_remove_from_library id mt prov])) as Hrun.
      { unfold remove_from_library. rewrite call_log, Hok; [done| |done].
        apply list_elem_of_here. }
      rewrite (bind_ok _ _ _ _ _ Hrun), IH, log_log; [done|].
      intros id' Hid'. apply Hok. by apply list_elem_of_further.
    + rewrite decide_False by (by intros ?).
      rewrite (bind_ok _ _ _ tt w) by done.
      apply IH. intros id' Hid'. apply Hok. by apply list_elem_of_further.
Qed.

Lemma cache_get_log key d w :
  cache_get_raises mass key = None →
  cache_get mass key d w
  = (Ok (default d (cache w !! key)), log w [cache_async_get key]).
Proof. intros H. unfold cache_get. by rewrite H. Qed.

Lemma cache_get_raise key d w e :
  cache_get_raises mass key = Some e →
  cache_get mass key d w = (Raise e, log w [cache_async_get key]).
Proof. intros H. unfold cache_get. by rewrite H. Qed.

Lemma prov_call_log {A} p ev (method : Provider → result A) w :
  prov_call (Some p) ev method w = (method p, log w [ev (prov_id p)]).
Proof. reflexivity. Qed.

Lemma cache_set_log key ids w evs :
  cache_set_raises mass key ids = None →
  cache_set mass key ids (log w evs)
  = (Ok tt,
     {| running_sync_jobs := running_sync_jobs w;
        cache := <[key := ids]> (cache w);
        trace := trace w ++ (evs ++ [cache_async_set key ids]) |}).
Proof. intros H. unfold cache_set, log; simpl. by rewrite H, app_assoc. Qed.

Lemma cache_set_raise key ids w evs e stored :
  cache_set_raises mass key ids = Some (e, stored) →
  cache_set mass key ids (log w evs)
  = (Raise e,
     {| running_sync_jobs := running_sync_jobs w;
        cache := if stored then <[key := ids]> (cache w) else cache w;
        trace := trace w ++ (evs ++ [cache_async_set key ids]) |}).
Proof. intros H. unfold cache_set, log; simpl. by rewrite H, app_assoc. Qed.

Ltac run_calls :=
  unfold music_get_item, add_to_library, add_track, match_track,
    mbind, M_bind, mret, M_ret, call, attr; simpl.

Ltac close_log :=
  eexists; split;
  [ unfold log; simpl; rewrite <- ?app_assoc; simpl; reflexivity
  | try reflexivity ].

Ltac run_precache Hpre :=
  match goal with
  | |- context [for_each ?ts (precache_track mass) tt ?W] =>
      let evs := fresh "evs" in
      let Hrun := fresh "Hrun" in
      let Hc := fresh "Hc" in
      destruct (precache_tracks_ok ts W Hpre) as (evs & Hrun & Hc);
      rewrite Hrun; simpl;
      eexists; split;
      [ unfold log; simpl; rewrite <- ?app_assoc; simpl; reflexivity
      | unfold store_calls in *; simpl; rewrite ?List.filter_app, ?Hc;
        try reflexivity ]
  end.

Lemma sync_body_skeleton mt prov :
  ∃ body,
    sync_body mass mt prov = sync_skeleton mass mt prov body
    ∧ (∀ prev item id cur w,
        item_resolves mass mt prov prev item id →
        ∃ evs, body prev item cur w = (Ok (cur ++ [id]), log w evs)
               ∧ store_calls evs = item_store_calls mt prov prev item id)
    ∧ (∀ prev item cur, emits (item_event mt prov) (body prev item cur)).
Proof.
  destruct mt; eexists; (split; [reflexivity|]);
    (split; [|by intros prev item cur;
                 unfold precache_track, music_get_item, add_to_library,
                   add_track, match_track;
                 solve_emits]);
    intros prev item id cur w (d & d' & Hget & Hid & Hrest).
  - destruct Hrest as (-> & Hadd). run_calls.
    rewrite Hget; simpl. rewrite Hid, Hadd. close_log.
  - destruct Hrest as (Hsel & Hadd & ts & Hts & Hpre). run_calls.
    rewrite Hget; simpl.
    destruct (bool_decide (available d = available item)); simpl.
    + subst d'. rewrite Hid, Hadd, Hts. run_precache Hpre.
    + rewrite Hsel; simpl. rewrite Hid, Hadd, Hts. run_precache Hpre.
  - destruct Hrest as (Hsel & Hadd). run_calls.
    rewrite Hget; simpl. unfold item_store_calls.
    destruct (bool_decide (available d = available item)); simpl;
      [subst d' | rewrite Hsel; simpl]; rewrite Hid;
      (case_bool_decide; simpl; [rewrite Hadd by done|]; close_log).
  - destruct Hrest as (Hsel & Hadd & ts & Hts & Hpre). run_calls.
    rewrite Hget; simpl.
    destruct (bool_decide (checksum d = checksum item)); simpl.
    + subst d'. rewrite Hid, Hadd, Hts. run_precache Hpre.
    + rewrite Hsel; simpl. rewrite Hid, Hadd, Hts. run_precache Hpre.
  - destruct Hrest as (-> & Hadd). run_calls.
    rewrite Hget; simpl. rewrite Hid, Hadd. close_log.
Qed.

Lemma store_calls_removals mt prov (ids : list string) :
  store_calls ((λ id, db_remove_from_library id mt prov) <$> ids)
  = (λ id, db_remove_from_library id mt prov) <$> ids.
Proof. induction ids as [|id ids IH]; simpl; [done|]. by f_equal. Qed.

Lemma sync_skeleton_ok mt prov body p items C w :
  (∀ prev item id cur w,
     item_resolves mass mt prov prev item id →
     ∃ evs, body prev item cur w = (Ok (cur ++ [id]), log w evs)
            ∧ store_calls evs = item_store_calls mt prov prev item id) →
  cache_get_raises mass (cache_key mt prov) = None →
  cache_set_raises mass (cache_key mt prov) C = None →
  get_provider mass prov = Some p →
  provider_async_get_library p mt = Ok items →
  Forall2 (item_resolves mass mt prov (default [] (cache w !! cache_key mt prov)))
    items C →
  (∀ id, id ∈ default [] (cache w !! cache_key mt prov) → id ∉ C →
     database_async_remove_from_library mass id mt prov = Ok tt) →
  ∃ evs,
    sync_skeleton mass mt prov body w
    = (Ok tt,
       {| running_sync_jobs := running_sync_jobs w;
          cache := <[cache_key mt prov := C]> (cache w);
          trace := trace w ++ evs |})
    ∧ store_calls evs
      = concat (zip_with
                  (item_store_calls mt prov
                     (default [] (cache w !! cache_key mt prov))) items C)
        ++ ((λ id, db_remove_from_library id mt prov)
              <$> filter (λ id, id ∉ C)
                    (default [] (cache w !! cache_key mt prov))).
Proof.
  intros Hbody Hget Hset Hprov Hitems HC Hrem.
  set (prev := default [] (cache w !! cache_key mt prov)) in *.
  destruct (for_each_collect (body prev) _ _ (Hbody prev) items C HC []
              (log w [cache_async_get (cache_key mt prov);
                      prov_get_library (prov_id p) mt]))
    as (evs & Hloop & Hcalls).
  unfold sync_skeleton.
  rewrite (bind_ok _ _ _ _ _ (cache_get_log _ _ _ Hget)). fold prev.
  rewrite Hprov.
  rewrite (bind_ok _ _ _ items
             (log w [cache_async_get (cache_key mt prov);
                     prov_get_library (prov_id p) mt]))
    by (by rewrite prov_call_log, Hitems, log_log).
  rewrite (bind_ok _ _ _ _ _ Hloop). simpl.
  rewrite (bind_ok _ _ _ _ _ (process_deletions_ok mt prov prev C _ Hrem)).
  rewrite !log_log, cache_set_log by done.
  eexists; split; [reflexivity|].
  rewrite !store_calls_app, Hcalls. simpl.
  rewrite app_nil_r. f_equal. apply store_calls_removals.
Qed.

(** The undecorated sync of any media type, on a run where every
    collaborator answers. *)
Lemma sync_body_ok mt prov p items C w :
  cache_get_raises mass (cache_key mt prov) = None →
  cache_set_raises mass (cache_key mt prov) C = None →
  get_provider mass prov = Some p →
  provider_async_get_library p mt = Ok items →
  Forall2 (item_resolves mass mt prov (default [] (cache w !! cache_key mt prov)))
    items C →
  (∀ id, id ∈ default [] (cache w !! cache_key mt prov) → id ∉ C →
     database_async_remove_from_library mass id mt prov = Ok tt) →
  ∃ evs,
    sync_body mass mt prov w
    = (Ok tt,
       {| running_sync_jobs := running_sync_jobs w;
          cache := <[cache_key mt prov := C]> (cache w);
          trace := trace w ++ evs |})
    ∧ store_calls evs
      = concat (zip_with
                  (item_store_calls mt prov
                     (default [] (cache w !! cache_key mt prov))) items C)
        ++ ((λ id, db_remove_from_library id mt prov)
              <$> filter (λ id, id ∉ C)
                    (default [] (cache w !! cache_key mt prov))).
Proof.
  destruct (sync_body_skeleton mt prov) as (body & -> & Hbody & _).
  by apply sync_skeleton_ok.
Qed.

End SyncRuns.

(** ** The decorator *)

Lemma already_running_spec jobs prov_id desc :
  already_running jobs prov_id desc = true ↔ (prov_id, desc) ∈ jobs.
Proof.
  induction jobs as [|[p d] jobs IH]; simpl.
  - split; [done|]. by intros ?%elem_of_nil.
  - rewrite elem_of_cons. case_decide as Heq.
    + destruct Heq as [-> ->]. by split; [left|].
    + rewrite IH. split; [by right|]. intros [[= -> ->]|]; [|done].
      by destruct Heq.
Qed.

Lemma already_running_false jobs prov_id desc :
  already_running jobs prov_id desc = false ↔ (prov_id, desc) ∉ jobs.
Proof.
  rewrite <- already_running_spec. by destruct (already_running _ _ _).
Qed.

Lemma list_remove_app_fresh job jobs :
  job ∉ jobs → list_remove job (jobs ++ [job]) = Some jobs.
Proof.
  induction jobs as [|j jobs IH]; simpl; intros Hnot.
  - by rewrite decide_True.
  - apply not_elem_of_cons in Hnot as [Hne Hnot].
    rewrite decide_False by done. by rewrite IH.
Qed.

Lemma sync_task_skip desc func prov_id w :
  (prov_id, desc) ∈ running_sync_jobs w →
  sync_task desc func prov_id w = (Ok tt, w).
Proof.
  intros Hin%already_running_spec. unfold sync_task, get_jobs, mbind, M_bind.
  by rewrite Hin.
Qed.

Lemma sync_task_enter desc func prov_id w :
  (prov_id, desc) ∉ running_sync_jobs w →
  sync_task desc func prov_id w
  = (_ ← func prov_id;
     _ ← jobs_remove (prov_id, desc);
     signal_sync_status) (registered w (prov_id, desc)).
Proof.
  intros Hnot%already_running_false.
  unfold sync_task, get_jobs, mbind at 1, M_bind at 1.
  by rewrite Hnot.
Qed.

Lemma sync_task_raise desc func prov_id w e w' :
  (prov_id, desc) ∉ running_sync_jobs w →
  func prov_id (registered w (prov_id, desc)) = (Raise e, w') →
  sync_task desc func prov_id w = (Raise e, w').
Proof.
  intros Hnot Hrun. rewrite sync_task_enter by done.
  by rewrite (bind_raise _ _ _ _ _ Hrun).
Qed.

Lemma sync_task_return desc func prov_id w w' :
  (prov_id, desc) ∉ running_sync_jobs w →
  func prov_id (registered w (prov_id, desc)) = (Ok tt, w') →
  running_sync_jobs w' = running_sync_jobs w ++ [(prov_id, desc)] →
  sync_task desc func prov_id w
  = (Ok tt,
     {| running_sync_jobs := running_sync_jobs w;
        cache := cache w';
        trace := trace w' ++ [signal_event (running_sync_jobs w)] |}).
Proof.
  intros Hnot Hrun Hjobs. rewrite sync_task_enter by done.
  rewrite (bind_ok _ _ _ _ _ Hrun).
  unfold jobs_remove, signal_sync_status, get_jobs, mbind, M_bind, call.
  rewrite Hjobs, list_remove_app_fresh by done. reflexivity.
Qed.

Lemma removal_calls_store_calls evs :
  removal_calls evs = removal_calls (store_calls evs).
Proof.
  unfold removal_calls, store_calls.
  induction evs as [|ev evs IH]; simpl; [done|].
  destruct ev; simpl; by rewrite ?IH.
Qed.

Lemma addition_calls_store_calls evs :
  addition_calls evs = addition_calls (store_calls evs).
Proof.
  unfold addition_calls, store_calls.
  induction evs as [|ev evs IH]; simpl; [done|].
  destruct ev; simpl; by rewrite ?IH.
Qed.

Lemma removal_calls_items mt prov prev items C :
  removal_calls (concat (zip_with (item_store_calls mt prov prev) items C)) = [].
Proof.
  unfold removal_calls.
  revert C. induction items as [|item items IH]; intros [|id C]; simpl; try done.
  rewrite List.filter_app, IH, app_nil_r.
  destruct mt; simpl; try done. by case_bool_decide.
Qed.

Lemma removal_calls_removals mt prov (ids : list string) :
  removal_calls ((λ id, db_remove_from_library id mt prov) <$> ids)
  = (λ id, db_remove_from_library id mt prov) <$> ids.
Proof. induction ids as [|id ids IH]; simpl; [done|]. by f_equal. Qed.

Lemma addition_calls_removals mt prov (ids : list string) :
  addition_calls ((λ id, db_remove_from_library id mt prov) <$> ids) = [].
Proof. induction ids as [|id ids IH]; simpl; done. Qed.

(** The decorated sync of any media type, on a run that is not already
    registered and where every collaborator answers: it returns, the job
    is registered during the run and gone after it, the cache holds the
    current ids, and the store calls are the items' additions followed by
    the deletions. *)
Lemma async_library_sync_ok mass mt prov p items C w :
  (prov, sync_desc mt) ∉ running_sync_jobs w →
  cache_get_raises mass (cache_key mt prov) = None →
  cache_set_raises mass (cache_key mt prov) C = None →
  get_provider mass prov = Some p →
  provider_async_get_library p mt = Ok items →
  Forall2 (item_resolves mass mt prov
             (default [] (cache w !! cache_key mt prov))) items C →
  (∀ id, id ∈ default [] (cache w !! cache_key mt prov) → id ∉ C →
     database_async_remove_from_library mass id mt prov = Ok tt) →
  ∃ evs,
    async_library_sync mass mt prov w
    = (Ok tt,
       {| running_sync_jobs := running_sync_jobs w;
          cache := <[cache_key mt prov := C]> (cache w);
          trace := trace w ++ evs |})
    ∧ store_calls evs
      = concat (zip_with
                  (item_store_calls mt prov
                     (default [] (cache w !! cache_key mt prov))) items C)
        ++ ((λ id, db_remove_from_library id mt prov)
              <$> filter (λ id, id ∉ C)
                    (default [] (cache w !! cache_key mt prov))).
Proof.
  intros Hfresh Hget Hset Hprov Hitems HC Hrem.
  destruct (sync_body_ok mass mt prov p items C
              (registered w (prov, sync_desc mt)) Hget Hset Hprov Hitems HC Hrem)
    as (evs & Hrun & Hcalls).
  rewrite async_library_sync_unfold.
  rewrite (sync_task_return _ _ _ _ _ Hfresh Hrun) by done.
  exists ([signal_event (running_sync_jobs w ++ [(prov, sync_desc mt)])]
          ++ evs ++ [signal_event (running_sync_jobs w)]).
  split.
  - simpl. by rewrite <- !app_assoc.
  - rewrite !store_calls_app, Hcalls. simpl. by rewrite app_nil_r.
Qed.

(** ** Deletions *)

Lemma elem_of_removal_calls ev evs :
  ev ∈ removal_calls evs ↔ ev ∈ evs ∧ is_removal ev = true.
Proof. unfold removal_calls. rewrite !list_elem_of_In. apply List.filter_In. Qed.

(** C1.  A sync run of any media type whose prior identifier list, loaded
    from the cache, is [P], whose catalog listing resolves to the current
    identifiers [C] and whose write of [C] to the cache answers, returns;
    its remove-from-library calls are exactly one
    call for each entry of [P] that is not in [C], in the order of [P], and
    nothing else is removed; an identifier receives a removal call iff it
    is in [P] and not in [C], and exactly one when [P] holds it once; the
    list persisted to the cache is [C]. *)
Theorem sync_removes_exactly_the_vanished
    mass mt prov p items (P C : list string) w :
  (prov, sync_desc mt) ∉ running_sync_jobs w →
  cache_get_raises mass (cache_key mt prov) = None →
  cache_set_raises mass (cache_key mt prov) C = None →
  default [] (cache w !! cache_key mt prov) = P →
  get_provider mass prov = Some p →
  provider_async_get_library p mt = Ok items →
  Forall2 (item_resolves mass mt prov P) items C →
  (∀ id, id ∈ P → id ∉ C →
     database_async_remove_from_library mass id mt prov = Ok tt) →
  ∃ evs w',
    async_library_sync mass mt prov w = (Ok tt, w')
    ∧ trace w' = trace w ++ evs
    ∧ removal_calls evs
      = (λ id, db_remove_from_library id mt prov) <$> filter (λ id, id ∉ C) P
    ∧ (∀ ev, ev ∈ evs → is_removal ev = true →
         ∃ id, ev = db_remove_from_library id mt prov ∧ id ∈ P ∧ id ∉ C)
    ∧ (∀ id, id ∈ P → id ∉ C → db_remove_from_library id mt prov ∈ evs)
    ∧ (NoDup P → NoDup (removal_calls evs))
    ∧ cache w' !! cache_key mt prov = Some C
    ∧ running_sync_jobs w' = running_sync_jobs w.
Proof.
  intros Hfresh Hget Hset HP Hprov Hitems HC Hrem. subst P.
  destruct (async_library_sync_ok mass mt prov p items C w
              Hfresh Hget Hset Hprov Hitems HC Hrem) as (evs & Hrun & Hcalls).
  set (P := default [] (cache w !! cache_key mt prov)) in *.
  assert (removal_calls evs
          = (λ id, db_remove_from_library id mt prov)
              <$> filter (λ id, id ∉ C) P) as Hrm.
  { rewrite removal_calls_store_calls, Hcalls.
    unfold removal_calls at 1. rewrite List.filter_app.
    fold (removal_calls (concat (zip_with (item_store_calls mt prov P) items C))).
    rewrite removal_calls_items. simpl. apply removal_calls_removals. }
  eexists evs, _. split; [exact Hrun|]. simpl.
  split; [done|]. split; [done|]. split; [|split; [|split; [|split]]].
  - intros ev Hev Hisrm.
    assert (ev ∈ removal_calls evs) as Hin by (by apply elem_of_removal_calls).
    rewrite Hrm in Hin. apply list_elem_of_fmap in Hin as (id & -> & Hid).
    apply list_elem_of_filter in Hid as [? ?]. by exists id.
  - intros id HidP HidC.
    assert (db_remove_from_library id mt prov ∈ removal_calls evs) as Hin.
    { rewrite Hrm. apply list_elem_of_fmap. exists id. split; [done|].
      by apply list_elem_of_filter. }
    by apply elem_of_removal_calls in Hin as [? _].
  - intros Hnd. rewrite Hrm. apply NoDup_fmap_2; [|by apply NoDup_filter].
    by intros id1 id2 [= ->].
  - apply lookup_insert_eq.
  - done.
Qed.

(** P = {A, B, C}, catalog {A, C}: one removal, for B; {A, C} persisted. *)
Lemma sync_removes_exactly_the_vanished_witness :
  ∃ evs w',
    async_library_sync Demo.mass1 Artist "p1"
      (Demo.world_with "library_artists_p1" ["A"; "B"; "C"]) = (Ok tt, w')
    ∧ trace w' = evs
    ∧ removal_calls evs = [db_remove_from_library "B" Artist "p1"]
    ∧ cache w' !! "library_artists_p1" = Some ["A"; "C"].
Proof.
  destruct (sync_removes_exactly_the_vanished Demo.mass1 Artist "p1" Demo.p1
              [Demo.prov_item "p1" Artist "A"; Demo.prov_item "p1" Artist "C"]
              ["A"; "B"; "C"] ["A"; "C"]
              (Demo.world_with "library_artists_p1" ["A"; "B"; "C"]))
    as (evs & w' & Hrun & Htrace & Hrm & _ & _ & _ & Hcache & _).
  - apply not_elem_of_nil.
  - reflexivity.
  - reflexivity.
  - reflexivity.
  - reflexivity.
  - reflexivity.
  - repeat constructor; eexists _, _; repeat split; reflexivity.
  - reflexivity.
  - exists evs, w'. repeat split; try done.
Defined.

(** P = {A, B}, empty catalog: A and B are removed, the empty list is
    persisted. *)
Example empty_catalog_purges :
  Demo.purge_run.1 = Ok tt
  ∧ store_calls (trace Demo.purge_run.2)
    = [db_remove_from_library "A" Artist "p2";
       db_remove_from_library "B" Artist "p2"]
  ∧ cache Demo.purge_run.2 = {[ "library_artists_p2" := [] ]}.
Proof. by vm_compute. Qed.

(** ** Outcomes of a run, failures included *)

Lemma item_event_no_removal mt prov evs :
  Forall (item_event mt prov) evs → removal_calls evs = [].
Proof.
  induction 1 as [|ev evs Hev _ IH]; [done|].
  unfold removal_calls in *. simpl. rewrite IH. by destruct ev.
Qed.

Lemma item_event_no_listing mt prov evs :
  Forall (item_event mt prov) evs → listing_calls evs = [].
Proof.
  induction 1 as [|ev evs Hev _ IH]; [done|].
  unfold listing_calls in *. simpl. rewrite IH. by destruct ev.
Qed.

Lemma item_event_body_event mt prov prev ev :
  item_event mt prov ev → body_event mt prov prev ev.
Proof. by destruct ev. Qed.

(** The deletion loop, whatever the store answers: it logs removals of
    prior ids that are not current, and when it raises, the call that
    failed is the last one logged. *)
Lemma process_deletions_outcome mass mt prov prev cur w :
  ∃ r evs,
    process_deletions mass mt prov prev cur w = (r, log w evs)
    ∧ Forall (λ ev, ∃ id, ev = db_remove_from_library id mt prov
                          ∧ id ∈ prev ∧ id ∉ cur) evs
    ∧ match r with
      | Ok _ => True
      | Raise e => failed_at_removal mass mt prov e evs
      end.
Proof.
  unfold process_deletions. revert w.
  induction prev as [|id prev IH]; intros w; simpl.
  { exists (Ok tt), []. by rewrite log_nil. }
  assert (∀ evs : list Event,
    Forall (λ ev, ∃ id0, ev = db_remove_from_library id0 mt prov
                         ∧ id0 ∈ prev ∧ id0 ∉ cur) evs →
    Forall (λ ev, ∃ id0, ev = db_remove_from_library id0 mt prov
                         ∧ id0 ∈ id :: prev ∧ id0 ∉ cur) evs) as Hmono.
  { intros evs Hevs. eapply Forall_impl; [exact Hevs|].
    intros ev (id0 & -> & Hin0 & Hnot0).
    exists id0. split; [done|]. split; [|done]. by apply list_elem_of_further. }
  case_bool_decide as Hin.
  - destruct (database_async_remove_from_library mass id mt prov)
      as [[]|e] eqn:Hrm.
    + rewrite (bind_ok _ _ _ tt (log w [db_remove_from_library id mt prov]))
        by (unfold remove_from_library; by rewrite call_log, Hrm).
      destruct (IH (log w [db_remove_from_library id mt prov]))
        as (r & evs & Hrun & HQ & Hr).
      exists r, (db_remove_from_library id mt prov :: evs).
      rewrite Hrun, log_log. split; [done|]. split.
      * constructor; [|by apply Hmono]. exists id. split; [done|].
        split; [apply list_elem_of_here|done].
      * destruct r as [[]|e]; [done|].
        destruct Hr as (evs0 & id' & -> & Hfail).
        by exists (db_remove_from_library id mt prov :: evs0), id'.
    + rewrite (bind_raise _ _ _ e (log w [db_remove_from_library id mt prov]))
        by (unfold remove_from_library; by rewrite call_log, Hrm).
      exists (Raise e), [db_remove_from_library id mt prov].
      split; [done|]. split.
      * repeat constructor. exists id. split; [done|].
        split; [apply list_elem_of_here|done].
      * by exists [], id.
  - rewrite (bind_ok _ _ _ tt w) by done.
    destruct (IH w) as (r & evs & Hrun & HQ & Hr).
    exists r, evs. split; [done|]. split; [by apply Hmono|done].
Qed.

Lemma removals_no_listing mt prov (prev cur : list string) evs :
  Forall (λ ev, ∃ id, ev = db_remove_from_library id mt prov
                      ∧ id ∈ prev ∧ id ∉ cur) evs →
  listing_calls evs = []
  ∧ Forall (body_event mt prov prev) evs.
Proof.
  induction 1 as [|ev evs (id & -> & Hin & _) _ [IH1 IH2]]; [done|].
  split; [exact IH1|]. by constructor.
Qed.

(** Every run of an undecorated sync: the running jobs stay and the calls
    made are calls the sync may make.  A run that returns has listed the
    catalog and stored a list of ids under the cache key.  A run that
    raises has listed the catalog at most, and unless the failing call is
    the cache write the cache is as it was, and unless it is a
    remove-from-library call or the cache write no remove-from-library
    call was made. *)
Lemma sync_body_outcome mass mt prov w :
  ∃ r evs cache',
    sync_body mass mt prov w
    = (r, {| running_sync_jobs := running_sync_jobs w;
             cache := cache';
             trace := trace w ++ evs |})
    ∧ Forall (body_event mt prov (default [] (cache w !! cache_key mt prov)))
        evs
    ∧ match r with
      | Ok _ =>
          (∃ cur, cache' = <[cache_key mt prov := cur]> (cache w))
          ∧ listing_calls evs = listing_of (get_provider mass prov) mt
      | Raise e =>
          listing_calls evs `prefix_of` listing_of (get_provider mass prov) mt
          ∧ aborted mass mt prov e evs (cache w) cache'
      end.
Proof.
  destruct (sync_body_skeleton mass mt prov) as (body & -> & _ & Hbody).
  unfold sync_skeleton.
  set (prev := default [] (cache w !! cache_key mt prov)).
  destruct (cache_get_raises mass (cache_key mt prov)) as [e|] eqn:Hget.
  { exists (Raise e), [cache_async_get (cache_key mt prov)], (cache w).
    rewrite (bind_raise _ _ _ _ _ (cache_get_raise mass _ _ _ _ Hget)).
    split; [done|]. split; [by repeat constructor|].
    split; [apply prefix_nil|]. right. split; [done|]. by right. }
  rewrite (bind_ok _ _ _ _ _ (cache_get_log mass _ _ _ Hget)). fold prev.
  destruct (get_provider mass prov) as [p|].
  2:{ exists (Raise AttributeError), [cache_async_get (cache_key mt prov)],
        (cache w).
      split; [reflexivity|]. split; [by repeat constructor|].
      split; [done|]. right. split; [done|]. by right. }
  destruct (provider_async_get_library p mt) as [items|e] eqn:Hitems.
  2:{ exists (Raise e), [cache_async_get (cache_key mt prov);
                        prov_get_library (prov_id p) mt], (cache w).
      split; [|split; [by repeat constructor|]].
      - rewrite (bind_raise _ _ _ e
                   (log w [cache_async_get (cache_key mt prov);
                           prov_get_library (prov_id p) mt]));
          [done|]. by rewrite prov_call_log, Hitems, log_log.
      - split; [done|]. right. split; [done|]. by right. }
  rewrite (bind_ok _ _ _ items
             (log w [cache_async_get (cache_key mt prov);
                     prov_get_library (prov_id p) mt]))
    by (by rewrite prov_call_log, Hitems, log_log).
  set (w1 := log w _).
  destruct (emits_for_each (item_event mt prov) items (body prev) []
              (Hbody prev) w1) as (evs1 & Hw1 & HQ1).
  pose proof (item_event_no_listing _ _ _ HQ1) as Hl1.
  pose proof (item_event_no_removal _ _ _ HQ1) as Hr1.
  assert (Forall (body_event mt prov prev) evs1) as HB1.
  { eapply Forall_impl; [exact HQ1|]. apply item_event_body_event. }
  destruct (for_each items (body prev) [] w1) as [[cur|e] w2] eqn:Hloop;
    simpl in Hw1; subst w2.
  2:{ exists (Raise e),
        ([cache_async_get (cache_key mt prov);
          prov_get_library (prov_id p) mt] ++ evs1), (cache w).
      rewrite (bind_raise _ _ _ _ _ Hloop). unfold w1. rewrite log_log.
      split; [done|]. split.
      - apply Forall_app. split; [by repeat constructor|done].
      - split.
        + unfold listing_calls in *. simpl. by rewrite Hl1.
        + right. split; [done|]. right.
          unfold removal_calls in *. simpl. exact Hr1. }
  rewrite (bind_ok _ _ _ _ _ Hloop).
  destruct (process_deletions_outcome mass mt prov prev cur (log w1 evs1))
    as (r & evs2 & Hdel & HQ2 & Hr).
  destruct (removals_no_listing _ _ _ _ _ HQ2) as [Hl2 HB2].
  assert (listing_calls
            ([cache_async_get (cache_key mt prov);
              prov_get_library (prov_id p) mt] ++ evs1 ++ evs2)
          = [prov_get_library (prov_id p) mt]) as Hl.
  { unfold listing_calls in *. simpl. f_equal.
    by rewrite List.filter_app, Hl1, Hl2. }
  assert (Forall (body_event mt prov prev)
            ([cache_async_get (cache_key mt prov);
              prov_get_library (prov_id p) mt] ++ evs1 ++ evs2)) as HB.
  { repeat (apply Forall_app; split); try done; by repeat constructor. }
  destruct r as [[]|e].
  - rewrite (bind_ok _ _ _ _ _ Hdel). unfold w1. rewrite !log_log.
    destruct (cache_set_raises mass (cache_key mt prov) cur)
      as [[e stored]|] eqn:Hset.
    + rewrite (cache_set_raise mass _ _ _ _ _ _ Hset).
      eexists (Raise e), _, _. split; [reflexivity|]. split; [|split].
      * apply Forall_app. split; [exact HB|]. by repeat constructor.
      * unfold listing_calls in *. rewrite List.filter_app, Hl. simpl. done.
      * left. eexists _, cur, stored. split; [reflexivity|]. done.
    + rewrite (cache_set_log mass _ _ _ _ Hset).
      eexists (Ok tt), _, _. split; [reflexivity|]. split; [|split].
      * apply Forall_app. split; [exact HB|]. by repeat constructor.
      * by exists cur.
      * unfold listing_calls in *. rewrite List.filter_app, Hl. simpl. done.
  - rewrite (bind_raise _ _ _ _ _ Hdel). unfold w1. rewrite !log_log.
    eexists (Raise e), _, (cache w). split; [reflexivity|].
    split; [exact HB|]. split; [by rewrite Hl|].
    right. split; [done|]. left.
    destruct Hr as (evs0 & id & -> & Hfail).
    exists ([cache_async_get (cache_key mt prov);
             prov_get_library (prov_id p) mt] ++ evs1 ++ evs0), id.
    split; [|done]. by rewrite <- !app_assoc.
Qed.

(** The same for the decorated sync, when it is not skipped: the registry
    is published with the job, the body runs, and if the body returns the
    job is taken off and the registry is published again; when the body
    raises, the job it registered is still in [running_sync_jobs]. *)
Lemma async_library_sync_outcome mass mt prov w :
  (prov, sync_desc mt) ∉ running_sync_jobs w →
  ∃ r evs cache',
    async_library_sync mass mt prov w
    = (r, {| running_sync_jobs :=
               match r with
               | Ok _ => running_sync_jobs w
               | Raise _ => running_sync_jobs w ++ [(prov, sync_desc mt)]
               end;
             cache := cache';
             trace :=
               trace w
               ++ [signal_event (running_sync_jobs w ++ [(prov, sync_desc mt)])]
               ++ evs
               ++ match r with
                  | Ok _ => [signal_event (running_sync_jobs w)]
                  | Raise _ => []
                  end |})
    ∧ Forall (body_event mt prov (default [] (cache w !! cache_key mt prov)))
        evs
    ∧ match r with
      | Ok _ =>
          (∃ cur, cache' = <[cache_key mt prov := cur]> (cache w))
          ∧ listing_calls evs = listing_of (get_provider mass prov) mt
      | Raise e =>
          listing_calls evs `prefix_of` listing_of (get_provider mass prov) mt
          ∧ aborted mass mt prov e evs (cache w) cache'
      end.
Proof.
  intros Hfresh. rewrite async_library_sync_unfold.
  destruct (sync_body_outcome mass mt prov (registered w (prov, sync_desc mt)))
    as (r & evs & cache' & Hrun & HQ & Hr).
  exists r, evs, cache'. destruct r as [[]|e].
  - rewrite (sync_task_return _ _ _ _ _ Hfresh Hrun) by done. simpl.
    split; [by rewrite <- !app_assoc|]. done.
  - rewrite (sync_task_raise _ _ _ _ _ _ Hfresh Hrun). simpl.
    split; [by rewrite app_nil_r, <- !app_assoc|]. done.
Qed.

Lemma aborted_cons mass mt prov e ev evs cache0 cache' :
  is_removal ev = false →
  aborted mass mt prov e evs cache0 cache' →
  aborted mass mt prov e (ev :: evs) cache0 cache'.
Proof.
  intros Hev [(evs0 & cur & stored & -> & Hset & Hc) | [Hc [Hrm | Hrm]]].
  - left. by exists (ev :: evs0), cur, stored.
  - right. split; [done|]. left. destruct Hrm as (evs0 & id & -> & Hfail).
    by exists (ev :: evs0), id.
  - right. split; [done|]. right. unfold removal_calls in *. simpl.
    by rewrite Hev.
Qed.
(** ** Failed runs *)

(** A failed run stays registered: nothing after [await func] runs, and
    the next call for the same provider and kind is skipped. *)
Lemma failed_sync_stays_registered mass mt prov w e w' :
  (prov, sync_desc mt) ∉ running_sync_jobs w →
  async_library_sync mass mt prov w = (Raise e, w') →
  running_sync_jobs w' = running_sync_jobs w ++ [(prov, sync_desc mt)]
  ∧ async_library_sync mass mt prov w' = (Ok tt, w').
Proof.
  intros Hfresh Hrun.
  destruct (async_library_sync_outcome mass mt prov w Hfresh)
    as (r & evs & cache' & Hout & _ & _).
  rewrite Hout in Hrun. injection Hrun as -> <-. simpl.
  split; [done|]. rewrite async_library_sync_unfold.
  apply sync_task_skip. simpl. apply elem_of_app. right. apply list_elem_of_here.
Qed.

(** C3, as the code has it.  When a sync run fails, the exception reaches
    the caller.  Unless the call that failed is the cache write that ends
    a run, the cache is as it was before the run, so the prior identifier
    list survives.  Unless the call that failed is a remove-from-library
    call or that cache write (so: when the cache read, the catalog fetch
    or a per-item lookup, match or add-to-library call fails), no
    remove-from-library call has been issued.  The call that failed is the
    last call of the run. *)
Theorem failed_sync_keeps_cache mass mt prov w e w' :
  async_library_sync mass mt prov w = (Raise e, w') →
  ∃ evs,
    trace w' = trace w ++ evs
    ∧ (failed_at_cache_write mass mt prov e evs (cache w) (cache w')
       ∨ (cache w' = cache w
          ∧ (failed_at_removal mass mt prov e evs
             ∨ removal_calls evs = []))).
Proof.
  intros Hrun.
  destruct (decide ((prov, sync_desc mt) ∈ running_sync_jobs w))
    as [Hin|Hfresh].
  { by rewrite async_library_sync_unfold, sync_task_skip in Hrun. }
  destruct (async_library_sync_outcome mass mt prov w Hfresh)
    as (r & evs & cache' & Hout & _ & Hr).
  rewrite Hout in Hrun. injection Hrun as -> <-. simpl.
  destruct Hr as [_ Hab]. rewrite app_nil_r.
  eexists. split; [reflexivity|].
  by apply (aborted_cons mass mt prov e
              (signal_event (running_sync_jobs w ++ [(prov, sync_desc mt)]))).
Qed.

(** The lookup of the second catalog item of p3 fails: the prior ids A
    and B are still in the cache, and B, which the catalog no longer
    lists, has not been removed. *)
Lemma failed_sync_keeps_cache_witness :
  Demo.lookup_fails_run.1 = Raise (CollabError "lookup")
  ∧ cache Demo.lookup_fails_run.2 = {[ "library_artists_p3" := ["A"; "B"] ]}
  ∧ removal_calls (trace Demo.lookup_fails_run.2) = [].
Proof.
  split; [by vm_compute|].
  destruct (failed_sync_keeps_cache Demo.mass3 Artist "p3"
              (Demo.world_with "library_artists_p3" ["A"; "B"])
              (CollabError "lookup") Demo.lookup_fails_run.2)
    as (evs & Htrace & [Hw | [Hcache [Hrm | Hrm]]]).
  - by vm_compute.
  - destruct Hw as (evs0 & cur & stored & _ & Hset & _). discriminate Hset.
  - destruct Hrm as (evs0 & id & _ & Hfail). discriminate Hfail.
  - split; [exact Hcache|]. rewrite Htrace. exact Hrm.
Defined.

(** C3 as stated fails.  (1) The lookup of the second catalog item fails:
    the add-to-library call made for the first item stays, and the job is
    still registered.  (2) The catalog fetch fails: the job is still
    registered.  (3) The second remove-from-library call fails: the first
    removal has been made.  (4) The cache write fails: both removals have
    been made. *)
Lemma failed_sync_not_rolled_back :
  (Demo.lookup_fails_run.1 = Raise (CollabError "lookup")
   ∧ trace Demo.lookup_fails_run.2
     = [signal_event [("p3", "artists")];
        cache_async_get "library_artists_p3";
        prov_get_library "p3" Artist;
        music_get Artist "A" "p3";
        db_add_to_library "A" Artist "p3";
        music_get Artist "X" "p3"]
   ∧ running_sync_jobs Demo.lookup_fails_run.2 = [("p3", "artists")])
  ∧ (Demo.fetch_fails_run.1 = Raise (CollabError "fetch")
     ∧ running_sync_jobs Demo.fetch_fails_run.2 = [("p4", "artists")])
  ∧ (Demo.remove_fails_run.1 = Raise (CollabError "remove")
     ∧ store_calls (trace Demo.remove_fails_run.2)
       = [db_remove_from_library "B" Artist "p2";
          db_remove_from_library "C" Artist "p2"])
  ∧ (Demo.cache_write_fails_run.1 = Raise (CollabError "cache")
     ∧ store_calls (trace Demo.cache_write_fails_run.2)
       = [db_remove_from_library "A" Artist "p2";
          db_remove_from_library "B" Artist "p2"]
     ∧ running_sync_jobs Demo.cache_write_fails_run.2 = [("p2", "artists")]).
Proof. by vm_compute. Qed.

(** * Interleaved runs: the invariant *)

Lemma sync_task_segments desc func prov_id w :
  sync_task desc func prov_id w
  = (sync_enter desc prov_id ≫= λ entered : bool,
       if entered then func prov_id ≫= λ _, sync_leave desc prov_id
       else (mret tt : M unit)) w.
Proof.
  unfold sync_task, sync_enter, sync_leave, get_jobs, mbind, M_bind. simpl.
  by destruct (already_running _ _ _).
Qed.

Lemma sync_enter_spec desc prov_id w :
  sync_enter desc prov_id w
  = if bool_decide ((prov_id, desc) ∈ running_sync_jobs w) then (Ok false, w)
    else (Ok true, registered w (prov_id, desc)).
Proof.
  unfold sync_enter, get_jobs, mbind, M_bind. simpl.
  case_bool_decide as Hin.
  - apply already_running_spec in Hin. by rewrite Hin.
  - apply already_running_false in Hin. by rewrite Hin.
Qed.

Lemma list_remove_perm job jobs jobs' :
  list_remove job jobs = Some jobs' → jobs ≡ₚ job :: jobs'.
Proof.
  revert jobs'. induction jobs as [|j jobs IH]; simpl; intros jobs'; [done|].
  case_decide as Heq.
  - by intros [= <-]; subst.
  - destruct (list_remove job jobs) as [r|]; simpl; [|done].
    intros [= <-]. rewrite (IH r eq_refl). apply Permutation_swap.
Qed.

Lemma sync_leave_spec desc prov_id w w' :
  sync_leave desc prov_id w = (Ok tt, w') →
  running_sync_jobs w ≡ₚ (prov_id, desc) :: running_sync_jobs w'.
Proof.
  unfold sync_leave, jobs_remove, signal_sync_status, get_jobs, mbind, M_bind,
    call.
  destruct (list_remove _ _) as [jobs'|] eqn:Hrm; simpl; [|done].
  intros [= <-]. simpl. by apply list_remove_perm.
Qed.

Lemma registered_jobs_app l1 l2 :
  registered_jobs (l1 ++ l2) = registered_jobs l1 ++ registered_jobs l2.
Proof. unfold registered_jobs. by rewrite List.filter_app, fmap_app. Qed.

Lemma loop_inv_step s s' : loop_inv s → loop_step s s' → loop_inv s'.
Proof.
  intros [Hnd Hperm] Hstep. unfold loop_inv in *.
  destruct Hstep as [w w' l1 l2 prov_id desc entered Henter
                    | w w' invs job _ Hjobs
                    | w w' l1 l2 prov_id desc Hleave
                    | w l1 l2 job]; simpl in *.
  - rewrite sync_enter_spec in Henter.
    rewrite registered_jobs_app in *. unfold registered_jobs in *. simpl in *.
    case_bool_decide as Hin; injection Henter as <- <-; simpl; [done|].
    split.
    + apply NoDup_app. split; [done|]. split; [|apply NoDup_singleton].
      intros x Hx ->%list_elem_of_singleton. done.
    + rewrite Hperm. rewrite <- app_assoc.
      apply Permutation_app; [done|]. symmetry. apply Permutation_cons_append.
  - by rewrite Hjobs.
  - apply sync_leave_spec in Hleave.
    rewrite registered_jobs_app in *. unfold registered_jobs in *. simpl in *.
    rewrite Hleave in Hnd, Hperm. apply NoDup_cons in Hnd as [_ Hnd].
    split; [done|].
    rewrite <- Permutation_middle in Hperm.
    by apply Permutation_cons_inv in Hperm.
  - rewrite registered_jobs_app in *. unfold registered_jobs in *. simpl in *.
    done.
Qed.

Lemma loop_inv_reachable s0 s :
  loop_inv s0 → rtc loop_step s0 s → loop_inv s.
Proof. intros Hinv Hsteps. induction Hsteps; eauto using loop_inv_step. Qed.

Lemma loop_inv_initial s0 :
  running_sync_jobs (world s0) = [] →
  Forall (λ i, i.2 = Pending) (invocations s0) →
  loop_inv s0.
Proof.
  intros Hjobs Hpend. unfold loop_inv. rewrite Hjobs.
  split; [apply NoDup_nil_2|].
  unfold registered_jobs.
  induction Hpend as [|[job ph] invs Hph _ IH]; simpl in *; [done|].
  subst ph. unfold holds_entry at 1. simpl. exact IH.
Qed.

Lemma in_flight_registered (job : sync_job) (invs : list invocation) :
  (job, InFlight) ∈ invs → job ∈ registered_jobs invs.
Proof.
  intros Hin. unfold registered_jobs.
  apply list_elem_of_fmap. exists (job, InFlight). split; [done|].
  apply list_elem_of_In, List.filter_In. split; [|done].
  by apply list_elem_of_In.
Qed.







(** * Running a sync twice *)

Lemma second_run_no_track_additions prov (items : list MediaItem) (C C' : list string) :
  (∀ id, id ∈ C' → id ∈ C) →
  concat (zip_with (item_store_calls Track prov C) items C') = [].
Proof.
  revert C'. induction items as [|item items IH]; intros [|id C'] Hsub;
    simpl; try done.
  rewrite IH by (intros id' ?; apply Hsub; by apply list_elem_of_further).
  rewrite bool_decide_eq_false_2; [done|].
  intros Hnot. apply Hnot, Hsub, list_elem_of_here.
Qed.

Lemma filter_not_in_self (C : list string) : filter (λ id, id ∉ C) C = [].
Proof.
  assert (∀ l : list string, (∀ id, id ∈ l → id ∈ C) →
            filter (λ id, id ∉ C) l = []) as Hgen.
  { induction l as [|id l IH]; intros Hsub; [done|].
    rewrite filter_cons_False by (intros Hnot; apply Hnot, Hsub, list_elem_of_here).
    apply IH. intros id' ?. by apply Hsub, list_elem_of_further. }
  by apply Hgen.
Qed.

(** A run that finds the cache as the previous run with the same catalog
    left it: no remove-from-library call, the cache stays as it is, and
    the add-to-library calls are those of the items once more; the tracks
    sync, which adds only ids that are not in the prior list, makes no
    store call at all. *)
Lemma second_sync_run mass mt prov p items C w :
  (prov, sync_desc mt) ∉ running_sync_jobs w →
  cache_get_raises mass (cache_key mt prov) = None →
  cache_set_raises mass (cache_key mt prov) C = None →
  cache w !! cache_key mt prov = Some C →
  get_provider mass prov = Some p →
  provider_async_get_library p mt = Ok items →
  Forall2 (item_resolves mass mt prov C) items C →
  ∃ evs,
    async_library_sync mass mt prov w
    = (Ok tt,
       {| running_sync_jobs := running_sync_jobs w;
          cache := cache w;
          trace := trace w ++ evs |})
    ∧ store_calls evs = concat (zip_with (item_store_calls mt prov C) items C)
    ∧ (mt = Track → store_calls evs = []).
Proof.
  intros Hfresh Hget Hset Hcache Hprov Hitems HC.
  destruct (async_library_sync_ok mass mt prov p items C w Hfresh Hget Hset
              Hprov Hitems)
    as (evs & Hrun & Hcalls).
  - by rewrite Hcache.
  - rewrite Hcache. simpl. intros id Hin Hnot. done.
  - rewrite Hcache in Hcalls. simpl in Hcalls.
    rewrite filter_not_in_self, app_nil_r in Hcalls.
    exists evs. rewrite Hrun, insert_id by done.
    split; [done|]. split; [done|].
    intros ->. rewrite Hcalls. by apply second_run_no_track_additions.
Qed.

(** C4, on the code.  The artists sync of p1 run twice in a row with the
    same catalog: the second run finds the cache left by the first, removes
    nothing and leaves the cache as it is, but it calls add-to-library
    again for every catalog item. *)
Theorem artists_sync_twice_adds_again :
  Demo.artists_run1.1 = Ok tt
  ∧ Demo.artists_run2.1 = Ok tt
  ∧ cache Demo.artists_run2.2 = cache Demo.artists_run1.2
  ∧ store_calls (drop (length (trace Demo.artists_run1.2))
                   (trace Demo.artists_run2.2))
    = [db_add_to_library "A" Artist "p1"; db_add_to_library "C" Artist "p1"].
Proof. by vm_compute. Qed.

(** The tracks sync on the same input makes no store call the second
    time. *)
Example tracks_sync_twice_is_silent :
  store_calls (trace Demo.tracks_run1.2)
  = [db_add_to_library "A" Track "p1"; db_add_to_library "C" Track "p1"]
  ∧ Demo.tracks_run2.1 = Ok tt
  ∧ cache Demo.tracks_run2.2 = cache Demo.tracks_run1.2
  ∧ store_calls (drop (length (trace Demo.tracks_run1.2))
                   (trace Demo.tracks_run2.2)) = [].
Proof. by vm_compute. Qed.

(** * Which provider id the additions carry *)

(** The add-to-library calls of a successful run: artists, albums and
    radios add every current id under the synced provider id; tracks add
    the current ids that are not prior ids; playlists add every current id
    under the [provider] attribute of the listed playlist. *)
Lemma sync_additions mass mt prov p items C w :
  (prov, sync_desc mt) ∉ running_sync_jobs w →
  cache_get_raises mass (cache_key mt prov) = None →
  cache_set_raises mass (cache_key mt prov) C = None →
  get_provider mass prov = Some p →
  provider_async_get_library p mt = Ok items →
  Forall2 (item_resolves mass mt prov
             (default [] (cache w !! cache_key mt prov))) items C →
  (∀ id, id ∈ default [] (cache w !! cache_key mt prov) → id ∉ C →
     database_async_remove_from_library mass id mt prov = Ok tt) →
  ∃ evs w',
    async_library_sync mass mt prov w = (Ok tt, w')
    ∧ trace w' = trace w ++ evs
    ∧ addition_calls evs
      = concat (zip_with
                  (item_store_calls mt prov
                     (default [] (cache w !! cache_key mt prov))) items C).
Proof.
  intros Hfresh Hget Hset Hprov Hitems HC Hrem.
  destruct (async_library_sync_ok mass mt prov p items C w
              Hfresh Hget Hset Hprov Hitems HC Hrem) as (evs & Hrun & Hcalls).
  exists evs. eexists. split; [exact Hrun|]. split; [done|].
  rewrite addition_calls_store_calls, Hcalls.
  unfold addition_calls. rewrite List.filter_app.
  fold (addition_calls
          ((λ id, db_remove_from_library id mt prov)
             <$> filter (λ id, id ∉ C)
                   (default [] (cache w !! cache_key mt prov)))).
  rewrite addition_calls_removals, app_nil_r.
  generalize (default [] (cache w !! cache_key mt prov)). intros prev.
  clear. revert C. induction items as [|item items IH]; intros [|id C];
    simpl; try done.
  rewrite List.filter_app, IH. f_equal.
  destruct mt; simpl; try done. by case_bool_decide.
Qed.

(** C8, on the code.  Syncing the playlists of provider p6, whose catalog
    lists a playlist with [provider] attribute p9: the add-to-library call
    is made under p9, not under the synced provider id p6. *)
Theorem playlists_sync_adds_under_listed_provider :
  Demo.playlists_run.1 = Ok tt
  ∧ trace Demo.playlists_run.2
    = [signal_event [("p6", "playlists")];
       cache_async_get "library_playlists_p6";
       prov_get_library "p6" Playlist;
       music_get Playlist "pl1" "p6";
       db_add_to_library "pl1" Playlist "p9";
       music_get_playlist_tracks "pl1" "p6";
       cache_async_set "library_playlists_p6" ["pl1"];
       signal_event []].
Proof. by vm_compute. Qed.

(** * Absent providers *)

(** The per-provider sync checks the lookup: an unknown provider id is a
    silent no-op. *)
Lemma provider_sync_unknown_provider mass prov_id w :
  get_provider mass prov_id = None →
  async_music_provider_sync mass prov_id w = (Ok tt, w).
Proof. intros Hnone. unfold async_music_provider_sync. by rewrite Hnone. Qed.

(** The event handler does not: [provider.type] is read off None. *)
Lemma mass_event_unknown_provider mass EVENT_PROVIDER_REGISTERED prov_id w :
  get_provider mass prov_id = None →
  mass_event mass EVENT_PROVIDER_REGISTERED EVENT_PROVIDER_REGISTERED prov_id w
  = (Raise AttributeError, w).
Proof.
  intros Hnone. unfold mass_event. rewrite decide_True by done.
  by rewrite Hnone.
Qed.

Lemma mass_event_music_provider mass EVENT_PROVIDER_REGISTERED prov_id p w :
  get_provider mass prov_id = Some p →
  prov_type p = MUSIC_PROVIDER →
  mass_event mass EVENT_PROVIDER_REGISTERED EVENT_PROVIDER_REGISTERED prov_id w
  = (Ok tt, log w [add_job prov_id]).
Proof.
  intros Hp Hty. unfold mass_event. rewrite decide_True by done.
  rewrite Hp. simpl. unfold mbind, M_bind, mret, M_ret.
  by rewrite decide_True.
Qed.

(** A decorated sync called directly for an unknown provider raises too,
    after the cache was read, and stays registered: AttributeError, unless
    the cache read itself raised. *)
Lemma sync_unknown_provider mass mt prov w :
  (prov, sync_desc mt) ∉ running_sync_jobs w →
  get_provider mass prov = None →
  async_library_sync mass mt prov w
  = (Raise (default AttributeError (cache_get_raises mass (cache_key mt prov))),
     log (registered w (prov, sync_desc mt))
       [cache_async_get (cache_key mt prov)]).
Proof.
  intros Hfresh Hnone. rewrite async_library_sync_unfold.
  apply sync_task_raise; [done|].
  destruct (sync_body_skeleton mass mt prov) as (body & -> & _).
  unfold sync_skeleton.
  destruct (cache_get_raises mass (cache_key mt prov)) as [e|] eqn:Hget; simpl.
  - by rewrite (bind_raise _ _ _ _ _ (cache_get_raise mass _ _ _ _ Hget)).
  - rewrite (bind_ok _ _ _ _ _ (cache_get_log mass _ _ _ Hget)).
    by rewrite Hnone.
Qed.

(** C9, on the code.  The provider-registered event for a provider id
    that [get_provider] does not know: the handler raises AttributeError. *)
Theorem mass_event_absent_provider_raises :
  get_provider Demo.mass1 "ghost" = None
  ∧ mass_event Demo.mass1 "provider registered" "provider registered" "ghost"
      Demo.empty_world
    = (Raise AttributeError, Demo.empty_world)
  ∧ async_music_provider_sync Demo.mass1 "ghost" Demo.empty_world
    = (Ok tt, Demo.empty_world).
Proof. by vm_compute. Qed.

(** * The order of the syncs of one provider *)

Lemma bind_ret_l {A B} (a : A) (f : A → M B) w : (mret a ≫= f) w = f a w.
Proof. reflexivity. Qed.

Lemma bind_ret_r (m : M unit) w : (m ≫= λ s, mret s) w = m w.
Proof. unfold mbind, M_bind. by destruct (m w) as [[[]|e] w']. Qed.

Lemma bind_ext {A B} (m : M A) (f g : A → M B) w :
  (∀ a w', f a w' = g a w') → (m ≫= f) w = (m ≫= g) w.
Proof.
  intros Hfg. unfold mbind, M_bind. destruct (m w) as [[a|e] w']; [|done].
  apply Hfg.
Qed.

(** The full sync is the sequence of the decorated syncs of the supported
    media types, in the order album, track, artist, playlist, radio. *)
Lemma provider_sync_unfold mass prov_id w :
  async_music_provider_sync mass prov_id w
  = spec_full_sync [Album; Track; Artist; Playlist; Radio] mass prov_id w.
Proof.
  unfold async_music_provider_sync, spec_full_sync.
  destruct (get_provider mass prov_id) as [provider|]; [|done].
  simpl.
  destruct (bool_decide (Album ∈ supported_mediatypes provider));
  destruct (bool_decide (Track ∈ supported_mediatypes provider));
  destruct (bool_decide (Artist ∈ supported_mediatypes provider));
  destruct (bool_decide (Playlist ∈ supported_mediatypes provider));
  destruct (bool_decide (Radio ∈ supported_mediatypes provider));
  simpl;
  repeat first
    [ reflexivity
    | rewrite bind_ret_l
    | by rewrite bind_ret_r
    | apply bind_ext; intros [] ? ].
Qed.

(** Syncs run one after the other list their catalogs in that order; a
    sync that raises ends the sequence. *)
Lemma syncs_in_order_listings mass prov (mts : list MediaType) w :
  (∀ mt, (prov, sync_desc mt) ∉ running_sync_jobs w) →
  ∃ evs,
    trace (for_each mts (λ mt _, async_library_sync mass mt prov) tt w).2
    = trace w ++ evs
    ∧ listing_calls evs
      `prefix_of` mts ≫= listing_of (get_provider mass prov)
    ∧ ((for_each mts (λ mt _, async_library_sync mass mt prov) tt w).1 = Ok tt
       → listing_calls evs = mts ≫= listing_of (get_provider mass prov)).
Proof.
  revert w. induction mts as [|mt mts IH]; intros w Hfresh.
  - exists []. simpl. by rewrite app_nil_r.
  - destruct (async_library_sync_outcome mass mt prov w (Hfresh mt))
      as (r & evs1 & cache' & Hrun & _ & Hr).
    assert (∀ tail, Forall (λ ev, is_signal ev = true) tail →
              listing_calls
                ([signal_event (running_sync_jobs w ++ [(prov, sync_desc mt)])]
                 ++ evs1 ++ tail)
              = listing_calls evs1) as Hsig.
    { intros tail Htail. unfold listing_calls. simpl.
      rewrite List.filter_app.
      assert (List.filter is_listing tail = []) as ->;
        [|by rewrite app_nil_r].
      induction Htail as [|ev tail Hev _ IHt]; [done|].
      simpl. rewrite IHt. by destruct ev. }
    destruct r as [[]|e].
    + destruct Hr as [_ Hlist].
      simpl. rewrite (bind_ok _ _ _ _ _ Hrun).
      match goal with
      | |- context [for_each mts _ _ ?w1] =>
          destruct (IH w1 Hfresh) as (evs2 & Htrace & Hprefix & Hall)
      end.
      exists (([signal_event (running_sync_jobs w ++ [(prov, sync_desc mt)])]
               ++ evs1 ++ [signal_event (running_sync_jobs w)]) ++ evs2).
      rewrite Htrace.
      split; [simpl; by rewrite <- !app_assoc; simpl; rewrite <- !app_assoc|].
      unfold listing_calls in *.
      rewrite List.filter_app,
        (Hsig [signal_event (running_sync_jobs w)]) by (by repeat constructor).
      rewrite Hlist. split.
      * by apply prefix_app.
      * intros Hres. by rewrite Hall.
    + destruct Hr as [Hprefix _].
      simpl. rewrite (bind_raise _ _ _ _ _ Hrun).
      exists ([signal_event (running_sync_jobs w ++ [(prov, sync_desc mt)])]
              ++ evs1 ++ []).
      split; [done|]. split; [|done].
      rewrite (Hsig []) by constructor.
      by apply prefix_app_r.
Qed.

(** C5, as the code has it.  The full sync of a provider runs the
    decorated syncs of exactly the media types the provider declares
    support for, in the fixed order album, track, artist, playlist, radio;
    for an unknown provider it does nothing.  So, when no sync of the
    provider is registered, the catalogs it lists are those of the
    supported media types in that order: all of them when the full sync
    returns, the first ones when one of the syncs raises. *)
Theorem provider_sync_order mass provider_id w :
  async_music_provider_sync mass provider_id w
  = spec_full_sync [Album; Track; Artist; Playlist; Radio] mass provider_id w
  ∧ (get_provider mass provider_id = None →
     async_music_provider_sync mass provider_id w = (Ok tt, w))
  ∧ ∀ provider,
      get_provider mass provider_id = Some provider →
      (∀ mt, (provider_id, sync_desc mt) ∉ running_sync_jobs w) →
      ∃ evs,
        trace (async_music_provider_sync mass provider_id w).2 = trace w ++ evs
        ∧ listing_calls evs
          `prefix_of`
            prov_get_library (prov_id provider)
              <$> List.filter
                    (λ mt, bool_decide (mt ∈ supported_mediatypes provider))
                    [Album; Track; Artist; Playlist; Radio]
        ∧ ((async_music_provider_sync mass provider_id w).1 = Ok tt →
           listing_calls evs
           = prov_get_library (prov_id provider)
               <$> List.filter
                     (λ mt, bool_decide (mt ∈ supported_mediatypes provider))
                     [Album; Track; Artist; Playlist; Radio]).
Proof.
  split; [apply provider_sync_unfold|].
  split; [apply provider_sync_unknown_provider|].
  intros provider Hprov Hfresh. rewrite provider_sync_unfold.
  unfold spec_full_sync. rewrite Hprov.
  destruct (syncs_in_order_listings mass provider_id
              (List.filter
                 (λ mt, bool_decide (mt ∈ supported_mediatypes provider))
                 [Album; Track; Artist; Playlist; Radio]) w Hfresh)
    as (evs & Htrace & Hprefix & Hall).
  rewrite Hprov in Hprefix, Hall.
  assert (∀ mts : list MediaType,
            mts ≫= listing_of (Some provider)
            = prov_get_library (prov_id provider) <$> mts) as Hbind.
  { induction mts as [|mt mts IH]; [done|]. simpl. by f_equal. }
  rewrite Hbind in Hprefix, Hall. by exists evs.
Qed.

(** p1 supports artists and albums: the album catalog is listed, then the
    artist catalog. *)
Lemma provider_sync_order_witness :
  ∃ evs,
    trace Demo.full_sync_run.2 = evs
    ∧ listing_calls evs
      = [prov_get_library "p1" Album; prov_get_library "p1" Artist].
Proof.
  destruct (provider_sync_order Demo.mass1 "p1" Demo.empty_world)
    as (_ & _ & Horder).
  destruct (Horder Demo.p1 eq_refl) as (evs & Htrace & _ & Hall).
  - intros mt. apply not_elem_of_nil.
  - exists evs. split; [exact Htrace|]. apply Hall. by vm_compute.
Defined.

(** C5 as stated fails: for a provider that supports artists and albums
    the album catalog is listed, and the album sync done, before the
    artist sync starts; running the syncs artist-first gives another
    trace. *)
Lemma provider_sync_not_artist_first :
  Demo.full_sync_run.1 = Ok tt
  ∧ listing_calls (trace Demo.full_sync_run.2)
    = [prov_get_library "p1" Album; prov_get_library "p1" Artist]
  ∧ Demo.full_sync_run
    ≠ spec_full_sync [Artist; Album; Track; Playlist; Radio]
        Demo.mass1 "p1" Demo.empty_world.
Proof. split; [|split]; by vm_compute. Qed.

(** * Playlist tracks *)

(** ** Sorting the versions of a track *)

Lemma insert_by_quality_perm x l : insert_by_quality x l ≡ₚ x :: l.
Proof.
  induction l as [|y l IH]; simpl; [done|].
  destruct (pr_quality y <=? pr_quality x)%Z; [done|].
  by rewrite IH, Permutation_swap.
Qed.

Lemma sorted_by_quality_perm l : sorted_by_quality l ≡ₚ l.
Proof.
  induction l as [|x l IH]; simpl; [done|].
  by rewrite insert_by_quality_perm, IH.
Qed.

Lemma insert_by_quality_sorted x l :
  StronglySorted better l → StronglySorted better (insert_by_quality x l).
Proof.
  induction l as [|y l IH]; simpl; intros Hs.
  - by repeat constructor.
  - apply StronglySorted_cons in Hs as [Hy Hs].
    destruct (pr_quality y <=? pr_quality x)%Z eqn:Hle.
    + apply Z.leb_le in Hle. apply StronglySorted_cons. split.
      * constructor; [exact Hle|].
        eapply Forall_impl; [exact Hy|]. unfold better. intros; simpl in *; lia.
      * by apply StronglySorted_cons.
    + apply Z.leb_gt in Hle. apply StronglySorted_cons. split; [|by apply IH].
      rewrite insert_by_quality_perm. constructor; [|done].
      unfold better. lia.
Qed.

Lemma sorted_by_quality_sorted l : StronglySorted better (sorted_by_quality l).
Proof.
  induction l as [|x l IH]; simpl; [constructor|].
  by apply insert_by_quality_sorted.
Qed.

(** Equal qualities keep their order: the sort is stable. *)
Example sorted_by_quality_stable :
  sorted_by_quality
    [ {| pr_provider := "a"; pr_item_id := "1"; pr_quality := 5 |};
      {| pr_provider := "b"; pr_item_id := "2"; pr_quality := 7 |};
      {| pr_provider := "c"; pr_item_id := "3"; pr_quality := 5 |};
      {| pr_provider := "d"; pr_item_id := "4"; pr_quality := 7 |} ]
  = [ {| pr_provider := "b"; pr_item_id := "2"; pr_quality := 7 |};
      {| pr_provider := "d"; pr_item_id := "4"; pr_quality := 7 |};
      {| pr_provider := "a"; pr_item_id := "1"; pr_quality := 5 |};
      {| pr_provider := "c"; pr_item_id := "3"; pr_quality := 5 |} ].
Proof. reflexivity. Qed.

(** The first version a predicate accepts in a sorted list is at least as
    good as every version it accepts. *)
Lemma first_accepted_is_best (P : MediaItemProviderId → Prop)
    `{∀ v, Decision (P v)} l v :
  StronglySorted better l →
  head (filter P l) = Some v →
  v ∈ l ∧ P v ∧ ∀ v', v' ∈ l → P v' → better v v'.
Proof.
  induction l as [|x l IH]; [done|].
  intros [Hx Hs]%StronglySorted_cons. rewrite filter_cons.
  destruct (decide (P x)) as [HPx|HPx]; simpl.
  - intros [= ->]. split; [apply list_elem_of_here|]. split; [done|].
    intros v' [->|Hv']%elem_of_cons _; [unfold better; lia|].
    by eapply Forall_forall in Hx.
  - intros Hhead. destruct (IH Hs Hhead) as (Hin & HPv & Hbest).
    split; [by apply list_elem_of_further|]. split; [done|].
    intros v' [->|Hv']%elem_of_cons HPv'; [done|]. by apply Hbest.
Qed.

(** On a playlist of any provider but "file": the first version on the
    playlist's provider. *)
Lemma pick_track_version_same_provider playlist_provider versions :
  playlist_provider ≠ "file" →
  pick_track_version playlist_provider versions
  = pr_item_id
      <$> head (filter (λ v, pr_provider v = playlist_provider) versions).
Proof.
  intros Hfile. induction versions as [|v versions IH]; simpl; [done|].
  rewrite filter_cons. destruct (decide (pr_provider v = playlist_provider)).
  - done.
  - by rewrite decide_False.
Qed.

(** On a "file" playlist: only the first version is looked at. *)
Lemma pick_track_version_file versions :
  pick_track_version "file" versions
  = (λ v, if decide (pr_provider v = "file") then pr_item_id v
          else pr_provider v +:+ "://" +:+ pr_item_id v) <$> head versions.
Proof. destruct versions as [|v versions]; simpl; [done|]. by case_decide. Qed.

Lemma track_ids_to_add_of_omap cur playlist_provider tracks :
  track_ids_to_add_of cur playlist_provider tracks
  = omap (λ track,
            if already_exists cur track then None
            else track_id_to_add playlist_provider track) tracks.
Proof.
  unfold track_ids_to_add_of.
  assert (∀ acc,
    fold_left (λ track_ids_to_add track,
      if already_exists cur track then track_ids_to_add
      else
        match track_id_to_add playlist_provider track with
        | Some id => track_ids_to_add ++ [id]
        | None => track_ids_to_add
        end) tracks acc
    = acc ++ omap (λ track,
                     if already_exists cur track then None
                     else track_id_to_add playlist_provider track) tracks)
    as Hgen; [|by rewrite Hgen].
  induction tracks as [|track tracks IH]; intros acc; simpl.
  - by rewrite app_nil_r.
  - rewrite IH. destruct (already_exists cur track); [done|].
    destruct (track_id_to_add playlist_provider track); [|done].
    by rewrite <- app_assoc.
Qed.

(** ** Adding tracks *)

(** The add that goes through: the checksum is written, then the
    provider is handed the queued ids. *)
Lemma add_playlist_tracks_ok mass db_playlist_id tracks w
    playlist playlist_prov rest items prov r :
  music_async_get mass Playlist db_playlist_id "database" = Ok (Some playlist) →
  is_editable playlist = true →
  provider_ids playlist = playlist_prov :: rest →
  music_async_get_playlist_tracks mass (pr_item_id playlist_prov)
    (pr_provider playlist_prov) = Ok items →
  track_ids_to_add_of (cur_playlist_track_ids_of items)
    (pr_provider playlist_prov) tracks ≠ [] →
  (∀ stamp, database_async_update_playlist mass (item_id playlist)
              "checksum" stamp = Ok tt) →
  get_provider mass (pr_provider playlist_prov) = Some prov →
  provider_async_add_playlist_tracks prov (pr_item_id playlist_prov)
    (track_ids_to_add_of (cur_playlist_track_ids_of items)
       (pr_provider playlist_prov) tracks) = Ok r →
  ∃ stamp,
    async_add_playlist_tracks mass db_playlist_id tracks w
    = (Ok (PyBool r),
       log w [music_get Playlist db_playlist_id "database";
              music_get_playlist_tracks (pr_item_id playlist_prov)
                (pr_provider playlist_prov);
              db_update_playlist (item_id playlist) "checksum" stamp;
              prov_add_playlist_tracks (prov_id prov)
                (pr_item_id playlist_prov)
                (track_ids_to_add_of (cur_playlist_track_ids_of items)
                   (pr_provider playlist_prov) tracks)]).
Proof.
  intros Hget Hed Hprovs Hitems Hne Hupd Hprov Hadd.
  unfold async_add_playlist_tracks, music_get_item, first_item, now, prov_call,
    mbind, M_bind, mret, M_ret, call, attr. simpl.
  rewrite Hget, Hed, Hprovs. simpl. rewrite Hitems.
  destruct (track_ids_to_add_of _ _ tracks) as [|id ids] eqn:Hids; [done|].
  rewrite Hupd, Hprov. simpl. rewrite Hadd.
  eexists. unfold log. simpl. rewrite <- !app_assoc. simpl. reflexivity.
Qed.

(** C7, as the code has it.  What is queued for a candidate track that is
    not a duplicate.  On a playlist whose provider is not "file": the item
    id of a highest-quality version among the track's versions on the
    playlist's provider, and nothing when the track has no version there.
    On a "file" playlist only the track's highest-quality version counts:
    its item id when that version is on "file", and else the URI
    <provider>://<item_id> of that version; nothing when the track has no
    versions.  The ids queued are those of the candidates that are not
    duplicates, in track order. *)
Theorem add_tracks_version_choice playlist_provider :
  (∀ track,
     playlist_provider ≠ "file" →
     match track_id_to_add playlist_provider track with
     | Some id =>
         ∃ v, v ∈ provider_ids track
              ∧ pr_provider v = playlist_provider
              ∧ id = pr_item_id v
              ∧ ∀ v', v' ∈ provider_ids track →
                      pr_provider v' = playlist_provider → better v v'
     | None => ∀ v, v ∈ provider_ids track → pr_provider v ≠ playlist_provider
     end)
  ∧ (∀ track,
       playlist_provider = "file" →
       match track_id_to_add playlist_provider track with
       | Some id =>
           ∃ best, best ∈ provider_ids track
                   ∧ (∀ v', v' ∈ provider_ids track → better best v')
                   ∧ id = if decide (pr_provider best = "file")
                          then pr_item_id best
                          else pr_provider best +:+ "://" +:+ pr_item_id best
       | None => provider_ids track = []
       end)
  ∧ (∀ cur tracks,
       track_ids_to_add_of cur playlist_provider tracks
       = omap (λ track,
                 if already_exists cur track then None
                 else track_id_to_add playlist_provider track) tracks).
Proof.
  split; [|split].
  - intros track Hfile. unfold track_id_to_add.
    rewrite pick_track_version_same_provider by done.
    destruct (head (filter (λ v, pr_provider v = playlist_provider)
                      (sorted_by_quality (provider_ids track))))
      as [v|] eqn:Hhead; simpl.
    + destruct (first_accepted_is_best _ _ _
                  (sorted_by_quality_sorted (provider_ids track)) Hhead)
        as (Hin & HP & Hbest).
      exists v. rewrite sorted_by_quality_perm in Hin.
      split; [done|]. split; [done|]. split; [done|].
      intros v' Hv' HP'. apply Hbest; [|done].
      by rewrite sorted_by_quality_perm.
    + intros v Hv HP. apply head_None in Hhead.
      assert (v ∈ filter (λ v, pr_provider v = playlist_provider)
                    (sorted_by_quality (provider_ids track))) as Hin.
      { apply list_elem_of_filter. split; [done|].
        by rewrite sorted_by_quality_perm. }
      rewrite Hhead in Hin. by apply elem_of_nil in Hin.
  - intros track ->. unfold track_id_to_add.
    rewrite pick_track_version_file.
    pose proof (sorted_by_quality_sorted (provider_ids track)) as Hs.
    pose proof (sorted_by_quality_perm (provider_ids track)) as Hperm.
    destruct (sorted_by_quality (provider_ids track)) as [|best rest]; simpl.
    + by apply Permutation_nil in Hperm.
    + exists best. apply StronglySorted_cons in Hs as [Hbest _].
      split; [rewrite <- Hperm; apply list_elem_of_here|]. split; [|done].
      intros v'. rewrite <- Hperm. intros [->|Hv']%elem_of_cons.
      * unfold better. lia.
      * by eapply Forall_forall in Hbest.
  - intros cur tracks. apply track_ids_to_add_of_omap.
Qed.

Lemma add_tracks_version_choice_witness :
  track_id_to_add "spotify" Demo.track_on_spotify_twice = Some "s3"
  ∧ (∃ v, v ∈ provider_ids Demo.track_on_spotify_twice
          ∧ pr_provider v = "spotify"
          ∧ "s3" = pr_item_id v
          ∧ ∀ v', v' ∈ provider_ids Demo.track_on_spotify_twice →
                  pr_provider v' = "spotify" → better v v')
  ∧ track_id_to_add "file" Demo.track_on_spotify_twice = Some "qobuz://q2"
  ∧ (∃ best, best ∈ provider_ids Demo.track_on_spotify_twice
             ∧ (∀ v', v' ∈ provider_ids Demo.track_on_spotify_twice →
                      better best v')
             ∧ "qobuz://q2"
               = if decide (pr_provider best = "file") then pr_item_id best
                 else pr_provider best +:+ "://" +:+ pr_item_id best).
Proof.
  destruct (add_tracks_version_choice "spotify") as (Hsame & _ & _).
  destruct (add_tracks_version_choice "file") as (_ & Hfile & _).
  specialize (Hsame Demo.track_on_spotify_twice ltac:(done)).
  specialize (Hfile Demo.track_on_spotify_twice eq_refl).
  assert (track_id_to_add "spotify" Demo.track_on_spotify_twice = Some "s3")
    as E1 by reflexivity.
  assert (track_id_to_add "file" Demo.track_on_spotify_twice
          = Some "qobuz://q2") as E2 by reflexivity.
  rewrite E1 in Hsame. rewrite E2 in Hfile. done.
Defined.

(** C7 as stated fails: the playlist lives on "file" and the track has a
    version on "file", yet the URI of its high-quality spotify version is
    what the provider is handed. *)
Lemma add_tracks_file_playlist_prefers_best_version :
  {| pr_provider := "file"; pr_item_id := "f1"; pr_quality := 1 |}
    ∈ provider_ids Demo.track_on_file_and_spotify
  ∧ track_id_to_add "file" Demo.track_on_file_and_spotify
    = Some "spotify://s1"
  ∧ async_add_playlist_tracks (Demo.mass_with_playlist "file" true []) "10"
      [Demo.track_on_file_and_spotify] Demo.empty_world
    = (Ok (PyBool true),
       log Demo.empty_world
         [music_get Playlist "10" "database";
          music_get_playlist_tracks "pl.m3u" "file";
          db_update_playlist "10" "checksum" "t";
          prov_add_playlist_tracks "file" "pl.m3u" ["spotify://s1"]]).
Proof.
  split; [apply list_elem_of_here|]. split; by vm_compute.
Qed.

(** ** Duplicates *)

Lemma elem_of_cur_playlist_track_ids items id :
  id ∈ cur_playlist_track_ids_of items ↔ appears_in_playlist items id.
Proof.
  unfold cur_playlist_track_ids_of, appears_in_playlist.
  assert (∀ acc,
    id ∈ fold_left (λ cur_playlist_track_ids item,
           (cur_playlist_track_ids ++ [item_id item])
             ++ map pr_item_id (provider_ids item)) items acc
    ↔ id ∈ acc
      ∨ ∃ item, item ∈ items
                ∧ (id = item_id item
                   ∨ ∃ v, v ∈ provider_ids item ∧ id = pr_item_id v))
    as Hgen.
  { induction items as [|item items IH]; intros acc; simpl.
    - split; [by left|]. intros [?|(item & Hin & _)]; [done|].
      by apply elem_of_nil in Hin.
    - rewrite IH, !elem_of_app, list_elem_of_singleton.
      change (map pr_item_id (provider_ids item))
        with (pr_item_id <$> provider_ids item).
      rewrite list_elem_of_fmap. split.
      + intros [[[?| ->]|(v & -> & Hv)]|(item' & Hin & Hid)].
        * by left.
        * right. exists item. split; [apply list_elem_of_here|]. by left.
        * right. exists item. split; [apply list_elem_of_here|].
          right. by exists v.
        * right. exists item'. split; [by apply list_elem_of_further|done].
      + intros [?|(item' & [->|Hin]%elem_of_cons & Hid)].
        * by left; left; left.
        * destruct Hid as [->|(v & Hv & ->)].
          -- by left; left; right.
          -- left; right. by exists v.
        * right. by exists item'. }
  rewrite Hgen. split; [|by right]. intros [Hnil|?]; [|done].
  by apply elem_of_nil in Hnil.
Qed.

Lemma already_exists_spec cur track :
  already_exists cur track = true
  ↔ item_id track ∈ cur ∨ ∃ v, v ∈ provider_ids track ∧ pr_item_id v ∈ cur.
Proof.
  unfold already_exists.
  assert (∀ b,
    fold_left (λ already_exists track_prov,
      if bool_decide (pr_item_id track_prov ∈ cur) then true
      else already_exists) (provider_ids track) b = true
    ↔ b = true ∨ ∃ v, v ∈ provider_ids track ∧ pr_item_id v ∈ cur) as Hgen.
  { induction (provider_ids track) as [|v l IH]; intros b; simpl.
    - split; [by left|]. intros [?|(v & Hin & _)]; [done|].
      by apply elem_of_nil in Hin.
    - rewrite IH. case_bool_decide as Hv; split.
      + intros _. right. exists v. split; [apply list_elem_of_here|done].
      + by left.
      + intros [?|(v' & Hin & Hv')]; [by left|].
        right. exists v'. split; [by apply list_elem_of_further|done].
      + intros [?|(v' & [->|Hin]%elem_of_cons & Hv')]; [by left|done|].
        right. by exists v'. }
  rewrite Hgen, bool_decide_eq_true. done.
Qed.

Lemma already_exists_duplicate existing track :
  already_exists (cur_playlist_track_ids_of existing) track = true
  ↔ is_duplicate existing track.
Proof.
  rewrite already_exists_spec. unfold is_duplicate.
  rewrite elem_of_cur_playlist_track_ids.
  by setoid_rewrite elem_of_cur_playlist_track_ids.
Qed.

Lemma nothing_to_add existing playlist_provider tracks :
  Forall (is_duplicate existing) tracks →
  track_ids_to_add_of (cur_playlist_track_ids_of existing) playlist_provider
    tracks = [].
Proof.
  intros Hdup. rewrite track_ids_to_add_of_omap.
  induction Hdup as [|track tracks Htrack _ IH]; simpl; [done|].
  apply already_exists_duplicate in Htrack. by rewrite Htrack.
Qed.

(** C6.  addTracks returns False, and makes no provider-side call and no
    checksum update (no store call at all), whenever the playlist is
    missing, the playlist is not editable, or every candidate track's id
    or one of its version ids appears among the ids and version ids of the
    playlist's existing tracks. *)
Theorem add_tracks_refused mass db_playlist_id tracks w :
  add_refused mass db_playlist_id tracks →
  ∃ evs,
    async_add_playlist_tracks mass db_playlist_id tracks w
    = (Ok (PyBool false), log w evs)
    ∧ Forall (λ ev, is_provider_call ev = false ∧ is_store_call ev = false)
        evs.
Proof.
  intros [Hmissing
         | [(playlist & Hget & Hed)
           | (playlist & playlist_prov & rest & existing
              & Hget & Hed & Hprovs & Hexisting & Hdup)]];
    unfold async_add_playlist_tracks, music_get_item, first_item, now, prov_call,
      mbind, M_bind, mret, M_ret, call, attr; simpl.
  - rewrite Hmissing.
    exists [music_get Playlist db_playlist_id "database"].
    split; [done|]. by repeat constructor.
  - rewrite Hget, Hed. simpl.
    exists [music_get Playlist db_playlist_id "database"].
    split; [done|]. by repeat constructor.
  - rewrite Hget, Hed, Hprovs. simpl. rewrite Hexisting.
    rewrite (nothing_to_add existing _ tracks Hdup).
    exists [music_get Playlist db_playlist_id "database";
            music_get_playlist_tracks (pr_item_id playlist_prov)
              (pr_provider playlist_prov)].
    split.
    + unfold log. simpl. by rewrite <- app_assoc.
    + by repeat constructor.
Qed.

(** The candidate has a version s3, and s3 is a version id of a track of
    the playlist: nothing is added. *)
Lemma add_tracks_refused_witness :
  ∃ evs,
    async_add_playlist_tracks
      (Demo.mass_with_playlist "spotify" true [Demo.existing_track]) "10"
      [Demo.track_on_spotify_twice] Demo.empty_world
    = (Ok (PyBool false), log Demo.empty_world evs)
    ∧ Forall (λ ev, is_provider_call ev = false ∧ is_store_call ev = false)
        evs.
Proof.
  apply add_tracks_refused. right. right.
  exists (Demo.playlist_on "spotify"),
    {| pr_provider := "spotify"; pr_item_id := "pl.m3u"; pr_quality := 0 |},
    [], [Demo.existing_track].
  repeat split; try reflexivity.
  constructor; [|constructor]. right.
  exists {| pr_provider := "spotify"; pr_item_id := "s3"; pr_quality := 7 |}.
  split; [by do 2 apply list_elem_of_further; apply list_elem_of_here|].
  exists Demo.existing_track. split; [apply list_elem_of_here|].
  right. eexists. split; [apply list_elem_of_here|reflexivity].
Defined.

(** ** Removing tracks *)

Lemma nothing_to_remove playlist_provider tracks :
  (∀ track v, track ∈ tracks → v ∈ provider_ids track →
     pr_provider v ≠ playlist_provider) →
  track_ids_to_remove_of playlist_provider tracks = [].
Proof.
  unfold track_ids_to_remove_of. intros Hnone.
  assert (∀ acc : list string,
    fold_left (λ track_ids_to_remove track,
      fold_left (λ track_ids_to_remove track_provider,
        if decide (pr_provider track_provider = playlist_provider)
        then track_ids_to_remove ++ [pr_item_id track_provider]
        else track_ids_to_remove) (provider_ids track) track_ids_to_remove)
      tracks acc = acc) as Hgen; [|apply Hgen].
  induction tracks as [|track tracks IH]; intros acc; simpl; [done|].
  assert (fold_left (λ track_ids_to_remove track_provider,
            if decide (pr_provider track_provider = playlist_provider)
            then track_ids_to_remove ++ [pr_item_id track_provider]
            else track_ids_to_remove) (provider_ids track) acc = acc) as ->.
  { assert (∀ v, v ∈ provider_ids track → pr_provider v ≠ playlist_provider)
      as Hvs by (intros v; apply Hnone, list_elem_of_here).
    clear IH Hnone. induction (provider_ids track) as [|v vs IHv]; simpl; [done|].
    rewrite decide_False by apply Hvs, list_elem_of_here.
    apply IHv. intros v' ?. by apply Hvs, list_elem_of_further. }
  apply IH. intros track' v ?. by apply Hnone, list_elem_of_further.
Qed.

(** C10.  removeTracks on an existing, editable playlist, when none of the
    given tracks has a version on the playlist's provider: the result is
    None, the only call made is the playlist lookup, so no provider is
    contacted and the checksum is not written.  For a missing or a
    non-editable playlist the result is False, which is another value. *)
Theorem remove_tracks_nothing_to_remove mass db_playlist_id tracks w :
  (∀ playlist prov_playlist rest,
     music_async_get mass Playlist db_playlist_id "database"
     = Ok (Some playlist) →
     is_editable playlist = true →
     provider_ids playlist = prov_playlist :: rest →
     (∀ track v, track ∈ tracks → v ∈ provider_ids track →
        pr_provider v ≠ pr_provider prov_playlist) →
     async_remove_playlist_tracks mass db_playlist_id tracks w
     = (Ok PyNone, log w [music_get Playlist db_playlist_id "database"]))
  ∧ (music_async_get mass Playlist db_playlist_id "database" = Ok None
     ∨ (∃ playlist,
          music_async_get mass Playlist db_playlist_id "database"
          = Ok (Some playlist)
          ∧ is_editable playlist = false) →
     async_remove_playlist_tracks mass db_playlist_id tracks w
     = (Ok (PyBool false),
        log w [music_get Playlist db_playlist_id "database"]))
  ∧ PyNone ≠ PyBool false.
Proof.
  split; [|split; [|done]].
  - intros playlist prov_playlist rest Hget Hed Hprovs Hnone.
    unfold async_remove_playlist_tracks, music_get_item, first_item, now,
      prov_call, mbind, M_bind, mret, M_ret, call, attr; simpl.
    rewrite Hget, Hed, Hprovs. simpl.
    by rewrite (nothing_to_remove _ tracks Hnone).
  - intros [Hmissing | (playlist & Hget & Hed)];
      unfold async_remove_playlist_tracks, music_get_item, first_item, now,
        prov_call, mbind, M_bind, mret, M_ret, call, attr; simpl.
    + by rewrite Hmissing.
    + by rewrite Hget, Hed.
Qed.

(** A spotify playlist and a track known on qobuz only: None; the same
    call on a playlist that is not editable: False. *)
Lemma remove_tracks_nothing_to_remove_witness :
  async_remove_playlist_tracks (Demo.mass_with_playlist "spotify" true [])
    "10" [Demo.track_on_qobuz] Demo.empty_world
  = (Ok PyNone, log Demo.empty_world [music_get Playlist "10" "database"])
  ∧ async_remove_playlist_tracks (Demo.mass_with_playlist "spotify" false [])
      "10" [Demo.track_on_qobuz] Demo.empty_world
    = (Ok (PyBool false),
       log Demo.empty_world [music_get Playlist "10" "database"]).
Proof.
  split.
  - destruct (remove_tracks_nothing_to_remove
                (Demo.mass_with_playlist "spotify" true []) "10"
                [Demo.track_on_qobuz] Demo.empty_world) as (Hnone & _ & _).
    apply (Hnone (Demo.playlist_on "spotify")
             {| pr_provider := "spotify"; pr_item_id := "pl.m3u";
                pr_quality := 0 |} []); try reflexivity.
    intros track v ->%list_elem_of_singleton ->%list_elem_of_singleton.
    done.
  - destruct (remove_tracks_nothing_to_remove
                (Demo.mass_with_playlist "spotify" false []) "10"
                [Demo.track_on_qobuz] Demo.empty_world) as (_ & Hfalse & _).
    apply Hfalse. right. eexists. split; reflexivity.
Defined.

(** When a version is on the playlist's provider the removal goes
    through: checksum written, provider called. *)
Example remove_tracks_goes_through :
  async_remove_playlist_tracks (Demo.mass_with_playlist "spotify" true [])
    "10" [Demo.track_on_spotify_twice] Demo.empty_world
  = (Ok (PyBool true),
     log Demo.empty_world
       [music_get Playlist "10" "database";
        db_update_playlist "10" "checksum" "t";
        prov_remove_playlist_tracks "spotify" "pl.m3u" ["s2"; "s3"]]).
Proof. by vm_compute. Qed.


(** * Beyond the claims *)

(** ** The calls of a sync *)

Lemma body_event_not_signal mt prov prev evs :
  Forall (body_event mt prov prev) evs → List.filter is_signal evs = [].
Proof.
  induction 1 as [|ev evs Hev _ IH]; [done|].
  simpl. rewrite IH. by destruct ev.
Qed.

(** X1.  Whatever a decorated sync does, returning, raising or skipped,
    every call it makes is one of: a status signal, a read or write of its
    own cache key, the listing of the catalog of its media type, a call of
    its loop body, or the removal of a prior id for its own media type and
    provider.  So a provider is only ever asked for its catalog, no sync
    makes an update-playlist call (the checksum write of the playlist
    operations), and only the playlists sync makes an add-playlist call,
    which stores a playlist record. *)
Theorem sync_calls_only_its_own mass mt prov w :
  ∃ evs,
    trace (async_library_sync mass mt prov w).2 = trace w ++ evs
    ∧ Forall (λ ev, is_signal ev = true
                    ∨ body_event mt prov
                        (default [] (cache w !! cache_key mt prov)) ev) evs
    ∧ Forall (λ ev, is_provider_call ev = true → is_listing ev = true) evs
    ∧ Forall (λ ev, ∀ id field value,
                      ev ≠ db_update_playlist id field value) evs
    ∧ (mt ≠ Playlist → Forall (λ ev, ∀ it, ev ≠ db_add_playlist it) evs).
Proof.
  assert (∀ evs,
    Forall (λ ev, is_signal ev = true
                  ∨ body_event mt prov
                      (default [] (cache w !! cache_key mt prov)) ev) evs →
    Forall (λ ev, is_provider_call ev = true → is_listing ev = true) evs
    ∧ Forall (λ ev, ∀ id field value,
                      ev ≠ db_update_playlist id field value) evs
    ∧ (mt ≠ Playlist → Forall (λ ev, ∀ it, ev ≠ db_add_playlist it) evs))
    as Hcons.
  { intros evs Hevs. split; [|split; [|intros Hpl]];
      (eapply Forall_impl; [exact Hevs|]).
    - intros ev [Hs|Hb]; by destruct ev.
    - intros ev [Hs|Hb] id field value ->; done.
    - intros ev [Hs|Hb] it ->; done. }
  destruct (decide ((prov, sync_desc mt) ∈ running_sync_jobs w)) as [Hin|Hfresh].
  - exists []. rewrite async_library_sync_unfold, sync_task_skip by done.
    simpl. rewrite app_nil_r. split; [done|]. split; [done|]. by apply Hcons.
  - destruct (async_library_sync_outcome mass mt prov w Hfresh)
      as (r & evs & cache' & Hrun & HQ & _).
    eexists. rewrite Hrun. simpl. split; [reflexivity|].
    assert (Forall (λ ev, is_signal ev = true
                  ∨ body_event mt prov
                      (default [] (cache w !! cache_key mt prov)) ev)
              ([signal_event (running_sync_jobs w ++ [(prov, sync_desc mt)])]
               ++ evs
               ++ match r with
                  | Ok _ => [signal_event (running_sync_jobs w)]
                  | Raise _ => []
                  end)) as Hall.
    { apply Forall_app. split; [repeat constructor; by left|].
      apply Forall_app. split.
      - eapply Forall_impl; [exact HQ|]. by right.
      - destruct r; repeat constructor. }
    split; [exact Hall|]. by apply Hcons.
Qed.

Lemma list_remove_split (job : sync_job) (before after : list sync_job) :
  job ∉ before →
  list_remove job (before ++ job :: after) = Some (before ++ after).
Proof.
  induction before as [|j before IH]; simpl; intros Hnot.
  - by rewrite decide_True.
  - apply not_elem_of_cons in Hnot as [Hne Hnot].
    rewrite decide_False by done. by rewrite IH.
Qed.

(** X2.  The decorated sync is: enter, the body, leave.  On every state
    the event loop can reach from an empty running-jobs list: a sync that
    enters appends its job and publishes the running jobs, its job last;
    the body makes no status signal and leaves the running jobs alone;
    a body that raises ends the sync there, nothing more being published;
    and a run in flight that leaves takes its job out of the running jobs
    as they are at that moment and publishes what is left, the jobs that
    other runs registered in the meantime included. *)
Theorem sync_publishes_registry (s0 s : loop_state) mass mt prov :
  running_sync_jobs (world s0) = [] →
  Forall (λ i, i.2 = Pending) (invocations s0) →
  rtc loop_step s0 s →
  (∀ w, async_library_sync mass mt prov w
        = (sync_enter (sync_desc mt) prov ≫= λ entered : bool,
             if entered
             then (sync_body mass mt prov
                     ≫= λ _, sync_leave (sync_desc mt) prov)
             else (mret tt : M unit)) w)
  ∧ ((prov, sync_desc mt) ∉ running_sync_jobs (world s) →
     sync_enter (sync_desc mt) prov (world s)
     = (Ok true,
        {| running_sync_jobs :=
             running_sync_jobs (world s) ++ [(prov, sync_desc mt)];
           cache := cache (world s);
           trace :=
             trace (world s)
             ++ [signal_event
                   (running_sync_jobs (world s) ++ [(prov, sync_desc mt)])] |}))
  ∧ (∀ w, ∃ evs,
       running_sync_jobs (sync_body mass mt prov w).2 = running_sync_jobs w
       ∧ trace (sync_body mass mt prov w).2 = trace w ++ evs
       ∧ List.filter is_signal evs = [])
  ∧ (∀ w e w1,
       (prov, sync_desc mt) ∉ running_sync_jobs w →
       sync_body mass mt prov (registered w (prov, sync_desc mt))
       = (Raise e, w1) →
       async_library_sync mass mt prov w = (Raise e, w1))
  ∧ (((prov, sync_desc mt), InFlight) ∈ invocations s →
     ∃ before after,
       running_sync_jobs (world s) = before ++ (prov, sync_desc mt) :: after
       ∧ ((prov, sync_desc mt) ∉ before ++ after)
       ∧ sync_leave (sync_desc mt) prov (world s)
         = (Ok tt,
            {| running_sync_jobs := before ++ after;
               cache := cache (world s);
               trace :=
                 trace (world s) ++ [signal_event (before ++ after)] |})).
Proof.
  intros Hjobs Hpend Hsteps.
  destruct (loop_inv_reachable s0 s (loop_inv_initial s0 Hjobs Hpend) Hsteps)
    as [Hnd Hperm].
  split; [|split; [|split; [|split]]].
  - intros w. rewrite async_library_sync_unfold. apply sync_task_segments.
  - intros Hnot. rewrite sync_enter_spec.
    by rewrite bool_decide_eq_false_2.
  - intros w.
    destruct (sync_body_outcome mass mt prov w)
      as (r & evs & cache' & -> & HQ & _).
    exists evs. simpl. split; [done|]. split; [done|].
    by eapply body_event_not_signal.
  - intros w e w1 Hnot Hrun. rewrite async_library_sync_unfold.
    by apply sync_task_raise.
  - intros Hfl.
    assert ((prov, sync_desc mt) ∈ running_sync_jobs (world s)) as Hin.
    { rewrite Hperm. by apply in_flight_registered. }
    apply list_elem_of_split in Hin as (before & after & Heq).
    exists before, after. split; [done|].
    rewrite Heq in Hnd. apply NoDup_app in Hnd as (_ & Hdisj & Hnd2).
    apply NoDup_cons in Hnd2 as [Hafter _].
    assert ((prov, sync_desc mt) ∉ before) as Hbefore.
    { intros Hb. apply (Hdisj _ Hb), list_elem_of_here. }
    split.
    { intros [?|?]%elem_of_app; done. }
    unfold sync_leave, jobs_remove, signal_sync_status, get_jobs, mbind,
      M_bind, call.
    by rewrite Heq, list_remove_split.
Qed.

(** The artists syncs of p1 and of p2 are both in flight; the run of p1
    leaves: what it publishes is the job of p2, not the empty list the run
    of p1 found when it entered. *)
Lemma sync_publishes_registry_witness :
  rtc loop_step Demo.two_pairs_start Demo.two_pairs_in_flight
  ∧ sync_leave "artists" "p1" (world Demo.two_pairs_in_flight)
    = (Ok tt,
       {| running_sync_jobs := [("p2", "artists")];
          cache := ∅;
          trace := [signal_event [("p1", "artists")];
                    signal_event [("p1", "artists"); ("p2", "artists")];
                    signal_event [("p2", "artists")]] |}).
Proof.
  assert (rtc loop_step Demo.two_pairs_start Demo.two_pairs_in_flight)
    as Hsteps.
  { eapply rtc_l;
      [exact (step_enter Demo.empty_world
                (registered Demo.empty_world ("p1", "artists"))
                [] [(("p2", "artists"), Pending)] "p1" "artists" true
                eq_refl)|].
    eapply rtc_l; [|apply rtc_refl].
    exact (step_enter (registered Demo.empty_world ("p1", "artists"))
             (registered (registered Demo.empty_world ("p1", "artists"))
                ("p2", "artists"))
             [(("p1", "artists"), InFlight)] [] "p2" "artists" true
             eq_refl). }
  split; [exact Hsteps|].
  destruct (sync_publishes_registry Demo.two_pairs_start
              Demo.two_pairs_in_flight Demo.mass1 Artist "p1"
              eq_refl ltac:(repeat constructor) Hsteps)
    as (_ & _ & _ & _ & Hleave).
  destruct Hleave as (before & after & Heq & _ & Hrun);
    [apply list_elem_of_here|].
  destruct before as [|j before]; simpl in Heq.
  - injection Heq as <-. exact Hrun.
  - injection Heq as _ Heq. destruct before; simpl in Heq; [|].
    + by injection Heq.
    + injection Heq as _ Heq. by destruct before.
Defined.

(** ** Cache keys *)

Lemma cache_key_inj mt prov mt' prov' :
  cache_key mt prov = cache_key mt' prov' → mt = mt' ∧ prov = prov'.
Proof.
  unfold cache_key. destruct mt, mt'; simpl; intros Heq;
    by simplify_eq.
Qed.

(** X3.  The cache keys of different (media type, provider) pairs differ,
    and a decorated sync, whether it returns, raises or is skipped, leaves
    the prior ids of every other pair in the cache as they are. *)
Theorem sync_keeps_other_cache_keys mass mt prov mt' prov' w :
  (mt', prov') ≠ (mt, prov) →
  cache_key mt' prov' ≠ cache_key mt prov
  ∧ cache (async_library_sync mass mt prov w).2 !! cache_key mt' prov'
    = cache w !! cache_key mt' prov'.
Proof.
  intros Hne.
  assert (cache_key mt' prov' ≠ cache_key mt prov) as Hkey.
  { intros [-> ->]%cache_key_inj. by apply Hne. }
  split; [done|].
  destruct (decide ((prov, sync_desc mt) ∈ running_sync_jobs w)) as [Hin|Hfresh].
  - by rewrite async_library_sync_unfold, sync_task_skip.
  - destruct (async_library_sync_outcome mass mt prov w Hfresh)
      as (r & evs & cache' & -> & _ & Hr). simpl.
    destruct r as [[]|e].
    + destruct Hr as [[cur ->] _]. by rewrite lookup_insert_ne.
    + destruct Hr as [_ [(evs0 & cur & stored & _ & _ & ->) | [-> _]]];
        [|done].
      destruct stored; [by rewrite lookup_insert_ne|done].
Qed.

(** The artists sync of p1 leaves the prior albums of p1 alone. *)
Lemma sync_keeps_other_cache_keys_witness :
  cache (async_library_sync Demo.mass1 Artist "p1"
           (Demo.world_with "library_albums_p1" ["X"])).2
    !! "library_albums_p1"
  = Some ["X"].
Proof.
  destruct (sync_keeps_other_cache_keys Demo.mass1 Artist "p1" Album "p1"
              (Demo.world_with "library_albums_p1" ["X"])) as [_ Hkeep].
  - by intros [=].
  - etrans; [exact Hkeep|]. reflexivity.
Defined.

(** ** Running again, and running after a failure *)

(** X4.  A sync that finds in the cache the ids [C] its catalog resolves
    to (as after a run with the same catalog), the cache answering the
    read and the write, returns, makes no remove-from-library call and
    leaves the cache and the running jobs as they are; the tracks sync
    then makes no store call at all. *)
Theorem repeated_sync_is_quiet mass mt prov p items C w :
  (prov, sync_desc mt) ∉ running_sync_jobs w →
  cache_get_raises mass (cache_key mt prov) = None →
  cache_set_raises mass (cache_key mt prov) C = None →
  cache w !! cache_key mt prov = Some C →
  get_provider mass prov = Some p →
  provider_async_get_library p mt = Ok items →
  Forall2 (item_resolves mass mt prov C) items C →
  ∃ evs w',
    async_library_sync mass mt prov w = (Ok tt, w')
    ∧ trace w' = trace w ++ evs
    ∧ removal_calls evs = []
    ∧ cache w' = cache w
    ∧ running_sync_jobs w' = running_sync_jobs w
    ∧ (mt = Track → store_calls evs = []).
Proof.
  intros Hfresh Hget Hset Hcache Hprov Hitems HC.
  destruct (second_sync_run mass mt prov p items C w
              Hfresh Hget Hset Hcache Hprov Hitems HC)
    as (evs & Hrun & Hcalls & Htrack).
  exists evs. eexists. split; [exact Hrun|]. simpl.
  split; [done|]. split; [|done].
  rewrite removal_calls_store_calls, Hcalls. apply removal_calls_items.
Qed.

(** The artists of p1, synced once more after the first run. *)
Lemma repeated_sync_is_quiet_witness :
  ∃ evs w',
    Demo.artists_run2 = (Ok tt, w')
    ∧ trace w' = trace Demo.artists_run1.2 ++ evs
    ∧ removal_calls evs = []
    ∧ cache w' = cache Demo.artists_run1.2.
Proof.
  destruct (repeated_sync_is_quiet Demo.mass1 Artist "p1" Demo.p1
              [Demo.prov_item "p1" Artist "A"; Demo.prov_item "p1" Artist "C"]
              ["A"; "C"] Demo.artists_run1.2)
    as (evs & w' & Hrun & Htrace & Hrm & Hcache & _).
  - vm_compute. apply not_elem_of_nil.
  - reflexivity.
  - reflexivity.
  - by vm_compute.
  - reflexivity.
  - reflexivity.
  - repeat constructor; eexists _, _; repeat split; reflexivity.
  - by exists evs, w'.
Defined.

(** X5.  A decorated sync that raises leaves its job in the running jobs,
    and from then on, in every world with those running jobs, the same sync
    is skipped: it returns at once and does nothing. *)
Theorem failed_sync_blocks_retry mass mt prov w e w' :
  (prov, sync_desc mt) ∉ running_sync_jobs w →
  async_library_sync mass mt prov w = (Raise e, w') →
  (prov, sync_desc mt) ∈ running_sync_jobs w'
  ∧ ∀ w'', running_sync_jobs w'' = running_sync_jobs w' →
           async_library_sync mass mt prov w'' = (Ok tt, w'').
Proof.
  intros Hfresh Hrun.
  destruct (failed_sync_stays_registered mass mt prov w e w' Hfresh Hrun)
    as [Hjobs _].
  assert ((prov, sync_desc mt) ∈ running_sync_jobs w') as Hin.
  { rewrite Hjobs. apply elem_of_app. right. apply list_elem_of_here. }
  split; [done|]. intros w'' Hsame.
  rewrite async_library_sync_unfold. apply sync_task_skip. by rewrite Hsame.
Qed.

(** The artists sync of p4 fails on the catalog fetch; called again, it
    does nothing. *)
Lemma failed_sync_blocks_retry_witness :
  ("p4", "artists") ∈ running_sync_jobs Demo.fetch_fails_run.2
  ∧ async_library_sync Demo.mass4 Artist "p4" Demo.fetch_fails_run.2
    = (Ok tt, Demo.fetch_fails_run.2).
Proof.
  destruct (failed_sync_blocks_retry Demo.mass4 Artist "p4"
              (Demo.world_with "library_artists_p4" ["A"; "B"])
              (CollabError "fetch") Demo.fetch_fails_run.2)
    as [Hin Hskip].
  - apply not_elem_of_nil.
  - by vm_compute.
  - split; [exact Hin|]. by apply Hskip.
Defined.

(** X6.  A decorated sync called for a provider id that [get_provider]
    does not know raises AttributeError (or what the cache read raised,
    when that fails first): it has registered its job, which stays,
    published the running jobs and read its cache key; no provider is
    called, no store call is made and the cache is as before. *)
Theorem sync_of_unknown_provider_raises mass mt prov w :
  (prov, sync_desc mt) ∉ running_sync_jobs w →
  get_provider mass prov = None →
  async_library_sync mass mt prov w
  = (Raise (default AttributeError (cache_get_raises mass (cache_key mt prov))),
     {| running_sync_jobs := running_sync_jobs w ++ [(prov, sync_desc mt)];
        cache := cache w;
        trace :=
          trace w
          ++ [signal_event (running_sync_jobs w ++ [(prov, sync_desc mt)]);
              cache_async_get (cache_key mt prov)] |}).
Proof.
  intros Hfresh Hnone. rewrite (sync_unknown_provider _ _ _ _ Hfresh Hnone).
  unfold log, registered. simpl. by rewrite <- app_assoc.
Qed.

Lemma sync_of_unknown_provider_raises_witness :
  async_library_sync Demo.mass1 Radio "ghost" Demo.empty_world
  = (Raise AttributeError,
     {| running_sync_jobs := [("ghost", "radios")];
        cache := ∅;
        trace := [signal_event [("ghost", "radios")];
                  cache_async_get "library_radios_ghost"] |}).
Proof.
  apply (sync_of_unknown_provider_raises Demo.mass1 Radio "ghost"
           Demo.empty_world).
  - apply not_elem_of_nil.
  - reflexivity.
Defined.

(** ** What a returning sync adds *)

Lemma item_store_calls_zip mt prov prev (items : list MediaItem) (C : list string) :
  mt ≠ Playlist →
  length items = length C →
  concat (zip_with (item_store_calls mt prov prev) items C)
  = (λ id, db_add_to_library id mt prov)
      <$> (if decide (mt = Track) then filter (λ id, id ∉ prev) C else C).
Proof.
  intros Hpl. revert C. induction items as [|item items IH]; intros [|id C] Hlen;
    simpl in *; try done.
  - by destruct (decide (mt = Track)).
  - rewrite IH by congruence. destruct mt; simpl; try done.
    rewrite filter_cons. case_bool_decide.
    + by rewrite decide_True.
    + by rewrite decide_False by (by intros ?).
Qed.

(** X7.  In a sync run where every call answers, the cache read and
    write included, the run returns and the add-to-library calls of the
    artists, albums and radios syncs are one per current id, in listing
    order, prior ids included; those of the tracks sync are one per current
    id that is not a prior id.  All carry the media type and the provider
    id of the sync. *)
Theorem sync_additions_by_type mass mt prov p items C w :
  mt ≠ Playlist →
  (prov, sync_desc mt) ∉ running_sync_jobs w →
  cache_get_raises mass (cache_key mt prov) = None →
  cache_set_raises mass (cache_key mt prov) C = None →
  get_provider mass prov = Some p →
  provider_async_get_library p mt = Ok items →
  Forall2 (item_resolves mass mt prov
             (default [] (cache w !! cache_key mt prov))) items C →
  (∀ id, id ∈ default [] (cache w !! cache_key mt prov) → id ∉ C →
     database_async_remove_from_library mass id mt prov = Ok tt) →
  ∃ evs w',
    async_library_sync mass mt prov w = (Ok tt, w')
    ∧ trace w' = trace w ++ evs
    ∧ addition_calls evs
      = (λ id, db_add_to_library id mt prov)
          <$> (if decide (mt = Track)
               then filter (λ id, id ∉ default [] (cache w !! cache_key mt prov))
                      C
               else C).
Proof.
  intros Hpl Hfresh Hget Hset Hprov Hitems HC Hrem.
  destruct (sync_additions mass mt prov p items C w Hfresh Hget Hset Hprov
              Hitems HC Hrem)
    as (evs & w' & Hrun & Htrace & Hadd).
  exists evs, w'. split; [done|]. split; [done|].
  rewrite Hadd. apply item_store_calls_zip; [done|].
  by eapply Forall2_length.
Qed.

(** Tracks A and C listed, A being a prior id: only C is added. *)
Lemma sync_additions_by_type_witness :
  ∃ evs w',
    async_library_sync (Demo.mass_of [Demo.p1_tracks] Demo.lookup_all)
      Track "p1" (Demo.world_with "library_tracks_p1" ["A"; "B"])
    = (Ok tt, w')
    ∧ trace w' = evs
    ∧ addition_calls evs = [db_add_to_library "C" Track "p1"].
Proof.
  destruct (sync_additions_by_type
              (Demo.mass_of [Demo.p1_tracks] Demo.lookup_all) Track "p1"
              Demo.p1_tracks
              [Demo.prov_item "p1" Track "A"; Demo.prov_item "p1" Track "C"]
              ["A"; "C"] (Demo.world_with "library_tracks_p1" ["A"; "B"]))
    as (evs & w' & Hrun & Htrace & Hadd).
  - done.
  - apply not_elem_of_nil.
  - reflexivity.
  - reflexivity.
  - reflexivity.
  - reflexivity.
  - repeat constructor; eexists _, _; repeat split; reflexivity.
  - reflexivity.
  - exists evs, w'. split; [exact Hrun|]. split; [exact Htrace|].
    etrans; [exact Hadd|]. reflexivity.
Defined.

(** ** The periodic round *)

Lemma for_each_app {A S} (l1 l2 : list A) (body : A → S → M S) s w :
  for_each (l1 ++ l2) body s w
  = (for_each l1 body s ≫= for_each l2 body) w.
Proof.
  revert s w. induction l1 as [|x l1 IH]; intros s w; simpl; [done|].
  unfold mbind, M_bind. destruct (body x s w) as [[s'|e] w']; [|done].
  apply IH.
Qed.

(** X8.  One round of the periodic sync goes through the music providers
    in the order of [get_providers] and stops at the first provider whose
    sync raises: the exception ends the round, in the world that sync left,
    and the providers after it are not synced in this round. *)
Theorem providers_sync_stops_at_failure mass before p after w w1 e w2 :
  get_providers mass MUSIC_PROVIDER = before ++ p :: after →
  for_each before (λ prov _, async_music_provider_sync mass (prov_id prov))
    tt w = (Ok tt, w1) →
  async_music_provider_sync mass (prov_id p) w1 = (Raise e, w2) →
  async_music_providers_sync mass w = (Raise e, w2).
Proof.
  intros Hprovs Hbefore Hfail. unfold async_music_providers_sync.
  rewrite Hprovs, for_each_app, (bind_ok _ _ _ _ _ Hbefore). simpl.
  by rewrite (bind_raise _ _ _ _ _ Hfail).
Qed.

(** p4 comes first and fails: p1 is never asked for a catalog. *)
Lemma providers_sync_stops_at_failure_witness :
  Demo.round_run.1 = Raise (CollabError "fetch")
  ∧ listing_calls (trace Demo.round_run.2) = [prov_get_library "p4" Artist].
Proof.
  assert (Demo.round_run
          = (Raise (CollabError "fetch"),
             (async_music_provider_sync Demo.mass_p4_p1 "p4"
                Demo.empty_world).2)) as ->.
  { apply (providers_sync_stops_at_failure Demo.mass_p4_p1 [] Demo.p4
             [Demo.p1] Demo.empty_world Demo.empty_world).
    - reflexivity.
    - reflexivity.
    - by vm_compute. }
  split; [done|]. by vm_compute.
Defined.

(** ** Adding to and removing from the library *)

Lemma last_cons_default {A} (d a : A) (l : list A) :
  default d (last (a :: l)) = default a (last l).
Proof. rewrite last_cons. by destruct (last l). Qed.

(** The loop over [provider_ids] shared, as text, by library add and
    library remove. *)
Lemma provider_loop_ok mass method ev (m : MediaItem) refs result0 w :
  Forall is_ok
    (omap (λ ref, (λ p, method p (pr_item_id ref) (media_type m))
                    <$> get_provider mass (pr_provider ref)) refs) →
  for_each refs (λ prov result,
    match get_provider mass (pr_provider prov) with
    | Some provider =>
        call (ev (prov_id provider) (pr_item_id prov) (media_type m))
             (method provider (pr_item_id prov) (media_type m))
    | None => mret result
    end) result0 w
  = (Ok (default result0
           (last (answer_of
                    <$> omap (λ ref,
                          (λ p, method p (pr_item_id ref) (media_type m))
                            <$> get_provider mass (pr_provider ref)) refs))),
     log w (omap (λ ref,
              (λ p, ev (prov_id p) (pr_item_id ref) (media_type m))
                <$> get_provider mass (pr_provider ref)) refs)).
Proof.
  revert result0 w. induction refs as [|ref refs IH]; intros result0 w Hok;
    simpl in *.
  - by rewrite log_nil.
  - destruct (get_provider mass (pr_provider ref)) as [p|]; simpl in *.
    + apply Forall_cons in Hok as [[b Hb] Hok].
      rewrite (bind_ok _ _ _ b
                 (log w [ev (prov_id p) (pr_item_id ref) (media_type m)]))
        by (by rewrite call_log, Hb).
      rewrite IH, log_log by done. rewrite Hb. simpl.
      by rewrite last_cons_default.
    + rewrite (bind_ok _ _ _ result0 w) by done. by apply IH.
Qed.

Lemma last_app_default {A} (d : A) (l1 l2 : list A) :
  default d (last (l1 ++ l2)) = default (default d (last l1)) (last l2).
Proof.
  destruct l2 as [|x l2 _] using rev_ind.
  - rewrite app_nil_r. by destruct (last l1).
  - by rewrite app_assoc, !last_snoc.
Qed.

Lemma library_add_from mass media_items result0 w :
  Forall is_ok
    (media_items ≫= provider_answers mass provider_async_library_add) →
  (∀ m, m ∈ media_items → provider m = "database" →
     database_async_add_to_library mass (item_id m) (media_type m)
       (provider m) = Ok tt) →
  for_each media_items (library_add_item mass) result0 w
  = (Ok (default result0
           (last (answer_of
                    <$> (media_items
                           ≫= provider_answers mass
                                provider_async_library_add)))),
     log w (media_items
              ≫= λ m, provider_events mass prov_library_add m
                      ++ database_event db_add_to_library m)).
Proof.
  revert w result0.
  induction media_items as [|m items IH]; intros w result0 Hok Hdb; simpl.
  - by rewrite log_nil.
  - simpl in Hok. apply Forall_app in Hok as [Hm Hok].
    assert (library_add_item mass m result0 w
            = (Ok (default result0
                     (last (answer_of
                              <$> provider_answers mass
                                    provider_async_library_add m))),
               log w (provider_events mass prov_library_add m
                      ++ database_event db_add_to_library m))) as Hitem.
    { unfold library_add_item.
      rewrite (bind_ok _ _ _ _ _
                 (provider_loop_ok mass provider_async_library_add
                    prov_library_add m (provider_ids m) result0 w Hm)).
      unfold database_event. destruct (decide (provider m = "database")).
      - unfold add_to_library.
        rewrite (bind_ok _ _ _ tt
                   (log (log w (provider_events mass prov_library_add m))
                      [db_add_to_library (item_id m) (media_type m)
                         (provider m)])).
        + by rewrite log_log.
        + rewrite call_log, Hdb; [done| |done]. apply list_elem_of_here.
      - by rewrite app_nil_r. }
    rewrite (bind_ok _ _ _ _ _ Hitem), IH, log_log; [|done|].
    + by rewrite fmap_app, last_app_default.
    + intros m' ?. apply Hdb. by apply list_elem_of_further.
Qed.

(** X9.  async_library_add, when every call it makes is answered: it
    calls library-add on every provider of every item that [get_provider]
    knows, skipping the others without error; it marks in the store the
    items the database owns, and no others; and it returns the answer of
    the last provider call alone (False when no provider was called). *)
Theorem library_add_ok mass media_items w :
  Forall is_ok
    (media_items ≫= provider_answers mass provider_async_library_add) →
  (∀ m, m ∈ media_items → provider m = "database" →
     database_async_add_to_library mass (item_id m) (media_type m)
       (provider m) = Ok tt) →
  async_library_add mass media_items w
  = (Ok (default false
           (last (answer_of
                    <$> (media_items
                           ≫= provider_answers mass
                                provider_async_library_add)))),
     log w (media_items
              ≫= λ m, provider_events mass prov_library_add m
                      ++ database_event db_add_to_library m)).
Proof. apply library_add_from. Qed.

(** A database track known on an unregistered provider and on p1, then a
    track of p1: two provider calls, one store call. *)
Lemma library_add_ok_witness :
  async_library_add Demo.mass1 [Demo.library_track; Demo.provider_track]
    Demo.empty_world
  = (Ok true,
     log Demo.empty_world
       [prov_library_add "p1" "t7" Track;
        db_add_to_library "7" Track "database";
        prov_library_add "p1" "t8" Track]).
Proof.
  etrans; [apply (library_add_ok Demo.mass1
                    [Demo.library_track; Demo.provider_track]
                    Demo.empty_world)|reflexivity].
  - repeat constructor; by eexists.
  - reflexivity.
Defined.

Lemma library_remove_from mass media_items result0 w :
  Forall is_ok
    (media_items ≫= provider_answers mass provider_async_library_remove) →
  (∀ m, m ∈ media_items → provider m = "database" →
     database_async_remove_from_library mass (item_id m) (media_type m)
       (provider m) = Ok tt) →
  for_each media_items (library_remove_item mass) result0 w
  = (Ok (default result0
           (last (answer_of
                    <$> (media_items
                           ≫= provider_answers mass
                                provider_async_library_remove)))),
     log w (media_items
              ≫= λ m, provider_events mass prov_library_remove m
                      ++ database_event db_remove_from_library m)).
Proof.
  revert w result0.
  induction media_items as [|m items IH]; intros w result0 Hok Hdb; simpl.
  - by rewrite log_nil.
  - simpl in Hok. apply Forall_app in Hok as [Hm Hok].
    assert (library_remove_item mass m result0 w
            = (Ok (default result0
                     (last (answer_of
                              <$> provider_answers mass
                                    provider_async_library_remove m))),
               log w (provider_events mass prov_library_remove m
                      ++ database_event db_remove_from_library m))) as Hitem.
    { unfold library_remove_item.
      rewrite (bind_ok _ _ _ _ _
                 (provider_loop_ok mass provider_async_library_remove
                    prov_library_remove m (provider_ids m) result0 w Hm)).
      unfold database_event. destruct (decide (provider m = "database")).
      - unfold remove_from_library.
        rewrite (bind_ok _ _ _ tt
                   (log (log w (provider_events mass prov_library_remove m))
                      [db_remove_from_library (item_id m) (media_type m)
                         (provider m)])).
        + by rewrite log_log.
        + rewrite call_log, Hdb; [done| |done]. apply list_elem_of_here.
      - by rewrite app_nil_r. }
    rewrite (bind_ok _ _ _ _ _ Hitem), IH, log_log; [|done|].
    + by rewrite fmap_app, last_app_default.
    + intros m' ?. apply Hdb. by apply list_elem_of_further.
Qed.

(** X10.  async_library_remove, when every call it makes is answered:
    it calls library-remove on every provider of every item that
    [get_provider] knows, skipping the others without error; it unmarks in
    the store the items the database owns, and no others; and it returns
    the answer of the last provider call alone (False when no provider was
    called). *)
Theorem library_remove_ok mass media_items w :
  Forall is_ok
    (media_items ≫= provider_answers mass provider_async_library_remove) →
  (∀ m, m ∈ media_items → provider m = "database" →
     database_async_remove_from_library mass (item_id m) (media_type m)
       (provider m) = Ok tt) →
  async_library_remove mass media_items w
  = (Ok (default false
           (last (answer_of
                    <$> (media_items
                           ≫= provider_answers mass
                                provider_async_library_remove)))),
     log w (media_items
              ≫= λ m, provider_events mass prov_library_remove m
                      ++ database_event db_remove_from_library m)).
Proof. apply library_remove_from. Qed.

(** The same two tracks removed: two provider calls, one store call. *)
Lemma library_remove_ok_witness :
  async_library_remove Demo.mass1 [Demo.library_track; Demo.provider_track]
    Demo.empty_world
  = (Ok true,
     log Demo.empty_world
       [prov_library_remove "p1" "t7" Track;
        db_remove_from_library "7" Track "database";
        prov_library_remove "p1" "t8" Track]).
Proof.
  etrans; [apply (library_remove_ok Demo.mass1
                    [Demo.library_track; Demo.provider_track]
                    Demo.empty_world)|reflexivity].
  - repeat constructor; by eexists.
  - reflexivity.
Defined.

(** ** Playlist tracks: the calls that go through *)

(** X11.  addTracks on an editable playlist whose existing tracks can be
    listed: when nothing is queued the result is False and nothing is
    written; when something is queued the checksum of the playlist is
    written first, then the playlist's provider is handed the queued ids,
    and the result is the provider's answer. *)
Theorem add_tracks_goes_through mass db_playlist_id tracks w
    playlist playlist_prov rest items :
  music_async_get mass Playlist db_playlist_id "database" = Ok (Some playlist) →
  is_editable playlist = true →
  provider_ids playlist = playlist_prov :: rest →
  music_async_get_playlist_tracks mass (pr_item_id playlist_prov)
    (pr_provider playlist_prov) = Ok items →
  match track_ids_to_add_of (cur_playlist_track_ids_of items)
          (pr_provider playlist_prov) tracks with
  | [] =>
      async_add_playlist_tracks mass db_playlist_id tracks w
      = (Ok (PyBool false),
         log w [music_get Playlist db_playlist_id "database";
                music_get_playlist_tracks (pr_item_id playlist_prov)
                  (pr_provider playlist_prov)])
  | id :: ids =>
      ∀ prov r,
        (∀ stamp, database_async_update_playlist mass (item_id playlist)
                    "checksum" stamp = Ok tt) →
        get_provider mass (pr_provider playlist_prov) = Some prov →
        provider_async_add_playlist_tracks prov (pr_item_id playlist_prov)
          (id :: ids) = Ok r →
        ∃ stamp,
          async_add_playlist_tracks mass db_playlist_id tracks w
          = (Ok (PyBool r),
             log w [music_get Playlist db_playlist_id "database";
                    music_get_playlist_tracks (pr_item_id playlist_prov)
                      (pr_provider playlist_prov);
                    db_update_playlist (item_id playlist) "checksum" stamp;
                    prov_add_playlist_tracks (prov_id prov)
                      (pr_item_id playlist_prov) (id :: ids)])
  end.
Proof.
  intros Hget Hed Hprovs Hitems.
  destruct (track_ids_to_add_of _ _ tracks) as [|id ids] eqn:Hqueue.
  - unfold async_add_playlist_tracks, music_get_item, first_item, now,
      prov_call, mbind, M_bind, mret, M_ret, call, attr. simpl.
    rewrite Hget, Hed, Hprovs. simpl. rewrite Hitems, Hqueue.
    unfold log. simpl. by rewrite <- app_assoc.
  - intros prov r Hupd Hprov Hanswer.
    destruct (add_playlist_tracks_ok mass db_playlist_id tracks w playlist
                playlist_prov rest items prov r Hget Hed Hprovs Hitems)
      as (stamp & Hrun); try done.
    + by rewrite Hqueue.
    + by rewrite Hqueue.
    + exists stamp. by rewrite Hrun, Hqueue.
Qed.

(** The track known on spotify as s2 and s3 added to a spotify playlist
    that holds nothing yet: the better version, s3, is handed over. *)
Lemma add_tracks_goes_through_witness :
  ∃ stamp,
    async_add_playlist_tracks (Demo.mass_with_playlist "spotify" true []) "10"
      [Demo.track_on_spotify_twice] Demo.empty_world
    = (Ok (PyBool true),
       log Demo.empty_world
         [music_get Playlist "10" "database";
          music_get_playlist_tracks "pl.m3u" "spotify";
          db_update_playlist "10" "checksum" stamp;
          prov_add_playlist_tracks "spotify" "pl.m3u" ["s3"]]).
Proof.
  pose proof (add_tracks_goes_through
                (Demo.mass_with_playlist "spotify" true []) "10"
                [Demo.track_on_spotify_twice] Demo.empty_world
                (Demo.playlist_on "spotify")
                {| pr_provider := "spotify"; pr_item_id := "pl.m3u";
                   pr_quality := 0 |} [] []
                eq_refl eq_refl eq_refl eq_refl) as Hgo.
  assert (track_ids_to_add_of (cur_playlist_track_ids_of []) "spotify"
            [Demo.track_on_spotify_twice] = ["s3"]) as Hqueue
    by reflexivity.
  simpl pr_provider in Hgo. rewrite Hqueue in Hgo.
  apply (Hgo (Demo.music_provider "spotify" [Playlist; Track]
                (Demo.catalog "spotify" [])) true);
    reflexivity.
Defined.

Lemma track_ids_to_remove_of_versions playlist_provider tracks :
  track_ids_to_remove_of playlist_provider tracks
  = versions_on playlist_provider tracks.
Proof.
  unfold track_ids_to_remove_of, versions_on.
  assert (∀ (vs : list MediaItemProviderId) (acc : list string),
    fold_left (λ track_ids_to_remove track_provider,
      if decide (pr_provider track_provider = playlist_provider)
      then track_ids_to_remove ++ [pr_item_id track_provider]
      else track_ids_to_remove) vs acc
    = acc ++ (pr_item_id
                <$> filter (λ v, pr_provider v = playlist_provider) vs))
    as Hinner.
  { induction vs as [|v vs IH]; intros acc; simpl.
    - by rewrite app_nil_r.
    - rewrite IH, filter_cons. case_decide; [|done].
      by rewrite <- app_assoc. }
  assert (∀ acc : list string,
    fold_left (λ track_ids_to_remove track,
      fold_left (λ track_ids_to_remove track_provider,
        if decide (pr_provider track_provider = playlist_provider)
        then track_ids_to_remove ++ [pr_item_id track_provider]
        else track_ids_to_remove) (provider_ids track) track_ids_to_remove)
      tracks acc
    = acc ++ (tracks ≫= λ track,
                pr_item_id
                  <$> filter (λ v, pr_provider v = playlist_provider)
                        (provider_ids track))) as Houter.
  { induction tracks as [|track tracks IH]; intros acc; simpl.
    - by rewrite app_nil_r.
    - by rewrite IH, Hinner, <- app_assoc. }
  apply Houter.
Qed.

(** X12.  removeTracks on an editable playlist collects the ids of every
    version of the given tracks on the playlist's provider, in order and
    without looking at what the playlist holds; when there are any, the
    checksum of the playlist is written first, then the provider is handed
    these ids, and the result is the provider's answer. *)
Theorem remove_tracks_goes_through_on mass db_playlist_id tracks w
    playlist prov_playlist rest prov r :
  music_async_get mass Playlist db_playlist_id "database" = Ok (Some playlist) →
  is_editable playlist = true →
  provider_ids playlist = prov_playlist :: rest →
  versions_on (pr_provider prov_playlist) tracks ≠ [] →
  (∀ stamp, database_async_update_playlist mass (item_id playlist)
              "checksum" stamp = Ok tt) →
  get_provider mass (pr_provider prov_playlist) = Some prov →
  provider_async_remove_playlist_tracks prov (pr_item_id prov_playlist)
    (versions_on (pr_provider prov_playlist) tracks) = Ok r →
  ∃ stamp,
    async_remove_playlist_tracks mass db_playlist_id tracks w
    = (Ok (PyBool r),
       log w [music_get Playlist db_playlist_id "database";
              db_update_playlist (item_id playlist) "checksum" stamp;
              prov_remove_playlist_tracks (prov_id prov)
                (pr_item_id prov_playlist)
                (versions_on (pr_provider prov_playlist) tracks)]).
Proof.
  intros Hget Hed Hprovs Hne Hupd Hprov Hanswer.
  unfold async_remove_playlist_tracks, music_get_item, first_item, now,
    prov_call, mbind, M_bind, mret, M_ret, call, attr. simpl.
  rewrite Hget, Hed, Hprovs. simpl.
  rewrite track_ids_to_remove_of_versions.
  destruct (versions_on _ tracks) as [|id ids] eqn:Hids; [done|].
  rewrite Hupd, Hprov. simpl. rewrite Hanswer.
  eexists. unfold log. simpl. rewrite <- !app_assoc. simpl. reflexivity.
Qed.

Lemma remove_tracks_goes_through_on_witness :
  ∃ stamp,
    async_remove_playlist_tracks (Demo.mass_with_playlist "spotify" true [])
      "10" [Demo.track_on_qobuz; Demo.track_on_spotify_twice]
      Demo.empty_world
    = (Ok (PyBool true),
       log Demo.empty_world
         [music_get Playlist "10" "database";
          db_update_playlist "10" "checksum" stamp;
          prov_remove_playlist_tracks "spotify" "pl.m3u" ["s2"; "s3"]]).
Proof.
  apply (remove_tracks_goes_through_on
           (Demo.mass_with_playlist "spotify" true []) "10"
           [Demo.track_on_qobuz; Demo.track_on_spotify_twice]
           Demo.empty_world (Demo.playlist_on "spotify")
           {| pr_provider := "spotify"; pr_item_id := "pl.m3u";
              pr_quality := 0 |} []
           (Demo.music_provider "spotify" [Playlist; Track]
              (Demo.catalog "spotify" [])) true); try reflexivity.
  by vm_compute.
Defined.

(** ** Playlist tracks: the calls that raise *)

(** X13.  An editable playlist record without any provider entry makes
    addTracks and removeTracks raise IndexError right after the playlist
    lookup: nothing is listed, written or handed to a provider. *)
Theorem playlist_without_provider_entry mass db_playlist_id tracks w playlist :
  music_async_get mass Playlist db_playlist_id "database" = Ok (Some playlist) →
  is_editable playlist = true →
  provider_ids playlist = [] →
  async_add_playlist_tracks mass db_playlist_id tracks w
  = (Raise IndexError, log w [music_get Playlist db_playlist_id "database"])
  ∧ async_remove_playlist_tracks mass db_playlist_id tracks w
    = (Raise IndexError,
       log w [music_get Playlist db_playlist_id "database"]).
Proof.
  intros Hget Hed Hprovs.
  unfold async_add_playlist_tracks, async_remove_playlist_tracks,
    music_get_item, first_item, mbind, M_bind, mret, M_ret, call, raise.
  simpl. by rewrite Hget, Hed, Hprovs.
Qed.

Lemma playlist_without_provider_entry_witness :
  async_add_playlist_tracks Demo.mass_with_bare_playlist "10"
    [Demo.track_on_qobuz] Demo.empty_world
  = (Raise IndexError,
     log Demo.empty_world [music_get Playlist "10" "database"])
  ∧ async_remove_playlist_tracks Demo.mass_with_bare_playlist "10"
      [Demo.track_on_qobuz] Demo.empty_world
    = (Raise IndexError,
       log Demo.empty_world [music_get Playlist "10" "database"]).
Proof.
  eapply (playlist_without_provider_entry Demo.mass_with_bare_playlist "10"
            [Demo.track_on_qobuz] Demo.empty_world); reflexivity.
Defined.

(** X14.  When the provider the playlist lives on is not registered and
    there is something to add, or to remove, the call raises
    AttributeError, and by then the checksum of the playlist has already
    been written. *)
Theorem playlist_on_unknown_provider mass db_playlist_id tracks w
    playlist playlist_prov rest :
  music_async_get mass Playlist db_playlist_id "database" = Ok (Some playlist) →
  is_editable playlist = true →
  provider_ids playlist = playlist_prov :: rest →
  (∀ stamp, database_async_update_playlist mass (item_id playlist)
              "checksum" stamp = Ok tt) →
  get_provider mass (pr_provider playlist_prov) = None →
  (∀ items,
     music_async_get_playlist_tracks mass (pr_item_id playlist_prov)
       (pr_provider playlist_prov) = Ok items →
     track_ids_to_add_of (cur_playlist_track_ids_of items)
       (pr_provider playlist_prov) tracks ≠ [] →
     ∃ stamp,
       async_add_playlist_tracks mass db_playlist_id tracks w
       = (Raise AttributeError,
          log w [music_get Playlist db_playlist_id "database";
                 music_get_playlist_tracks (pr_item_id playlist_prov)
                   (pr_provider playlist_prov);
                 db_update_playlist (item_id playlist) "checksum" stamp]))
  ∧ (versions_on (pr_provider playlist_prov) tracks ≠ [] →
     ∃ stamp,
       async_remove_playlist_tracks mass db_playlist_id tracks w
       = (Raise AttributeError,
          log w [music_get Playlist db_playlist_id "database";
                 db_update_playlist (item_id playlist) "checksum" stamp])).
Proof.
  intros Hget Hed Hprovs Hupd Hnone. split.
  - intros items Hitems Hne.
    unfold async_add_playlist_tracks, music_get_item, first_item, now,
      prov_call, mbind, M_bind, mret, M_ret, call, attr, raise. simpl.
    rewrite Hget, Hed, Hprovs. simpl. rewrite Hitems.
    destruct (track_ids_to_add_of _ _ tracks) as [|id ids]; [done|].
    rewrite Hupd, Hnone. simpl.
    eexists. unfold log. simpl. rewrite <- !app_assoc. simpl. reflexivity.
  - intros Hne.
    unfold async_remove_playlist_tracks, music_get_item, first_item, now,
      prov_call, mbind, M_bind, mret, M_ret, call, attr, raise. simpl.
    rewrite Hget, Hed, Hprovs. simpl.
    rewrite track_ids_to_remove_of_versions.
    destruct (versions_on _ tracks) as [|id ids]; [done|].
    rewrite Hupd, Hnone. simpl.
    eexists. unfold log. simpl. rewrite <- !app_assoc. simpl. reflexivity.
Qed.

Lemma playlist_on_unknown_provider_witness :
  (∃ stamp,
     async_add_playlist_tracks Demo.mass_without_providers "10"
       [Demo.track_on_spotify_twice] Demo.empty_world
     = (Raise AttributeError,
        log Demo.empty_world
          [music_get Playlist "10" "database";
           music_get_playlist_tracks "pl.m3u" "spotify";
           db_update_playlist "10" "checksum" stamp]))
  ∧ ∃ stamp,
      async_remove_playlist_tracks Demo.mass_without_providers "10"
        [Demo.track_on_spotify_twice] Demo.empty_world
      = (Raise AttributeError,
         log Demo.empty_world
           [music_get Playlist "10" "database";
            db_update_playlist "10" "checksum" stamp]).
Proof.
  destruct (playlist_on_unknown_provider Demo.mass_without_providers "10"
              [Demo.track_on_spotify_twice] Demo.empty_world
              (Demo.playlist_on "spotify")
              {| pr_provider := "spotify"; pr_item_id := "pl.m3u";
                 pr_quality := 0 |} [])
    as [Hadd Hremove]; try reflexivity.
  split.
  - apply (Hadd []); [reflexivity|by vm_compute].
  - apply Hremove. by vm_compute.
Defined.

(** ** Playlist tracks: what is queued *)

(** X15.  The candidates of addTracks are judged one by one, against the
    tracks the playlist already holds and never against each other: the
    queue for two lists of candidates one after the other is the queue of
    the first followed by the queue of the second.  So a new track given
    twice in one call is queued twice. *)
Theorem candidates_are_judged_one_by_one cur playlist_provider tracks1 tracks2 :
  track_ids_to_add_of cur playlist_provider (tracks1 ++ tracks2)
  = track_ids_to_add_of cur playlist_provider tracks1
    ++ track_ids_to_add_of cur playlist_provider tracks2.
Proof. rewrite !track_ids_to_add_of_omap. apply omap_app. Qed.

Example same_candidate_twice :
  async_add_playlist_tracks (Demo.mass_with_playlist "spotify" true []) "10"
    [Demo.track_on_spotify_twice; Demo.track_on_spotify_twice]
    Demo.empty_world
  = (Ok (PyBool true),
     log Demo.empty_world
       [music_get Playlist "10" "database";
        music_get_playlist_tracks "pl.m3u" "spotify";
        db_update_playlist "10" "checksum" "t";
        prov_add_playlist_tracks "spotify" "pl.m3u" ["s3"; "s3"]]).
Proof. by vm_compute. Qed.

(** ** Playlist tracks: which version among equals *)

Lemma head_filter_insert_by_quality (P : MediaItemProviderId → Prop)
    `{∀ v, Decision (P v)} x s :
  StronglySorted better s →
  head (filter P (insert_by_quality x s))
  = match head (filter P s) with
    | Some y =>
        if decide (P x)
        then if (pr_quality y <=? pr_quality x)%Z then Some x else Some y
        else Some y
    | None => if decide (P x) then Some x else None
    end.
Proof.
  induction s as [|y0 s IH]; intros Hs; simpl.
  - rewrite filter_cons, filter_nil. by destruct (decide (P x)).
  - apply StronglySorted_cons in Hs as [Hy0 Hs].
    destruct (pr_quality y0 <=? pr_quality x)%Z eqn:Hle.
    + apply Z.leb_le in Hle.
      rewrite (filter_cons P x). destruct (decide (P x)) as [HPx|HPx]; simpl.
      * destruct (head (filter P (y0 :: s))) as [y|] eqn:Hhead; [|done].
        assert (y ∈ y0 :: s) as Hin.
        { apply head_Some in Hhead as [l' Hl'].
          assert (y ∈ filter P (y0 :: s)) as Hy
            by (rewrite Hl'; apply list_elem_of_here).
          by apply list_elem_of_filter in Hy as [_ ?]. }
        assert (pr_quality y ≤ pr_quality x)%Z as Hyx.
        { apply elem_of_cons in Hin as [->|Hin]; [done|].
          eapply Forall_forall in Hy0; [|exact Hin]. unfold better in Hy0.
          lia. }
        apply Z.leb_le in Hyx. by rewrite Hyx.
      * by destruct (head (filter P (y0 :: s))).
    + apply Z.leb_gt in Hle.
      rewrite (filter_cons P y0), (filter_cons P y0).
      destruct (decide (P y0)) as [HPy0|HPy0]; simpl.
      * destruct (decide (P x)); [|done].
        assert ((pr_quality y0 <=? pr_quality x)%Z = false) as ->
          by (by apply Z.leb_gt).
        done.
      * by apply IH.
Qed.

(** In the sorted versions, the first one a predicate accepts is, in the
    order the track lists its versions, the first of the best it accepts. *)
Lemma first_accepted_first_of_best (P : MediaItemProviderId → Prop)
    `{∀ v, Decision (P v)} l v :
  head (filter P (sorted_by_quality l)) = Some v →
  ∃ l1 l2,
    l = l1 ++ v :: l2
    ∧ P v
    ∧ (∀ v', v' ∈ l1 → P v' → (pr_quality v' < pr_quality v)%Z)
    ∧ (∀ v', v' ∈ l2 → P v' → (pr_quality v' ≤ pr_quality v)%Z).
Proof.
  revert v. induction l as [|x l IH]; intros v; simpl; [done|].
  rewrite head_filter_insert_by_quality by apply sorted_by_quality_sorted.
  destruct (head (filter P (sorted_by_quality l))) as [y|] eqn:Hhead.
  - destruct (IH y eq_refl) as (l1 & l2 & -> & HPy & Hl1 & Hl2).
    destruct (decide (P x)) as [HPx|HPx].
    + destruct (pr_quality y <=? pr_quality x)%Z eqn:Hle; intros [= <-].
      * apply Z.leb_le in Hle. exists [], (l1 ++ y :: l2).
        split; [done|]. split; [done|]. split.
        { intros v' Hv'. by apply elem_of_nil in Hv'. }
        intros v' [Hv'|[->|Hv']%elem_of_cons]%elem_of_app HPv'.
        -- specialize (Hl1 v' Hv' HPv'). lia.
        -- done.
        -- specialize (Hl2 v' Hv' HPv'). lia.
      * apply Z.leb_gt in Hle. exists (x :: l1), l2.
        split; [done|]. split; [done|]. split; [|done].
        intros v' [->|Hv']%elem_of_cons HPv'; [done|]. by apply Hl1.
    + intros [= <-]. exists (x :: l1), l2.
      split; [done|]. split; [done|]. split; [|done].
      intros v' [->|Hv']%elem_of_cons HPv'; [done|]. by apply Hl1.
  - destruct (decide (P x)) as [HPx|HPx]; [|done]. intros [= <-].
    exists [], l. split; [done|]. split; [done|]. split.
    { intros v' Hv'. by apply elem_of_nil in Hv'. }
    intros v' Hv' HPv'. apply head_None in Hhead.
    assert (v' ∈ filter P (sorted_by_quality l)) as Hin.
    { apply list_elem_of_filter. split; [done|].
      by rewrite sorted_by_quality_perm. }
    rewrite Hhead in Hin. by apply elem_of_nil in Hin.
Qed.

(** X16.  On a playlist whose provider is not "file", the version queued
    for a candidate is, in the order the track lists its versions, the
    first of the best-quality versions on the playlist's provider: every
    version of that provider listed before it is strictly worse, none
    listed after it is better. *)
Theorem queued_version_is_first_of_best playlist_provider track id :
  playlist_provider ≠ "file" →
  track_id_to_add playlist_provider track = Some id →
  ∃ before v after,
    provider_ids track = before ++ v :: after
    ∧ pr_provider v = playlist_provider
    ∧ id = pr_item_id v
    ∧ (∀ v', v' ∈ before → pr_provider v' = playlist_provider →
             (pr_quality v' < pr_quality v)%Z)
    ∧ (∀ v', v' ∈ after → pr_provider v' = playlist_provider →
             (pr_quality v' ≤ pr_quality v)%Z).
Proof.
  intros Hfile. unfold track_id_to_add.
  rewrite pick_track_version_same_provider by done.
  destruct (head (filter (λ v, pr_provider v = playlist_provider)
                    (sorted_by_quality (provider_ids track))))
    as [v|] eqn:Hhead; simpl; [|done].
  intros [= <-].
  destruct (first_accepted_first_of_best _ _ _ Hhead)
    as (before & after & Hsplit & HP & Hbefore & Hafter).
  by exists before, v, after.
Qed.

(** s5 and s6 are the best versions on spotify; s5 is listed first. *)
Lemma queued_version_is_first_of_best_witness :
  track_id_to_add "spotify" Demo.track_with_equal_versions = Some "s5"
  ∧ ∃ before v after,
      provider_ids Demo.track_with_equal_versions = before ++ v :: after
      ∧ pr_provider v = "spotify"
      ∧ "s5" = pr_item_id v
      ∧ (∀ v', v' ∈ before → pr_provider v' = "spotify" →
               (pr_quality v' < pr_quality v)%Z)
      ∧ (∀ v', v' ∈ after → pr_provider v' = "spotify" →
               (pr_quality v' ≤ pr_quality v)%Z).
Proof.
  split; [reflexivity|].
  apply (queued_version_is_first_of_best "spotify"
           Demo.track_with_equal_versions "s5"); [done|reflexivity].
Defined.

(** ** Interleaved runs: after a failure *)

Lemma raised_stays_raised s s' (job : sync_job) :
  loop_step s s' →
  (job, Raised) ∈ invocations s → (job, Raised) ∈ invocations s'.
Proof.
  assert (∀ (l1 l2 : list invocation) (x x' : invocation),
            x ≠ (job, Raised) →
            (job, Raised) ∈ l1 ++ x :: l2 → (job, Raised) ∈ l1 ++ x' :: l2)
    as Hswap.
  { intros l1 l2 x x' Hne.
    rewrite !elem_of_app, !elem_of_cons. intros [?|[?|?]]; [by left|done|].
    by right; right. }
  intros [w w' l1 l2 prov_id desc entered _
         | w w' invs job' _ _
         | w w' l1 l2 prov_id desc _
         | w l1 l2 job']; simpl; try done;
    by apply Hswap.
Qed.

Lemma raised_stays_raised_rtc s s' (job : sync_job) :
  rtc loop_step s s' →
  (job, Raised) ∈ invocations s → (job, Raised) ∈ invocations s'.
Proof. induction 1; eauto using raised_stays_raised. Qed.

Lemma nodup_fst_unique {A B} (l : list (A * B)) a x y :
  NoDup (l.*1) → (a, x) ∈ l → (a, y) ∈ l → x = y.
Proof.
  induction l as [|[a0 b0] l IH]; simpl.
  - intros _ Hx. by apply elem_of_nil in Hx.
  - intros [Hnot Hnd]%NoDup_cons Hx Hy.
    apply elem_of_cons in Hx as [Hx|Hx];
      apply elem_of_cons in Hy as [Hy|Hy].
    + congruence.
    + destruct Hnot. apply list_elem_of_fmap. exists (a, y).
      split; [|done]. simpl. congruence.
    + destruct Hnot. apply list_elem_of_fmap. exists (a, x).
      split; [|done]. simpl. congruence.
    + by apply IH.
Qed.

Lemma holds_entry_elem (job : sync_job) ph (invs : list invocation) :
  (job, ph) ∈ invs → holds_entry (job, ph) = true →
  (job, ph) ∈ List.filter holds_entry invs.
Proof.
  intros Hin Hholds. apply list_elem_of_In, List.filter_In.
  split; [by apply list_elem_of_In|done].
Qed.

(** X17.  On the event loop, once a run for a (provider_id, kind) pair has
    raised, the pair stays in the running jobs in every later state, no run
    for it is ever in flight again, and every later attempt to enter a sync
    for it is refused. *)
Theorem raised_run_blocks_its_pair (s0 s s' : loop_state) prov_id desc :
  running_sync_jobs (world s0) = [] →
  Forall (λ i, i.2 = Pending) (invocations s0) →
  rtc loop_step s0 s →
  ((prov_id, desc), Raised) ∈ invocations s →
  rtc loop_step s s' →
  (prov_id, desc) ∈ running_sync_jobs (world s')
  ∧ in_flight (prov_id, desc) (invocations s') = 0%nat
  ∧ sync_enter desc prov_id (world s') = (Ok false, world s').
Proof.
  intros Hjobs Hpend Hsteps Hraised Hlater.
  assert (rtc loop_step s0 s') as Hreach by (by etrans).
  destruct (loop_inv_reachable s0 s' (loop_inv_initial s0 Hjobs Hpend) Hreach)
    as [Hnd Hperm].
  pose proof (raised_stays_raised_rtc s s' _ Hlater Hraised) as Hraised'.
  rewrite Hperm in Hnd.
  assert ((prov_id, desc) ∈ running_sync_jobs (world s')) as Hin.
  { rewrite Hperm. unfold registered_jobs. apply list_elem_of_fmap.
    exists ((prov_id, desc), Raised). split; [done|].
    by apply holds_entry_elem. }
  split; [done|]. split.
  - unfold in_flight.
    match goal with
    | |- length ?l = _ => destruct l as [|i rest] eqn:Hf; [done|]
    end.
    assert (In i (i :: rest)) as Hi by (by left).
    rewrite <- Hf in Hi.
    apply List.filter_In in Hi as [Hi Hb].
    apply bool_decide_eq_true in Hb. subst i. apply list_elem_of_In in Hi.
    assert (Raised = InFlight) as Habs; [|done].
    eapply (nodup_fst_unique (List.filter holds_entry (invocations s'))
              (prov_id, desc)); [exact Hnd| |]; by apply holds_entry_elem.
  - rewrite sync_enter_spec. by rewrite bool_decide_eq_true_2.
Qed.

(** The first invocation of the artists sync of p1 raised: the second one
    is refused. *)
Lemma raised_run_blocks_its_pair_witness :
  rtc loop_step Demo.two_calls_start Demo.first_call_raised
  ∧ rtc loop_step Demo.first_call_raised Demo.second_call_tried
  ∧ ("p1", "artists") ∈ running_sync_jobs (world Demo.second_call_tried)
  ∧ in_flight ("p1", "artists") (invocations Demo.second_call_tried) = 0%nat.
Proof.
  assert (rtc loop_step Demo.two_calls_start Demo.first_call_raised) as H1.
  { eapply rtc_l;
      [exact (step_enter Demo.empty_world
                (registered Demo.empty_world ("p1", "artists"))
                [] [(("p1", "artists"), Pending)] "p1" "artists" true
                eq_refl)|].
    eapply rtc_l; [|apply rtc_refl].
    exact (step_raise (registered Demo.empty_world ("p1", "artists"))
             [] [(("p1", "artists"), Pending)] ("p1", "artists")). }
  assert (rtc loop_step Demo.first_call_raised Demo.second_call_tried) as H2.
  { eapply rtc_l; [|apply rtc_refl].
    exact (step_enter (registered Demo.empty_world ("p1", "artists"))
             (registered Demo.empty_world ("p1", "artists"))
             [(("p1", "artists"), Raised)] [] "p1" "artists" false
             eq_refl). }
  split; [exact H1|]. split; [exact H2|].
  destruct (raised_run_blocks_its_pair Demo.two_calls_start
              Demo.first_call_raised Demo.second_call_tried "p1" "artists"
              eq_refl ltac:(repeat constructor) H1
              ltac:(apply list_elem_of_here) H2) as (Hin & Hfl & _).
  by split.
Defined.

(** ** Looking up by name *)

Lemma first_by_name_spec items wanted :
  match first_by_name items wanted with
  | Some x =>
      ∃ before after,
        items = before ++ x :: after
        ∧ name x = wanted
        ∧ ∀ y, y ∈ before → name y ≠ wanted
  | None => ∀ y, y ∈ items → name y ≠ wanted
  end.
Proof.
  induction items as [|x items IH]; simpl.
  - intros y Hy. by apply elem_of_nil in Hy.
  - destruct (decide (name x = wanted)) as [Hx|Hx].
    + exists [], items. split; [done|]. split; [done|].
      intros y Hy. by apply elem_of_nil in Hy.
    + destruct (first_by_name items wanted) as [found|].
      * destruct IH as (before & after & -> & Hname & Hbefore).
        exists (x :: before), after. split; [done|]. split; [done|].
        intros y [->|Hy]%elem_of_cons; [done|]. by apply Hbefore.
      * intros y [->|Hy]%elem_of_cons; [done|]. by apply IH.
Qed.

(** X18.  The lookups of a playlist and of a radio by name answer, when
    the library can be listed, with the first listed item of that name, and
    with None, not an exception, when the library holds no item of that
    name. *)
Theorem lookup_by_name_finds_the_first library wanted :
  async_get_radio_by_name (Ok library) wanted
  = async_get_library_playlist_by_name (Ok library) wanted
  ∧ match async_get_library_playlist_by_name (Ok library) wanted with
    | Ok (Some x) =>
        ∃ before after,
          library = before ++ x :: after
          ∧ name x = wanted
          ∧ ∀ y, y ∈ before → name y ≠ wanted
    | Ok None => ∀ y, y ∈ library → name y ≠ wanted
    | Raise _ => False
    end.
Proof.
  split; [done|]. simpl. apply first_by_name_spec.
Qed.

(** ** How often an id is removed *)

Lemma count_removals_fmap mt prov id (ids : list string) :
  length (List.filter
            (λ ev, bool_decide (ev = db_remove_from_library id mt prov))
            ((λ id', db_remove_from_library id' mt prov) <$> ids))
  = length (filter (λ id', id' = id) ids).
Proof.
  induction ids as [|id' ids IH]; simpl; [done|].
  rewrite filter_cons. destruct (decide (id' = id)) as [->|Hne].
  - rewrite bool_decide_eq_true_2 by done. simpl. f_equal. exact IH.
  - rewrite bool_decide_eq_false_2 by congruence. exact IH.
Qed.

Lemma count_removals_removal_calls mt prov id evs :
  List.filter (λ ev, bool_decide (ev = db_remove_from_library id mt prov)) evs
  = List.filter (λ ev, bool_decide (ev = db_remove_from_library id mt prov))
      (removal_calls evs).
Proof.
  unfold removal_calls. induction evs as [|ev evs IH]; simpl; [done|].
  destruct (is_removal ev) eqn:Hrm; simpl.
  - by rewrite IH.
  - rewrite bool_decide_eq_false_2; [exact IH|]. by intros ->.
Qed.

Lemma filter_eq_filter_not_in (id : string) (P C : list string) :
  filter (λ id', id' = id) (filter (λ id', id' ∉ C) P)
  = if decide (id ∈ C) then [] else filter (λ id', id' = id) P.
Proof.
  induction P as [|x P IH]; simpl.
  - by destruct (decide (id ∈ C)).
  - rewrite !(filter_cons _ x).
    destruct (decide (x ∉ C)) as [Hx|Hx].
    + rewrite filter_cons, IH. destruct (decide (x = id)) as [->|Hne].
      * by destruct (decide (id ∈ C)).
      * done.
    + rewrite IH. destruct (decide (x = id)) as [->|Hne]; [|done].
      by destruct (decide (id ∈ C)).
Qed.

(** X19.  In a sync run where every call answers, the cache read and
    write included, the run returns, a prior id that is still current is
    not removed, and a prior id that is no longer current is removed as
    many times as the prior list holds it: the prior list is a list, and an
    id the previous catalog listed twice is removed twice. *)
Theorem removals_counted mass mt prov p items (C : list string) w id :
  (prov, sync_desc mt) ∉ running_sync_jobs w →
  cache_get_raises mass (cache_key mt prov) = None →
  cache_set_raises mass (cache_key mt prov) C = None →
  get_provider mass prov = Some p →
  provider_async_get_library p mt = Ok items →
  Forall2 (item_resolves mass mt prov
             (default [] (cache w !! cache_key mt prov))) items C →
  (∀ id, id ∈ default [] (cache w !! cache_key mt prov) → id ∉ C →
     database_async_remove_from_library mass id mt prov = Ok tt) →
  ∃ evs w',
    async_library_sync mass mt prov w = (Ok tt, w')
    ∧ trace w' = trace w ++ evs
    ∧ length (List.filter
                (λ ev, bool_decide (ev = db_remove_from_library id mt prov))
                evs)
      = if decide (id ∈ C) then 0%nat
        else length (filter (λ id', id' = id)
                       (default [] (cache w !! cache_key mt prov))).
Proof.
  intros Hfresh Hget Hset Hprov Hitems HC Hrem.
  destruct (async_library_sync_ok mass mt prov p items C w
              Hfresh Hget Hset Hprov Hitems HC Hrem) as (evs & Hrun & Hcalls).
  exists evs. eexists. split; [exact Hrun|]. split; [done|].
  rewrite count_removals_removal_calls.
  rewrite removal_calls_store_calls, Hcalls.
  unfold removal_calls at 1. rewrite List.filter_app.
  fold (removal_calls
          (concat (zip_with
                     (item_store_calls mt prov
                        (default [] (cache w !! cache_key mt prov)))
                     items C))).
  rewrite removal_calls_items. simpl.
  fold (removal_calls
          ((λ id, db_remove_from_library id mt prov)
             <$> filter (λ id, id ∉ C)
                   (default [] (cache w !! cache_key mt prov)))).
  rewrite removal_calls_removals, count_removals_fmap, filter_eq_filter_not_in.
  by destruct (decide (id ∈ C)).
Qed.

(** The prior list holds B twice and the catalog is empty: B is removed
    twice. *)
Lemma removals_counted_witness :
  ∃ evs w',
    async_library_sync Demo.mass2 Artist "p2"
      (Demo.world_with "library_artists_p2" ["B"; "A"; "B"]) = (Ok tt, w')
    ∧ trace w' = evs
    ∧ length (List.filter
                (λ ev, bool_decide
                         (ev = db_remove_from_library "B" Artist "p2")) evs)
      = 2%nat.
Proof.
  destruct (removals_counted Demo.mass2 Artist "p2" Demo.p2 [] []
              (Demo.world_with "library_artists_p2" ["B"; "A"; "B"]) "B")
    as (evs & w' & Hrun & Htrace & Hcount).
  - apply not_elem_of_nil.
  - reflexivity.
  - reflexivity.
  - reflexivity.
  - reflexivity.
  - constructor.
  - reflexivity.
  - exists evs, w'. split; [exact Hrun|]. split; [exact Htrace|].
    etrans; [exact Hcount|]. reflexivity.
Defined.
